(** * Sentiment classifier: DSString and the text pipeline

    A shallow embedding of [DSString.cpp] and [SentimentClassifier.cpp].

    - A [char] is a byte ([ascii]).  Its value as an [int] depends on
      whether plain [char] is signed on the target, so the conversion takes
      the signedness as a parameter.
    - An [int] is a [Z].  Where the operands come from outside a string (the
      arguments of [substring], the word counters, the score, the counters
      of the evaluation) the arithmetic is written with the wrap-around of
      32-bit two's complement; ISO C++ leaves signed overflow undefined, the
      wrap-around is what the usual targets compute.  Lengths are kept
      exact: the model covers strings and lines shorter than [INT_MAX]
      bytes, and allocations of a non-negative size succeed.  On objects,
      [operator+] computes [newLength] as an int and fails when the size
      of the new array comes out negative.
    - A [DSString] value is the list of the [length] bytes before the
      terminator; its array is that list followed by NUL.  The module
      [Store] further down keeps the two fields [data] and [length] and the
      arrays in a heap, for the properties of copies.
    - [std::map<DSString, V>] is a [gmap] whose key is what [operator<]
      looks at: the bytes of the array up to its first NUL.
    - A file is the list of its lines, as [std::getline] delivers them;
      a line [<a>,<b>] written to an output file is kept as its
      components.
    - The accuracy is a [double]: the quotient of two ints rounded as
      IEEE 754 binary64 division rounds it, and its line in the accuracy
      file is the text that [std::fixed] with [std::setprecision(3)]
      makes of it. *)

From Stdlib Require Import ZArith List Ascii String Lia Bool QArith.
From Stdlib Require Import DecimalString Floats.SpecFloat.
From stdpp Require Import base option gmap strings list.

Open Scope Z_scope.

(** ** Characters and ints *)

Inductive char_signedness : Type := SignedChar | UnsignedChar.

Definition NUL : ascii := Ascii.zero.

(** The byte as a number in 0..255. *)
Definition byte_code (c : ascii) : Z := Z.of_N (N_of_ascii c).

(** Integral promotion of a plain [char]. *)
Definition char_to_int (sgn : char_signedness) (c : ascii) : Z :=
  match sgn with
  | UnsignedChar => byte_code c
  | SignedChar => if byte_code c <? 128 then byte_code c else byte_code c - 256
  end.

(** Conversion of an [int] back to [char]: the low eight bits. *)
Definition int_to_char (z : Z) : ascii := ascii_of_N (Z.to_N (z mod 256)).

Definition INT_MAX : Z := 2147483647.
Definition INT_MIN : Z := -2147483648.

Definition int_range (z : Z) : Prop := INT_MIN <= z <= INT_MAX.

(** The value of an [int] expression whose exact result is [z]. *)
Definition wrap (z : Z) : Z := (z + 2147483648) mod 4294967296 - 2147483648.

Definition int_add (a b : Z) : Z := wrap (a + b).
Definition int_sub (a b : Z) : Z := wrap (a - b).

(** ** DSString *)

(** The bytes of a string, without the terminator. *)
Abbreviation DSString := (list ascii).

(** A pointer-to-const-char argument: [None] is [nullptr]; [Some s] points to the
    array [s] followed by a NUL (an earlier NUL inside [s] ends the
    C-string there). *)
Abbreviation cstring := (option (list ascii)).

(** [DSString::size]. *)
Definition size (s : DSString) : Z := Z.of_nat (List.length s).

(** [DSString::c_str]: the array of the string, terminator left implicit. *)
Definition c_str (s : DSString) : cstring := Some s.

(** The while loop of [stringLength]. *)
Fixpoint stringLength_loop (str : list ascii) (count : Z) : Z :=
  match str with
  | [] => count
  | c :: rest =>
      if Ascii.eqb c NUL then count else stringLength_loop rest (count + 1)
  end.

Definition stringLength (str : cstring) : Z :=
  match str with
  | None => 0
  | Some s => stringLength_loop s 0
  end.

(** [stringCopy] into a fresh array: the first [length] chars of the source
    (the terminator it appends is the implicit one). *)
Definition stringCopy (source : list ascii) (length : Z) : list ascii :=
  take (Z.to_nat length) source.

(** [DSString::DSString()]. *)
Definition DSString_default : DSString := [].

(** The constructor of a [DSString] from a C-string. *)
Definition DSString_of (str : cstring) : DSString :=
  match str with
  | None => []
  | Some s => stringCopy s (stringLength str)
  end.

(** The copy constructor and [operator=], on values. *)
Definition DSString_copy (other : DSString) : DSString :=
  stringCopy other (size other).

(** [operator+]. *)
Definition operator_plus (this other : DSString) : DSString :=
  stringCopy this (size this) ++ other.

(** The for loop of [operator==], entered with equal lengths. *)
Fixpoint operator_eq_loop (d1 d2 : list ascii) : bool :=
  match d1, d2 with
  | c1 :: r1, c2 :: r2 =>
      if negb (Ascii.eqb c1 c2) then false else operator_eq_loop r1 r2
  | _, _ => true
  end.

Definition operator_eq (this other : DSString) : bool :=
  if negb (size this =? size other) then false
  else operator_eq_loop this other.

(** The loop and the final return of [stringCompare]; the end of a list is
    the terminator of its array. *)
Fixpoint stringCompare_loop (sgn : char_signedness) (str1 str2 : list ascii) : Z :=
  match str1, str2 with
  | c1 :: r1, c2 :: r2 =>
      if negb (Ascii.eqb c1 NUL) && negb (Ascii.eqb c2 NUL) then
        if negb (Ascii.eqb c1 c2)
        then char_to_int sgn c1 - char_to_int sgn c2
        else stringCompare_loop sgn r1 r2
      else char_to_int sgn c1 - char_to_int sgn c2
  | c1 :: _, [] => char_to_int sgn c1 - char_to_int sgn NUL
  | [], c2 :: _ => char_to_int sgn NUL - char_to_int sgn c2
  | [], [] => char_to_int sgn NUL - char_to_int sgn NUL
  end.

Definition stringCompare (sgn : char_signedness) (str1 str2 : cstring) : Z :=
  match str1, str2 with
  | None, None => 0
  | None, Some _ => -1
  | Some _, None => 1
  | Some s1, Some s2 => stringCompare_loop sgn s1 s2
  end.

Definition operator_lt (sgn : char_signedness) (this other : DSString) : bool :=
  stringCompare sgn (c_str this) (c_str other) <? 0.

Definition operator_gt (sgn : char_signedness) (this other : DSString) : bool :=
  stringCompare sgn (c_str this) (c_str other) >? 0.

(** The array element [data[index]]; index [length] is the terminator, any
    other index outside [0, length) is outside the array. *)
Definition data_at (s : DSString) (index : Z) : option ascii :=
  if (0 <=? index) && (index <=? size s)
  then Some (nth (Z.to_nat index) s NUL)
  else None.

(** Reading through [operator[]]. *)
Definition operator_index (s : DSString) (index : Z) : option ascii :=
  data_at s index.

(** Writing through the reference that the non-const [operator[]] returns,
    at a position of the string. *)
Definition operator_index_assign (s : DSString) (index : Z) (c : ascii)
  : option DSString :=
  if (0 <=? index) && (index <? size s)
  then Some (<[Z.to_nat index := c]> s)
  else None.

(** What a call can end in. *)
Inductive outcome (A : Type) : Type :=
| Returns (a : A)
| Throws_bad_array_new_length
| Reads_outside_array.
Arguments Returns {A} a.
Arguments Throws_bad_array_new_length {A}.
Arguments Reads_outside_array {A}.

(** The copy loop of [substring]: [subData[i] = data[start + i]] for the
    [n] remaining values of [i]. *)
Fixpoint substring_loop (s : DSString) (start i : Z) (n : nat)
  : option (list ascii) :=
  match n with
  | O => Some []
  | S n' =>
      match data_at s (int_add start i), substring_loop s start (i + 1) n' with
      | Some c, Some rest => Some (c :: rest)
      | _, _ => None
      end
  end.

(** [DSString::substring]; [new char[n]] with [n] negative throws. *)
Definition substring (s : DSString) (start numChars : Z) : outcome DSString :=
  if (start <? 0) || (start >=? size s) || (numChars <=? 0)
  then Returns DSString_default
  else
    let numChars :=
      if int_add start numChars >? size s then int_sub (size s) start
      else numChars in
    if int_add numChars 1 <? 0 then Throws_bad_array_new_length
    else
      match substring_loop s start 0 (Z.to_nat numChars) with
      | Some subData => Returns subData
      | None => Reads_outside_array
      end.

(** [DSString::toLowerCase]. *)
Definition lower_char (sgn : char_signedness) (c : ascii) : ascii :=
  if (char_to_int sgn c >=? char_to_int sgn "A"%char)
     && (char_to_int sgn c <=? char_to_int sgn "Z"%char)
  then int_to_char (char_to_int sgn c + 32)
  else c.

Definition toLowerCase (sgn : char_signedness) (s : DSString) : DSString :=
  map (lower_char sgn) s.

(** A string literal as a [DSString] / as the array of a C-string. *)
Definition lit (s : string) : list ascii := list_ascii_of_string s.


(** ** SentimentClassifier *)

(** A line as [std::getline] delivers it. *)
Abbreviation std_string := (list ascii).

(** The literal [delimiters] of [tokenizeTweet]; ["034"] is the double
    quote. *)
Definition delimiters : list ascii :=
  lit " ,.!?;:" ++ ["034"%char] ++ lit "'()[]{}@#$%^&*-_=+<>/\|~`".

(** The inner loop of [tokenizeTweet], over the chars of [delimiters] up to
    its terminator. *)
Fixpoint isDelimiter_loop (c : ascii) (ds : list ascii) : bool :=
  match ds with
  | [] => false
  | d :: rest => if Ascii.eqb c d then true else isDelimiter_loop c rest
  end.

Definition isDelimiter (c : ascii) : bool := isDelimiter_loop c delimiters.

(** [std::vector::push_back] stores a copy. *)
Definition push_back (v : list DSString) (x : DSString) : list DSString :=
  v ++ [DSString_copy x].

(** The array [temp] holding [c] and a terminator, made into a string. *)
Definition DSString_of_temp (c : ascii) : DSString := DSString_of (Some [c]).

(** The outer loop of [tokenizeTweet] over the chars of [lowerText] that are
    still to come, and the code after it. *)
Fixpoint tokenizeTweet_loop (text : list ascii) (tokens : list DSString)
    (currentWord : DSString) : list DSString :=
  match text with
  | [] =>
      if size currentWord >? 0 then push_back tokens currentWord else tokens
  | c :: rest =>
      if isDelimiter c then
        if size currentWord >? 0
        then tokenizeTweet_loop rest (push_back tokens currentWord) DSString_default
        else tokenizeTweet_loop rest tokens currentWord
      else
        tokenizeTweet_loop rest tokens
          (operator_plus currentWord (DSString_of_temp c))
  end.

Definition tokenizeTweet (sgn : char_signedness) (tweetText : DSString)
  : list DSString :=
  tokenizeTweet_loop (toLowerCase sgn tweetText) [] DSString_default.

(** The loop of [parseCSVLine] and the final [push_back]. *)
Fixpoint parseCSVLine_loop (line : list ascii) (fields : list DSString)
    (currentField : DSString) (inQuotes : bool) : list DSString :=
  match line with
  | [] => push_back fields currentField
  | c :: rest =>
      if Ascii.eqb c "034"%char then
        parseCSVLine_loop rest fields currentField (negb inQuotes)
      else if Ascii.eqb c ","%char && negb inQuotes then
        parseCSVLine_loop rest (push_back fields currentField)
          DSString_default inQuotes
      else
        parseCSVLine_loop rest fields
          (operator_plus currentField (DSString_of_temp c)) inQuotes
  end.

Definition parseCSVLine (line : DSString) (hasSentiment : bool)
  : list DSString :=
  parseCSVLine_loop line [] DSString_default false.

(** The key under which a [std::map] ordered by [operator<] files a
    string: [stringCompare] looks at the array up to its first NUL. *)
Definition key_of (s : DSString) : list ascii :=
  take (Z.to_nat (stringLength (c_str s))) s.

Record SentimentClassifier : Type := {
  wordSentimentCounts : gmap (list ascii) (Z * Z);
  predictions : gmap (list ascii) Z;
  totalPositiveTweets : Z;
  totalNegativeTweets : Z
}.

(** The constructor of [SentimentClassifier]. *)
Definition SentimentClassifier_new : SentimentClassifier :=
  {| wordSentimentCounts := ∅; predictions := ∅;
     totalPositiveTweets := 0; totalNegativeTweets := 0 |}.

(** The loop of [calculateSentimentScore]. *)
Fixpoint calculateSentimentScore_loop (counts : gmap (list ascii) (Z * Z))
    (tokens : list DSString) (score : Z) : Z :=
  match tokens with
  | [] => score
  | token :: rest =>
      match counts !! key_of token with
      | Some (first, second) =>
          calculateSentimentScore_loop counts rest
            (int_add score (int_sub first second))
      | None => calculateSentimentScore_loop counts rest score
      end
  end.

Definition calculateSentimentScore (this : SentimentClassifier)
    (tokens : list DSString) : Z :=
  calculateSentimentScore_loop (wordSentimentCounts this) tokens 0.

(** [fields[i]] where the size of [fields] has been checked. *)
Definition field (fields : list DSString) (i : nat) : DSString :=
  DSString_copy (nth i fields DSString_default).

(** [s[0] == '4']; index 0 is always inside the array. *)
Definition first_byte_is_4 (s : DSString) : bool :=
  match operator_index s 0 with
  | Some c => Ascii.eqb c "4"%char
  | None => false
  end.

(** The loop of [train] over the tokens of one record. *)
Fixpoint train_tokens (sentiment : Z) (tokens : list DSString)
    (counts : gmap (list ascii) (Z * Z)) : gmap (list ascii) (Z * Z) :=
  match tokens with
  | [] => counts
  | token :: rest =>
      if size token <=? 1 then train_tokens sentiment rest counts
      else
        let '(first, second) := default (0, 0) (counts !! key_of token) in
        if sentiment =? 4
        then train_tokens sentiment rest
               (<[key_of token := (int_add first 1, second)]> counts)
        else train_tokens sentiment rest
               (<[key_of token := (first, int_add second 1)]> counts)
  end.

(** The body of the while loop of [train] for a line after the header. *)
Definition train_line (sgn : char_signedness) (this : SentimentClassifier)
    (line : std_string) : SentimentClassifier :=
  let dsLine := DSString_of (Some line) in
  let fields := parseCSVLine dsLine true in
  if Z.of_nat (List.length fields) <? 6 then this
  else
    let sentimentStr := field fields 0 in
    let tweetText := field fields 5 in
    let sentiment := if first_byte_is_4 sentimentStr then 4 else 0 in
    let tokens := tokenizeTweet sgn tweetText in
    {| wordSentimentCounts :=
         train_tokens sentiment tokens (wordSentimentCounts this);
       predictions := predictions this;
       totalPositiveTweets :=
         if first_byte_is_4 sentimentStr
         then int_add (totalPositiveTweets this) 1
         else totalPositiveTweets this;
       totalNegativeTweets :=
         if first_byte_is_4 sentimentStr
         then totalNegativeTweets this
         else int_add (totalNegativeTweets this) 1 |}.

(** [train]: [None] is a file that cannot be opened; the first line is the
    header. *)
Definition train (sgn : char_signedness) (this : SentimentClassifier)
    (trainingDataFile : option (list std_string))
  : bool * SentimentClassifier :=
  match trainingDataFile with
  | None => (false, this)
  | Some lines => (true, fold_left (train_line sgn) (tail lines) this)
  end.

(** A line [<predictedSentiment>,<tweetID>] of the predictions file. *)
Abbreviation prediction_line := (Z * DSString)%type.

(** The body of the while loop of [predict] for a line after the header:
    the classifier afterwards and the line written, if any. *)
Definition predict_line (sgn : char_signedness) (this : SentimentClassifier)
    (line : std_string) : SentimentClassifier * option prediction_line :=
  let dsLine := DSString_of (Some line) in
  let fields := parseCSVLine dsLine false in
  if Z.of_nat (List.length fields) <? 5 then (this, None)
  else
    let tweetID := field fields 0 in
    let tweetText := field fields 4 in
    let tokens := tokenizeTweet sgn tweetText in
    let score := calculateSentimentScore this tokens in
    let predictedSentiment := if score >? 0 then 4 else 0 in
    ({| wordSentimentCounts := wordSentimentCounts this;
        predictions := <[key_of tweetID := predictedSentiment]> (predictions this);
        totalPositiveTweets := totalPositiveTweets this;
        totalNegativeTweets := totalNegativeTweets this |},
     Some (predictedSentiment, tweetID)).

Fixpoint predict_lines (sgn : char_signedness) (this : SentimentClassifier)
    (lines : list std_string) (outFile : list prediction_line)
  : SentimentClassifier * list prediction_line :=
  match lines with
  | [] => (this, outFile)
  | line :: rest =>
      match predict_line sgn this line with
      | (this', Some written) => predict_lines sgn this' rest (outFile ++ [written])
      | (this', None) => predict_lines sgn this' rest outFile
      end
  end.

(** [predict]: [None] for the test file is a file that cannot be opened,
    [false] for the output one that cannot be created. *)
Definition predict (sgn : char_signedness) (this : SentimentClassifier)
    (testDataFile : option (list std_string)) (outputOpens : bool)
  : bool * SentimentClassifier * list prediction_line :=
  match testDataFile with
  | None => (false, this, [])
  | Some lines =>
      if negb outputOpens then (false, this, [])
      else
        let '(this', outFile) := predict_lines sgn this (tail lines) [] in
        (true, this', outFile)
  end.

(** The locals of [evaluatePredictions]. *)
Record evaluation : Type := {
  correctPredictions : Z;
  totalPredictions : Z;
  misclassifications : list (Z * Z * DSString)
}.

Definition evaluation_start : evaluation :=
  {| correctPredictions := 0; totalPredictions := 0; misclassifications := [] |}.

(** The body of the while loop of [evaluatePredictions] for a line after the
    header. *)
Definition evaluate_line (this : SentimentClassifier) (ev : evaluation)
    (line : std_string) : evaluation :=
  let dsLine := DSString_of (Some line) in
  let fields := parseCSVLine dsLine false in
  if Z.of_nat (List.length fields) <? 2 then ev
  else
    let tweetID := field fields 1 in
    let actualSentiment := if first_byte_is_4 (nth 0 fields DSString_default) then 4 else 0 in
    match predictions this !! key_of tweetID with
    | Some predictedSentiment =>
        if predictedSentiment =? actualSentiment
        then {| correctPredictions := int_add (correctPredictions ev) 1;
                totalPredictions := int_add (totalPredictions ev) 1;
                misclassifications := misclassifications ev |}
        else {| correctPredictions := correctPredictions ev;
                totalPredictions := int_add (totalPredictions ev) 1;
                misclassifications :=
                  misclassifications ev ++ [(predictedSentiment, actualSentiment, DSString_copy tweetID)] |}
    | None => ev
    end.

(** The integer nearest to [n / d] for [d > 0], and the even one of the
    two nearest when [n / d] lies half-way between them: rounding to
    nearest, ties to even. *)
Definition round_half_even (n d : Z) : Z :=
  let q := n / d in
  let r := n mod d in
  if 2 * r <? d then q
  else if d <? 2 * r then q + 1
  else if Z.even q then q else q + 1.

(** A finite [double]: its sign and its magnitude [mantissa / 2 ^ scale]. *)
Record double : Type := { negative : bool; mantissa : Z; scale : Z }.

(** [0.0]. *)
Definition double_zero : double :=
  {| negative := false; mantissa := 0; scale := 0 |}.

(** [static_cast<double>(c) / t] for two ints [c] and [t], [t] positive.
    An int has fewer than 53 bits, so both operands convert exactly, and
    the quotient of two ints is neither subnormal nor too large.  IEEE 754
    division gives the exact quotient rounded to 53 significant bits, to
    nearest, ties to even: [scale] is chosen with
    [2 ^ 52 <= |c| * 2 ^ scale / t < 2 ^ 53] and the mantissa is that number
    rounded. *)
Definition double_div (c t : Z) : double :=
  if c =? 0 then double_zero
  else
    let n := Z.abs c in
    let k0 := 52 + Z.log2 t - Z.log2 n in
    let k := if n * 2 ^ k0 <? t * 2 ^ 52 then k0 + 1 else k0 in
    {| negative := c <? 0;
       mantissa := round_half_even (n * 2 ^ k) t;
       scale := k |}.

(** The decimal digit [d] and the decimal digits of a natural number. *)
Definition digit (d : Z) : ascii := ascii_of_N (Z.to_N (48 + d)).

Definition decimal (n : Z) : list ascii :=
  list_ascii_of_string (NilZero.string_of_uint (N.to_uint (Z.to_N n))).

(** The text of [thousandths / 1000] with three digits after the point. *)
Definition three_decimals (thousandths : Z) : list ascii :=
  decimal (thousandths / 1000) ++
  ["."%char; digit (thousandths / 100 mod 10); digit (thousandths / 10 mod 10);
   digit (thousandths mod 10)].

(** [os << std::fixed << std::setprecision(3) << x]: the sign and the
    magnitude rounded to three decimals.  The conversion rounds the exact
    value of the double to nearest, ties to even, as a correctly rounded
    conversion does in the default rounding mode. *)
Definition fixed_3 (x : double) : list ascii :=
  (if negative x then ["-"%char] else []) ++
  three_decimals (round_half_even (mantissa x * 1000) (2 ^ scale x)).

(** What [evaluatePredictions] produces: the accuracy file (the text of its
    first line and the lines after it) and whether the warning went to
    [std::cerr]. *)
Record evaluation_output : Type := {
  accuracy_line : list ascii;
  misclassification_lines : list (Z * Z * DSString);
  warning : bool
}.

(** The end of [evaluatePredictions], from [double accuracy = 0.0] on. *)
Definition evaluate_finish (ev : evaluation) : evaluation_output :=
  let accuracy :=
    if totalPredictions ev >? 0
    then double_div (correctPredictions ev) (totalPredictions ev)
    else double_zero in
  {| accuracy_line := fixed_3 accuracy;
     misclassification_lines := misclassifications ev;
     warning := negb (totalPredictions ev >? 0) |}.

(** [evaluatePredictions]: [None] is a ground-truth file that cannot be
    opened, [false] an accuracy file that cannot be created. *)
Definition evaluatePredictions (this : SentimentClassifier)
    (groundTruthFile : option (list std_string)) (outputOpens : bool)
  : option evaluation_output :=
  match groundTruthFile with
  | None => None
  | Some lines =>
      if negb outputOpens then None
      else Some (evaluate_finish
                   (fold_left (evaluate_line this) (tail lines) evaluation_start))
  end.

(** ** Objects and their arrays

    The two fields of a [DSString] object, the arrays that [new char[n]]
    hands out and [delete[]] takes back, and the member functions that
    allocate, copy and write through pointers.  A result [None] is a step
    the language leaves undefined: a null or dangling pointer dereferenced,
    an index outside the array, an object that does not exist. *)
Module Store.

Abbreviation address := positive.
Abbreviation name := positive.

(** The private members of [DSString]; [None] is [nullptr]. *)
Record object : Type := { data : option address; length : Z }.

Record store : Type := {
  arrays : gmap address (list ascii);
  objects : gmap name object
}.

Definition array_read (h : gmap address (list ascii)) (p : option address)
    (i : Z) : option ascii :=
  a ← p; arr ← h !! a;
  if (0 <=? i) && (i <? Z.of_nat (List.length arr))
  then arr !! Z.to_nat i else None.

Definition array_write (h : gmap address (list ascii)) (p : option address)
    (i : Z) (c : ascii) : option (gmap address (list ascii)) :=
  a ← p; arr ← h !! a;
  if (0 <=? i) && (i <? Z.of_nat (List.length arr))
  then Some (<[a := <[Z.to_nat i := c]> arr]> h) else None.

Section Allocator.

(** [new char[n]] picks an address and leaves the [n] chars
    indeterminate. *)
Variable fresh_address : gmap address (list ascii) → address.
Variable indeterminate : ascii.

Definition new_char_array (h : gmap address (list ascii)) (n : Z)
  : address * gmap address (list ascii) :=
  let a := fresh_address h in
  (a, <[a := replicate (Z.to_nat n) indeterminate]> h).

(** [delete[] p]. *)
Definition delete_array (h : gmap address (list ascii)) (p : option address)
  : option (gmap address (list ascii)) :=
  match p with
  | None => Some h
  | Some a => _ ← h !! a; Some (delete a h)
  end.

(** The for loop of [stringCopy], [n] iterations from index [i]. *)
Fixpoint stringCopy_loop (h : gmap address (list ascii))
    (destination source : option address) (i : Z) (n : nat)
  : option (gmap address (list ascii)) :=
  match n with
  | O => Some h
  | S n' =>
      c ← array_read h source i;
      h' ← array_write h destination i c;
      stringCopy_loop h' destination source (i + 1) n'
  end.

Definition stringCopy (h : gmap address (list ascii))
    (destination source : option address) (length : Z)
  : option (gmap address (list ascii)) :=
  match destination, source with
  | None, _ | _, None => Some h
  | _, _ =>
      h' ← stringCopy_loop h destination source 0 (Z.to_nat length);
      array_write h' destination length NUL
  end.

(** The copy constructor: [this] names the object being created. *)
Definition copy_constructor (σ : store) (this other : name) : option store :=
  o ← objects σ !! other;
  let length := length o in
  let '(a, h) := new_char_array (arrays σ) (length + 1) in
  h' ← stringCopy h (Some a) (data o) length;
  Some {| arrays := h';
          objects := <[this := {| data := Some a; length := length |}]> (objects σ) |}.

(** [operator=]; [this == &other] compares the two names. *)
Definition operator_assign (σ : store) (this other : name) : option store :=
  if decide (this = other) then
    _ ← objects σ !! this; Some σ
  else
    t ← objects σ !! this;
    o ← objects σ !! other;
    h0 ← delete_array (arrays σ) (data t);
    let length := length o in
    let '(a, h) := new_char_array h0 (length + 1) in
    h' ← stringCopy h (Some a) (data o) length;
    Some {| arrays := h';
            objects := <[this := {| data := Some a; length := length |}]> (objects σ) |}.

End Allocator.

(** [s[index] = c] through the non-const [operator[]]. *)
Definition index_assign (σ : store) (s : name) (index : Z) (c : ascii)
  : option store :=
  o ← objects σ !! s;
  h ← array_write (arrays σ) (data o) index c;
  Some {| arrays := h; objects := objects σ |}.

(** [s[index]] read. *)
Definition index_read (σ : store) (s : name) (index : Z) : option ascii :=
  o ← objects σ !! s; array_read (arrays σ) (data o) index.

(** The for loop of [operator==], [n] iterations from index [i]. *)
Fixpoint operator_eq_loop (h : gmap address (list ascii))
    (d1 d2 : option address) (i : Z) (n : nat) : option bool :=
  match n with
  | O => Some true
  | S n' =>
      c1 ← array_read h d1 i;
      c2 ← array_read h d2 i;
      if negb (Ascii.eqb c1 c2) then Some false
      else operator_eq_loop h d1 d2 (i + 1) n'
  end.

Definition operator_eq (σ : store) (this other : name) : option bool :=
  t ← objects σ !! this;
  o ← objects σ !! other;
  if negb (length t =? length o) then Some false
  else operator_eq_loop (arrays σ) (data t) (data o) 0 (Z.to_nat (length t)).

(** The string an object holds: its [length] and the chars of its array
    before index [length]. *)
Definition value (σ : store) (s : name) : option DSString :=
  o ← objects σ !! s;
  a ← data o;
  arr ← arrays σ !! a;
  if (0 <=? length o) && (length o <? Z.of_nat (List.length arr))
  then Some (take (Z.to_nat (length o)) arr) else None.

(** The invariant of the class: every object owns an array of
    [length + 1] chars ending in the terminator, and no two objects own
    the same array. *)
Definition owns (σ : store) (o : object) : Prop :=
  ∃ a arr, data o = Some a ∧ arrays σ !! a = Some arr ∧ 0 <= length o ∧
           Z.of_nat (List.length arr) = length o + 1 ∧
           arr !! Z.to_nat (length o) = Some NUL.

Definition well_formed (σ : store) : Prop :=
  (∀ n o, objects σ !! n = Some o → owns σ o) ∧
  (∀ n1 n2 o1 o2, objects σ !! n1 = Some o1 → objects σ !! n2 = Some o2 →
                  data o1 = data o2 → n1 = n2).

End Store.

(** ** Notions the properties are stated with *)

(** No byte of the string is NUL: what every constructor, [operator+],
    [substring] and [toLowerCase] deliver. *)
Definition no_nul (s : list ascii) : Prop := Forall (λ c, c ≠ NUL) s.

(** Every byte is below 128. *)
Definition seven_bit (s : list ascii) : Prop := Forall (λ c, byte_code c < 128) s.

(** Byte-wise lexicographic order, bytes compared as numbers 0..255; a
    proper prefix comes first. *)
Inductive lex_lt : list ascii → list ascii → Prop :=
| lex_lt_prefix c r : lex_lt [] (c :: r)
| lex_lt_head c1 c2 r1 r2 : byte_code c1 < byte_code c2 → lex_lt (c1 :: r1) (c2 :: r2)
| lex_lt_tail c r1 r2 : lex_lt r1 r2 → lex_lt (c :: r1) (c :: r2).

Definition proper_prefix (a b : list ascii) : Prop :=
  ∃ c t, b = a ++ c :: t.

Definition exactly_one (p q r : bool) : Prop :=
  (p = true ∧ q = false ∧ r = false) ∨
  (p = false ∧ q = true ∧ r = false) ∨
  (p = false ∧ q = false ∧ r = true).

(** *** CSV scan, in the words of the specification *)

Definition quote : ascii := "034"%char.
Definition comma : ascii := ","%char.

Record csv_state : Type := {
  csv_done : list (list ascii);
  csv_current : list ascii;
  csv_inside : bool
}.

(** A quote toggles the flag and is dropped; a comma outside a quoted
    region ends the field; any other byte joins the field. *)
Definition csv_step (st : csv_state) (c : ascii) : csv_state :=
  if decide (c = quote) then
    {| csv_done := csv_done st; csv_current := csv_current st;
       csv_inside := negb (csv_inside st) |}
  else if decide (c = comma ∧ csv_inside st = false) then
    {| csv_done := csv_done st ++ [csv_current st]; csv_current := [];
       csv_inside := csv_inside st |}
  else
    {| csv_done := csv_done st; csv_current := csv_current st ++ [c];
       csv_inside := csv_inside st |}.

(** At the end of the line the last field is emitted. *)
Definition csv_fields (line : list ascii) : list (list ascii) :=
  let st := fold_left csv_step line
              {| csv_done := []; csv_current := []; csv_inside := false |} in
  csv_done st ++ [csv_current st].

(** The commas of [line] that lie outside quoted regions, scanning from a
    position where the flag is [inside]. *)
Fixpoint separators (line : list ascii) (inside : bool) : nat :=
  match line with
  | [] => O
  | c :: rest =>
      if decide (c = quote) then separators rest (negb inside)
      else if decide (c = comma ∧ inside = false) then S (separators rest inside)
      else separators rest inside
  end.

(** The commas of [line] that lie inside quoted regions. *)
Fixpoint quoted_commas (line : list ascii) (inside : bool) : nat :=
  match line with
  | [] => O
  | c :: rest =>
      if decide (c = quote) then quoted_commas rest (negb inside)
      else if decide (c = comma ∧ inside = true) then S (quoted_commas rest inside)
      else quoted_commas rest inside
  end.

Definition count_commas (s : list ascii) : nat :=
  List.length (List.filter (λ c, Ascii.eqb c comma) s).

(** The fields written one after the other with a comma between them. *)
Fixpoint join_fields (fields : list (list ascii)) : list ascii :=
  match fields with
  | [] => []
  | [f] => f
  | f :: rest => f ++ comma :: join_fields rest
  end.

(** *** Tokens, in the words of the specification *)

(** Space and the punctuation set of section 4.3, by byte value. *)
Definition delimiter_bytes : list Z :=
  [32; 44; 46; 33; 63; 59; 58; 34; 39; 40; 41; 91; 93; 123; 125; 64; 35;
   36; 37; 94; 38; 42; 45; 95; 61; 43; 60; 62; 47; 92; 124; 126; 96].

Definition is_delimiter_byte (c : ascii) : Prop := byte_code c ∈ delimiter_bytes.

(** [token_runs text tokens]: [tokens] are the maximal runs of bytes of
    [text] that are not delimiters, in order. *)
Inductive token_runs : list ascii → list (list ascii) → Prop :=
| token_runs_none text :
    Forall is_delimiter_byte text → token_runs text []
| token_runs_word seps word rest tokens :
    Forall is_delimiter_byte seps →
    word ≠ [] →
    Forall (λ c, ¬ is_delimiter_byte c) word →
    (rest = [] ∨ ∃ d rest', rest = d :: rest' ∧ is_delimiter_byte d) →
    token_runs rest tokens →
    token_runs (seps ++ word ++ rest) (word :: tokens).

(** ASCII upper case to lower case, every other byte unchanged. *)
Definition ascii_lower (c : ascii) : ascii :=
  if decide (65 <= byte_code c <= 90) then int_to_char (byte_code c + 32) else c.

(** *** Scores and counters, as exact integers *)

Definition contribution (counts : gmap (list ascii) (Z * Z)) (token : DSString) : Z :=
  match counts !! key_of token with
  | Some (positiveCount, negativeCount) => positiveCount - negativeCount
  | None => 0
  end.

Definition exact_score (counts : gmap (list ascii) (Z * Z)) (tokens : list DSString) : Z :=
  foldr (λ token acc, contribution counts token + acc) 0 tokens.

(** How many of [tokens] are longer than one byte and filed under [k]. *)
Definition occurrences (k : list ascii) (tokens : list DSString) : Z :=
  Z.of_nat (List.length
    (List.filter (λ t, (size t >? 1) && bool_decide (key_of t = k)) tokens)).

Definition first_byte (s : DSString) : ascii := hd NUL s.

(** *** Ground-truth records *)

(** The fields of a ground-truth line when it has at least two. *)
Definition truth_record (line : std_string) : option (list DSString) :=
  let fields := parseCSVLine (DSString_of (Some line)) false in
  if decide (2 <= List.length fields)%nat then Some fields else None.

Definition record_id (fields : list DSString) : DSString := nth 1 fields [].
Definition record_actual (fields : list DSString) : Z :=
  if decide (first_byte (nth 0 fields []) = "4"%char) then 4 else 0.

(** The records of the file whose identifier has a prediction, with that
    prediction, in the order of the file. *)
Definition matched (preds : gmap (list ascii) Z) (lines : list std_string)
  : list (Z * Z * DSString) :=
  omap (λ line,
          fields ← truth_record line;
          predicted ← preds !! key_of (record_id fields);
          Some (predicted, record_actual fields, record_id fields))
       lines.

Definition is_correct (r : Z * Z * DSString) : bool := r.1.1 =? r.1.2.


(** *** Examples of the specification *)

(** The record of section 8, every field in double quotes. *)
Definition example_record : std_string :=
  [quote] ++ lit "4" ++ [quote; comma; quote] ++ lit "1468" ++
  [quote; comma; quote] ++ lit "Mon" ++ [quote; comma; quote] ++ lit "q" ++
  [quote; comma; quote] ++ lit "user" ++ [quote; comma; quote] ++
  lit "I love it" ++ [quote].


(** Counting one matched record, as the loop of [evaluatePredictions]
    does. *)
Definition count_record (ev : evaluation) (r : Z * Z * DSString) : evaluation :=
  if is_correct r
  then {| correctPredictions := int_add (correctPredictions ev) 1;
          totalPredictions := int_add (totalPredictions ev) 1;
          misclassifications := misclassifications ev |}
  else {| correctPredictions := correctPredictions ev;
          totalPredictions := int_add (totalPredictions ev) 1;
          misclassifications := misclassifications ev ++ [r] |}.

(** A ground-truth line as [matched] sees it. *)
Definition matched_record (preds : gmap (list ascii) Z) (line : std_string)
  : option (Z * Z * DSString) :=
  fields ← truth_record line;
  predicted ← preds !! key_of (record_id fields);
  Some (predicted, record_actual fields, record_id fields).

(** The model of section 8: one positive record with [great], one negative
    record with [bad]. *)
Definition example_model : SentimentClassifier :=
  (train SignedChar SentimentClassifier_new
     (Some [lit "label,id,date,query,user,text";
            lit "4,id1,Mon,q,user,Great";
            lit "0,id2,Mon,q,user,bad"])).2.


(** The thousandths in the text that [fixed_3] makes of the quotient of two
    ints. *)
Definition written_thousandths (c t : Z) : Z :=
  round_half_even (mantissa (double_div c t) * 1000) (2 ^ scale (double_div c t)).

(** The model of section 8 after it has predicted three test records:
    [id1] and [id3] are stored as 4, [id2] as 0. *)
Definition example_predicted : SentimentClassifier :=
  (predict SignedChar example_model
     (Some [lit "id,date,query,user,text";
            lit "id1,Mon,q,user,great";
            lit "id2,Mon,q,user,bad";
            lit "id3,Mon,q,user,Great stuff"]) true).1.2.

(** A ground-truth file for it: [id1] and [id3] are labelled as
    predicted, [id2] is not, [id7] has no prediction. *)
Definition example_truth : list std_string :=
  [lit "label,id"; lit "4,id1"; lit "4,id2"; lit "4,id7"; lit "4,id3"].


(** *** The double division, checked against the Standard Library

    [SFdiv 53 1024] is the library's specification of binary64
    division. *)
Definition spec_float_of_int (c : Z) : spec_float :=
  match c with
  | Z0 => S754_zero false
  | Zpos p => S754_finite false p 0
  | Zneg p => S754_finite true p 0
  end.

(** Whether [double_div c t] is the number that [SFdiv] gives. *)
Definition agrees_with_SFdiv (c t : Z) : bool :=
  let d := double_div c t in
  match SFdiv 53 1024 (spec_float_of_int c) (spec_float_of_int t) with
  | S754_zero s => (mantissa d =? 0) && Bool.eqb s (negative d)
  | S754_finite s m e =>
      Bool.eqb s (negative d) &&
      (if e + scale d <? 0
       then Zpos m =? mantissa d * 2 ^ (- (e + scale d))
       else Zpos m * 2 ^ (e + scale d) =? mantissa d)
  | _ => false
  end.

(** *** Copies *)

(** What it is for [this] to be an independent duplicate of [other] in
    [σ'], [other] holding in [σ'] what it held in [σ]: the two compare
    equal, and a write through [operator[]] at any index of the array of
    one of them is visible there and leaves the string of the other as it
    was. *)
Definition independent_copy (σ σ' : Store.store) (this other : Store.name) : Prop :=
  Store.well_formed σ' ∧
  is_Some (Store.value σ other) ∧
  Store.value σ' other = Store.value σ other ∧
  Store.value σ' this = Store.value σ other ∧
  Store.operator_eq σ' this other = Some true ∧
  ∀ (index : Z) (c : ascii) (o : Store.object),
    Store.objects σ' !! other = Some o →
    0 <= index <= Store.length o →
    (∃ σ'', Store.index_assign σ' this index c = Some σ'' ∧
            Store.index_read σ'' this index = Some c ∧
            Store.value σ'' other = Store.value σ' other) ∧
    (∃ σ'', Store.index_assign σ' other index c = Some σ'' ∧
            Store.index_read σ'' other index = Some c ∧
            Store.value σ'' this = Store.value σ' this).

(** An allocator: the least address not in use. *)
Definition least_unused (h : gmap positive (list ascii)) : positive :=
  fresh (dom h).

(** A store with two strings: ["hello"], named 1, its array at address 1,
    and ["hi"], named 2, its array at address 2. *)
Definition example_store : Store.store :=
  {| Store.arrays := <[ 2%positive := lit "hi" ++ [NUL] ]>
                       {[ 1%positive := lit "hello" ++ [NUL] ]};
     Store.objects :=
       <[ 2%positive := {| Store.data := Some 2%positive; Store.length := 2 |} ]>
         {[ 1%positive := {| Store.data := Some 1%positive; Store.length := 5 |} ]} |}.


(** ** The rest of the program *)

(** An ASCII upper-case letter. *)
Definition is_upper (c : ascii) : Prop := 65 <= byte_code c <= 90.

(** Each field in double quotes, the fields joined by commas. *)
Definition quoted_fields (fields : list (list ascii)) : list ascii :=
  join_fields (map (λ f, quote :: f ++ [quote]) fields).

(** What a run of [main] leaves behind: the exit status, the predictions
    file if it was opened for writing, the accuracy file if it was. *)
Record run : Type := {
  exit_status : Z;
  results_file : option (list prediction_line);
  accuracy_file : option evaluation_output
}.

(** [main]: [argc], the three input files as [std::ifstream] finds them
    ([None]: cannot be opened) and whether each output file can be
    created. *)
Definition main (sgn : char_signedness) (argc : Z)
    (trainingFile testFile testSentimentFile : option (list std_string))
    (resultsOpens accuracyOpens : bool) : run :=
  if negb (argc =? 6) then
    {| exit_status := 1; results_file := None; accuracy_file := None |}
  else
    let classifier := SentimentClassifier_new in
    let '(trained, classifier) := train sgn classifier trainingFile in
    if negb trained then
      {| exit_status := 1; results_file := None; accuracy_file := None |}
    else
      let '(predicted, classifier, outFile) :=
        predict sgn classifier testFile resultsOpens in
      if negb predicted then
        {| exit_status := 1; results_file := None; accuracy_file := None |}
      else
        match evaluatePredictions classifier testSentimentFile accuracyOpens with
        | None =>
            {| exit_status := 1; results_file := Some outFile;
               accuracy_file := None |}
        | Some acc =>
            {| exit_status := 0; results_file := Some outFile;
               accuracy_file := Some acc |}
        end.


(** The label of a training line that has its six fields: [true] when the
    first byte of the label field is ['4']. *)
Definition training_label (line : std_string) : option bool :=
  let fields := parseCSVLine (DSString_of (Some line)) true in
  if decide (6 ≤ List.length fields)%nat
  then Some (bool_decide (first_byte (nth 0 fields []) = "4"%char))
  else None.

(** Every key of the word table is a string of at least two bytes without
    NUL, delimiter or upper-case letter. *)
Definition vocabulary_normal (counts : gmap (list ascii) (Z * Z)) : Prop :=
  ∀ k v, counts !! k = Some v →
         1 < size k ∧ no_nul k ∧
         Forall (λ c, ¬ is_delimiter_byte c ∧ ¬ is_upper c) k.

(** The line that a test record with its five fields calls for, given the
    word table: 4 when the sum of its tokens, as an int, is positive. *)
Definition prediction_of (sgn : char_signedness)
    (counts : gmap (list ascii) (Z * Z)) (line : std_string)
  : option prediction_line :=
  let fields := parseCSVLine (DSString_of (Some line)) false in
  if decide (5 ≤ List.length fields)%nat
  then Some (if decide (0 < wrap (exact_score counts
                                    (tokenizeTweet sgn (nth 4 fields []))))
             then 4 else 0,
             nth 0 fields [])
  else None.


(** *** Records of the test and training files *)

(** The line that [predict] writes for a test line that has its five
    fields: 4 when the score of its tokens is greater than 0 and 0
    otherwise, and the identifier. *)
Definition predicted_record (sgn : char_signedness) (this : SentimentClassifier)
    (line : std_string) : option prediction_line :=
  let fields := parseCSVLine (DSString_of (Some line)) false in
  if decide (5 ≤ List.length fields)%nat
  then Some (if decide (0 < calculateSentimentScore this
                             (tokenizeTweet sgn (nth 4 fields [])))
             then 4 else 0,
             nth 0 fields [])
  else None.

(** The tokens of the text field of a training line. *)
Definition training_tokens (sgn : char_signedness) (line : std_string)
  : list DSString :=
  tokenizeTweet sgn (nth 5 (parseCSVLine (DSString_of (Some line)) true) []).

(** How often the records of [lines] whose label is [positive] count a
    token under the key [k]. *)
Definition label_occurrences (sgn : char_signedness) (positive : bool)
    (k : list ascii) (lines : list std_string) : Z :=
  foldr (λ line acc,
           (if decide (training_label line = Some positive)
            then occurrences k (training_tokens sgn line) else 0) + acc)
        0 lines.

(** A test file for the model of section 8: a header, two records and a
    line that is too short. *)
Definition example_test : list std_string :=
  [lit "id,date,query,user,text"; lit "id9,Mon,q,user,GREAT!"; lit "short";
   lit "id8,Mon,q,user,unseen"].

(** A model in which the word [aa] has the positive count 8. *)
Definition heavy_model : SentimentClassifier :=
  (train SignedChar SentimentClassifier_new
     (Some [lit "label,id,date,query,user,text";
            lit "4,id1,Mon,q,user,aa aa aa aa aa aa aa aa"])).2.

(** A training file of two records. *)
Definition example_training : list std_string :=
  [lit "label,id,date,query,user,text";
   lit "4,id1,Mon,q,user,Good good a";
   lit "0,id2,Mon,q,user,good bad"].

(** ** The other members, on objects and arrays *)
Module Members.

(** The while loop of [stringLength] over the chars of the array from index
    [count] on; running off the array has no defined result. *)
Fixpoint stringLength_loop (rest : list ascii) (count : Z) : option Z :=
  match rest with
  | [] => None
  | c :: rest' =>
      if Ascii.eqb c NUL then Some count else stringLength_loop rest' (count + 1)
  end.

Definition stringLength (h : gmap positive (list ascii)) (str : option positive)
  : option Z :=
  match str with
  | None => Some 0
  | Some a => arr ← h !! a; stringLength_loop arr 0
  end.

(** A for loop that fills [n] chars of the destination from the source:
    [destination[to + i] = convert (source[from + i])], from index [i] on.
    [operator+] runs it with [to = length], [substring] with
    [from = start], [toLowerCase] with the conversion of a letter. *)
Fixpoint fill_loop (convert : ascii → ascii) (h : gmap positive (list ascii))
    (destination source : option positive) (to from i : Z) (n : nat)
  : option (gmap positive (list ascii)) :=
  match n with
  | O => Some h
  | S n' =>
      c ← Store.array_read h source (from + i);
      h' ← Store.array_write h destination (to + i) (convert c);
      fill_loop convert h' destination source to from (i + 1) n'
  end.

(** The destructor: [delete[] data]; the object is gone. *)
Definition destructor (σ : Store.store) (this : Store.name) : option Store.store :=
  o ← Store.objects σ !! this;
  h ← Store.delete_array (Store.arrays σ) (Store.data o);
  Some {| Store.arrays := h; Store.objects := delete this (Store.objects σ) |}.

Section Allocator.

Variable fresh_address : gmap positive (list ascii) → positive.
Variable indeterminate : ascii.

(** The default constructor: an array of one char, the terminator. *)
Definition default_constructor (σ : Store.store) (this : Store.name)
  : option Store.store :=
  let '(a, h) :=
    Store.new_char_array fresh_address indeterminate (Store.arrays σ) 1 in
  h' ← Store.array_write h (Some a) 0 NUL;
  Some {| Store.arrays := h';
          Store.objects :=
            <[this := {| Store.data := Some a; Store.length := 0 |}]>
              (Store.objects σ) |}.

(** The constructor from a C-string that lies in an array of the store. *)
Definition cstring_constructor (σ : Store.store) (this : Store.name)
    (str : option positive) : option Store.store :=
  match str with
  | None => default_constructor σ this
  | Some _ =>
      length ← stringLength (Store.arrays σ) str;
      let '(a, h) :=
        Store.new_char_array fresh_address indeterminate (Store.arrays σ)
          (length + 1) in
      h' ← Store.stringCopy h (Some a) str length;
      Some {| Store.arrays := h';
              Store.objects :=
                <[this := {| Store.data := Some a; Store.length := length |}]>
                  (Store.objects σ) |}
  end.

(** The end of [operator+], [substring] and [toLowerCase]: a default
    [result], its array deleted, [newData] and [newLength] put in its
    place, and [result] returned (the copy on return elided). *)
Definition adopt (σ : Store.store) (result : Store.name)
    (newData : positive) (newLength : Z) : option Store.store :=
  σ1 ← default_constructor σ result;
  r ← Store.objects σ1 !! result;
  h ← Store.delete_array (Store.arrays σ1) (Store.data r);
  Some {| Store.arrays := h;
          Store.objects :=
            <[result := {| Store.data := Some newData; Store.length := newLength |}]>
              (Store.objects σ1) |}.

(** [operator+].  [newLength] and the size of the new array are ints;
    [new char[n]] with [n] negative throws and no string is built. *)
Definition operator_plus (σ : Store.store) (result this other : Store.name)
  : option Store.store :=
  t ← Store.objects σ !! this;
  o ← Store.objects σ !! other;
  let newLength := int_add (Store.length t) (Store.length o) in
  if int_add newLength 1 <? 0 then None
  else
    let '(newData, h) :=
      Store.new_char_array fresh_address indeterminate (Store.arrays σ)
        (int_add newLength 1) in
    h ← Store.stringCopy h (Some newData) (Store.data t) (Store.length t);
    h ← fill_loop (λ c, c) h (Some newData) (Store.data o) (Store.length t) 0 0
          (Z.to_nat (Store.length o));
    h ← Store.array_write h (Some newData) newLength NUL;
    adopt {| Store.arrays := h; Store.objects := Store.objects σ |}
          result newData newLength.

(** [toLowerCase]. *)
Definition toLowerCase (sgn : char_signedness) (σ : Store.store)
    (result this : Store.name) : option Store.store :=
  t ← Store.objects σ !! this;
  let '(lowerData, h) :=
    Store.new_char_array fresh_address indeterminate (Store.arrays σ)
      (Store.length t + 1) in
  h ← fill_loop (lower_char sgn) h (Some lowerData) (Store.data t) 0 0 0
        (Z.to_nat (Store.length t));
  h ← Store.array_write h (Some lowerData) (Store.length t) NUL;
  adopt {| Store.arrays := h; Store.objects := Store.objects σ |}
        result lowerData (Store.length t).

End Allocator.

End Members.

(** The strings of all objects but [this] are in [σ'] what they are in
    [σ]. *)
Definition others_unchanged (σ σ' : Store.store) (this : Store.name) : Prop :=
  ∀ n, n ≠ this → Store.value σ' n = Store.value σ n.

(** * Properties *)

(** ** Ints and chars *)

(** Goals about the bounds of an [int]. *)
Ltac int_bounds := unfold int_range, INT_MIN, INT_MAX in *; lia.

Lemma wrap_id z : int_range z → wrap z = z.
Proof.
  unfold int_range, INT_MIN, INT_MAX, wrap. intros H.
  rewrite Z.mod_small by lia. lia.
Qed.

Lemma wrap_range z : int_range (wrap z).
Proof.
  unfold int_range, INT_MIN, INT_MAX, wrap.
  pose proof (Z.mod_pos_bound (z + 2147483648) 4294967296). lia.
Qed.

Lemma wrap_add_l a b : wrap (wrap a + b) = wrap (a + b).
Proof.
  unfold wrap.
  replace ((a + 2147483648) `mod` 4294967296 - 2147483648 + b + 2147483648)
    with ((a + 2147483648) `mod` 4294967296 + b) by lia.
  rewrite Zplus_mod_idemp_l. f_equal. f_equal. lia.
Qed.

Lemma wrap_add_r a b : wrap (a + wrap b) = wrap (a + b).
Proof. rewrite (Z.add_comm a (wrap b)), wrap_add_l. f_equal. lia. Qed.


Lemma byte_code_range c : 0 <= byte_code c < 256.
Proof.
  unfold byte_code. pose proof (N_ascii_bounded c). lia.
Qed.

Lemma byte_code_inj c1 c2 : byte_code c1 = byte_code c2 → c1 = c2.
Proof.
  unfold byte_code. intros H.
  rewrite <- (ascii_N_embedding c1), <- (ascii_N_embedding c2).
  f_equal. lia.
Qed.

Lemma byte_code_NUL : byte_code NUL = 0.
Proof. reflexivity. Qed.

Lemma byte_code_zero c : byte_code c = 0 → c = NUL.
Proof. intros H. apply byte_code_inj. by rewrite H. Qed.

Lemma char_to_int_inj sgn c1 c2 : char_to_int sgn c1 = char_to_int sgn c2 → c1 = c2.
Proof.
  pose proof (byte_code_range c1). pose proof (byte_code_range c2).
  unfold char_to_int. destruct sgn; [|apply byte_code_inj].
  intros Heq. apply byte_code_inj.
  destruct (Z.ltb_spec (byte_code c1) 128), (Z.ltb_spec (byte_code c2) 128); lia.
Qed.

Lemma char_to_int_NUL sgn : char_to_int sgn NUL = 0.
Proof. by destruct sgn. Qed.

Lemma char_to_int_seven_bit sgn c : byte_code c < 128 → char_to_int sgn c = byte_code c.
Proof.
  intros H. destruct sgn; simpl; [|done].
  destruct (Z.ltb_spec (byte_code c) 128); lia.
Qed.

Lemma ascii_eqb_decide (c d : ascii) : Ascii.eqb c d = bool_decide (c = d).
Proof.
  destruct (Ascii.eqb_spec c d);
    [by rewrite bool_decide_eq_true_2|by rewrite bool_decide_eq_false_2].
Qed.

(** ** Strings as values *)

Lemma size_nonneg (s : DSString) : 0 <= size s.
Proof. unfold size. lia. Qed.

Lemma size_app (a b : DSString) : size (a ++ b) = size a + size b.
Proof. unfold size. rewrite length_app. lia. Qed.

Lemma stringCopy_all (s : DSString) : stringCopy s (size s) = s.
Proof.
  unfold stringCopy, size. rewrite Nat2Z.id. apply firstn_all.
Qed.

Lemma DSString_copy_id (s : DSString) : DSString_copy s = s.
Proof. apply stringCopy_all. Qed.

Lemma operator_plus_app (a b : DSString) : operator_plus a b = a ++ b.
Proof. unfold operator_plus. by rewrite stringCopy_all. Qed.

Lemma push_back_snoc v (x : DSString) : push_back v x = v ++ [x].
Proof. unfold push_back. by rewrite DSString_copy_id. Qed.

(** Where the scan of [stringLength] stops. *)
Lemma stringLength_loop_spec (s : list ascii) (count : Z) :
  ∃ k : nat,
    stringLength_loop s count = count + Z.of_nat k ∧
    (k ≤ List.length s)%nat ∧
    no_nul (take k s) ∧
    (k = List.length s ∨ s !! k = Some NUL).
Proof.
  revert count. induction s as [|c rest IH]; intros count; simpl.
  - exists O. repeat split; [lia|lia|constructor|by left].
  - destruct (Ascii.eqb_spec c NUL) as [->|Hc].
    + exists O. repeat split; [lia|lia|constructor|by right].
    + destruct (IH (count + 1)) as (k & Hk & Hle & Hnn & Hend).
      exists (S k). repeat split; [lia|simpl; lia| |].
      * simpl. by constructor.
      * destruct Hend as [->|Hend]; [by left|by right].
Qed.

Lemma stringLength_no_nul (s : list ascii) :
  no_nul s → stringLength (Some s) = size s.
Proof.
  intros Hs. simpl.
  destruct (stringLength_loop_spec s 0) as (k & -> & Hle & _ & [->|Hk]); [done|].
  exfalso. apply list_elem_of_lookup_2 in Hk.
  unfold no_nul in Hs. rewrite Forall_forall in Hs. by apply (Hs NUL).
Qed.

Lemma DSString_of_no_nul (p : cstring) : no_nul (DSString_of p).
Proof.
  destruct p as [s|]; [|constructor]. unfold DSString_of, stringCopy. simpl.
  destruct (stringLength_loop_spec s 0) as (k & -> & _ & Hnn & _).
  by rewrite Z.add_0_l, Nat2Z.id.
Qed.

Lemma DSString_of_id (s : list ascii) : no_nul s → DSString_of (Some s) = s.
Proof.
  intros Hs. unfold DSString_of. rewrite stringLength_no_nul by done.
  apply stringCopy_all.
Qed.

Lemma key_of_DSString_of (s : DSString) : key_of s = DSString_of (c_str s).
Proof. reflexivity. Qed.

Lemma key_of_no_nul (s : DSString) : no_nul s → key_of s = s.
Proof. intros Hs. rewrite key_of_DSString_of. by apply DSString_of_id. Qed.

Lemma DSString_of_temp_char (c : ascii) : c ≠ NUL → DSString_of_temp c = [c].
Proof.
  intros Hc. apply DSString_of_id. by repeat constructor.
Qed.

Lemma DSString_of_temp_NUL : DSString_of_temp NUL = [].
Proof. reflexivity. Qed.

Lemma no_nul_app (a b : list ascii) : no_nul (a ++ b) ↔ no_nul a ∧ no_nul b.
Proof. apply Forall_app. Qed.

(** ** parseCSVLine *)

Lemma parseCSVLine_loop_scan (line : list ascii) (st : csv_state) :
  no_nul line →
  parseCSVLine_loop line (csv_done st) (csv_current st) (csv_inside st) =
    csv_done (fold_left csv_step line st) ++ [csv_current (fold_left csv_step line st)].
Proof.
  revert st. induction line as [|c rest IH]; intros st Hnn; simpl.
  - apply push_back_snoc.
  - apply Forall_cons in Hnn as [Hc Hrest].
    rewrite <- (IH (csv_step st c)) by done.
    unfold csv_step. rewrite !ascii_eqb_decide. fold quote comma.
    destruct (decide (c = quote)) as [->|Hq].
    + done.
    + rewrite (bool_decide_eq_false_2 (c = quote)) by done.
      destruct (decide (c = comma ∧ csv_inside st = false)) as [[-> Hin]|Hsep]; simpl.
      * rewrite Hin. simpl. by rewrite push_back_snoc.
      * replace (bool_decide (c = comma) && negb (csv_inside st)) with false.
        { by rewrite operator_plus_app, DSString_of_temp_char. }
        symmetry. apply andb_false_iff.
        destruct (decide (c = comma)) as [->|Hne].
        -- right. destruct (csv_inside st); [done|]. by destruct Hsep.
        -- left. by apply bool_decide_eq_false_2.
Qed.

Lemma csv_scan_length (line : list ascii) st :
  let st' := fold_left csv_step line st in
  List.length (csv_done st') =
    (List.length (csv_done st) + separators line (csv_inside st))%nat.
Proof.
  revert st. induction line as [|c rest IH]; intros st; simpl.
  - lia.
  - rewrite IH. unfold csv_step.
    destruct (decide (c = quote)); simpl; [done|].
    destruct (decide (c = comma ∧ csv_inside st = false)); simpl; [|done].
    rewrite length_app. simpl. lia.
Qed.

Lemma csv_scan_no_quote (line : list ascii) st :
  Forall (λ f, quote ∉ f) (csv_done st) → quote ∉ csv_current st →
  let st' := fold_left csv_step line st in
  Forall (λ f, quote ∉ f) (csv_done st') ∧ quote ∉ csv_current st'.
Proof.
  revert st. induction line as [|c rest IH]; intros st Hd Hc; simpl; [done|].
  apply IH; unfold csv_step;
    destruct (decide (c = quote)); simpl; try done;
    destruct (decide (c = comma ∧ csv_inside st = false)); simpl; try done.
  - apply Forall_app. split; [done|]. by constructor.
  - apply not_elem_of_nil.
  - apply not_elem_of_app. split; [done|].
    rewrite list_elem_of_singleton. congruence.
Qed.

Lemma join_fields_snoc_app (fs : list (list ascii)) (x y : list ascii) :
  join_fields (fs ++ [x ++ y]) = join_fields (fs ++ [x]) ++ y.
Proof.
  induction fs as [|f fs IH]; simpl; [done|].
  destruct (fs ++ [x ++ y]) eqn:E1; [by destruct fs|].
  destruct (fs ++ [x]) eqn:E2; [by destruct fs|].
  rewrite <- E1, <- E2 in *. rewrite IH. by rewrite <- app_assoc.
Qed.

Lemma join_fields_snoc_empty (fs : list (list ascii)) (x : list ascii) :
  join_fields ((fs ++ [x]) ++ [[]]) = join_fields (fs ++ [x]) ++ [comma].
Proof.
  induction fs as [|f fs IH]; simpl.
  - done.
  - destruct ((fs ++ [x]) ++ [[]]) eqn:E1; [by destruct fs|].
    destruct (fs ++ [x]) eqn:E2; [by destruct fs|].
    rewrite <- E1, <- E2 in *. rewrite IH. by rewrite <- app_assoc.
Qed.

Lemma csv_scan_join (line : list ascii) st :
  let st' := fold_left csv_step line st in
  join_fields (csv_done st' ++ [csv_current st']) =
    join_fields (csv_done st ++ [csv_current st]) ++
    List.filter (λ c, negb (Ascii.eqb c quote)) line.
Proof.
  revert st. induction line as [|c rest IH]; intros st; simpl.
  - by rewrite app_nil_r.
  - rewrite IH. unfold csv_step.
    destruct (decide (c = quote)) as [->|Hq].
    + done.
    + destruct (Ascii.eqb_spec c quote) as [|_]; [done|]. simpl.
      destruct (decide (c = comma ∧ csv_inside st = false)) as [[-> _]|_]; simpl.
      * rewrite join_fields_snoc_empty. by rewrite <- app_assoc.
      * rewrite join_fields_snoc_app. by rewrite <- app_assoc.
Qed.

Lemma csv_scan_no_nul (line : list ascii) st :
  no_nul line → Forall no_nul (csv_done st) → no_nul (csv_current st) →
  Forall no_nul (csv_done (fold_left csv_step line st)) ∧
  no_nul (csv_current (fold_left csv_step line st)).
Proof.
  revert st. induction line as [|c rest IH]; intros st Hl Hd Hc; simpl; [done|].
  apply Forall_cons in Hl as [Hcn Hrest].
  apply IH; [done| |]; unfold csv_step;
    destruct (decide (c = quote)); simpl; try done;
    destruct (decide (c = comma ∧ csv_inside st = false)); simpl; try done.
  - apply Forall_app. split; [done|]. by constructor.
  - constructor.
  - apply Forall_app. split; [done|]. by constructor.
Qed.

(** The fields of a line read from a file hold no NUL: each is the string
    its own C-string gives back. *)
Lemma parseCSVLine_fields_no_nul (line : std_string) (hasSentiment : bool) :
  Forall no_nul (parseCSVLine (DSString_of (Some line)) hasSentiment).
Proof.
  unfold parseCSVLine, DSString_default.
  pose proof (parseCSVLine_loop_scan (DSString_of (Some line))
                {| csv_done := []; csv_current := []; csv_inside := false |}
                (DSString_of_no_nul _)) as Hscan.
  cbn [csv_done csv_current csv_inside] in Hscan. rewrite Hscan.
  destruct (csv_scan_no_nul (DSString_of (Some line))
              {| csv_done := []; csv_current := []; csv_inside := false |})
    as [Hd Hc]; [apply DSString_of_no_nul|constructor|constructor|].
  apply Forall_app. split; [done|]. by constructor.
Qed.

(** C10. The field list does not depend on the flag [hasSentiment]:
    [parseCSVLine line true] and [parseCSVLine line false] are the same
    list, for every line. *)
Theorem parseCSVLine_flag_unused (line : DSString) :
  parseCSVLine line true = parseCSVLine line false.
Proof. reflexivity. Qed.

(** C5. For every input line, [parseCSVLine] is the scan of the
    specification: quotes toggle the flag and are dropped, a comma outside
    a quoted region ends the field, every other byte joins the current
    field, the last field is always emitted, and a field list comes back in
    every case.  The fields hold no quote, there is one more field than
    commas outside quoted regions, and the fields joined by commas are the
    line without its quotes.  The record of section 8 gives six fields, the
    last being [I love it]. *)
Theorem parseCSVLine_scan :
  (∀ (line : std_string) (hasSentiment : bool),
     let dsLine := DSString_of (Some line) in
     let fields := parseCSVLine dsLine hasSentiment in
     fields = csv_fields dsLine ∧
     Forall (λ f, quote ∉ f) fields ∧
     List.length fields = S (separators dsLine false) ∧
     join_fields fields = List.filter (λ c, negb (Ascii.eqb c quote)) dsLine) ∧
  parseCSVLine (DSString_of (Some (lit "a,"))) true = [lit "a"; []] ∧
  parseCSVLine (DSString_of (Some example_record)) true =
    [lit "4"; lit "1468"; lit "Mon"; lit "q"; lit "user"; lit "I love it"].
Proof.
  split; [|split; reflexivity].
  intros line hasSentiment dsLine fields.
  assert (Hscan : fields = csv_fields dsLine).
  { unfold fields, parseCSVLine, csv_fields.
    apply (parseCSVLine_loop_scan dsLine
             {| csv_done := []; csv_current := []; csv_inside := false |}).
    apply DSString_of_no_nul. }
  rewrite Hscan. unfold csv_fields. split; [done|].
  set (st0 := {| csv_done := []; csv_current := []; csv_inside := false |}).
  split; [|split].
  - destruct (csv_scan_no_quote dsLine st0) as [Hd Hc];
      [constructor|apply not_elem_of_nil|].
    apply Forall_app. split; [done|]. by constructor.
  - rewrite length_app, (csv_scan_length dsLine st0). simpl. lia.
  - by rewrite (csv_scan_join dsLine st0).
Qed.

(** ** toLowerCase and tokenizeTweet *)

Lemma byte_code_int_to_char z : byte_code (int_to_char z) = z mod 256.
Proof.
  unfold byte_code, int_to_char.
  pose proof (Z.mod_pos_bound z 256).
  rewrite N_ascii_embedding by lia. lia.
Qed.

Lemma lower_char_ascii_lower sgn c : lower_char sgn c = ascii_lower c.
Proof.
  pose proof (byte_code_range c) as Hr.
  unfold lower_char, ascii_lower, char_to_int.
  change (byte_code "A") with 65. change (byte_code "Z") with 90.
  destruct sgn; simpl.
  - destruct (Z.ltb_spec (byte_code c) 128).
    + destruct (decide (65 <= byte_code c <= 90)) as [Hin|Hout].
      * replace (byte_code c >=? 65) with true by lia.
        replace (byte_code c <=? 90) with true by lia. done.
      * destruct (Z.geb_spec (byte_code c) 65), (Z.leb_spec (byte_code c) 90);
          simpl; try done. lia.
    + rewrite decide_False by lia.
      replace (byte_code c - 256 >=? 65) with false by lia. done.
  - destruct (decide (65 <= byte_code c <= 90)) as [Hin|Hout].
    + replace (byte_code c >=? 65) with true by lia.
      replace (byte_code c <=? 90) with true by lia. done.
    + destruct (Z.geb_spec (byte_code c) 65), (Z.leb_spec (byte_code c) 90);
        simpl; try done. lia.
Qed.

Lemma toLowerCase_map sgn (s : DSString) : toLowerCase sgn s = map ascii_lower s.
Proof.
  unfold toLowerCase. apply map_ext. intros c. apply lower_char_ascii_lower.
Qed.

Lemma ascii_lower_not_NUL c : c ≠ NUL → ascii_lower c ≠ NUL.
Proof.
  intros Hc. unfold ascii_lower.
  destruct (decide (65 <= byte_code c <= 90)) as [Hin|_]; [|done].
  intros Heq. apply (f_equal byte_code) in Heq.
  rewrite byte_code_int_to_char, byte_code_NUL in Heq.
  rewrite Z.mod_small in Heq by lia. lia.
Qed.

Lemma toLowerCase_no_nul sgn (s : DSString) : no_nul s → no_nul (toLowerCase sgn s).
Proof.
  rewrite toLowerCase_map. unfold no_nul. intros Hs.
  apply Forall_map. eapply Forall_impl; [exact Hs|].
  intros c. apply ascii_lower_not_NUL.
Qed.

Lemma isDelimiter_loop_elem c ds : isDelimiter_loop c ds = true ↔ c ∈ ds.
Proof.
  induction ds as [|d ds IH]; simpl.
  - split; [done|]. by intros ?%elem_of_nil.
  - rewrite elem_of_cons. destruct (Ascii.eqb_spec c d) as [->|Hne].
    + split; auto.
    + rewrite IH. split; [auto|]. by intros [?|?].
Qed.

Lemma isDelimiter_byte c : isDelimiter c = true ↔ is_delimiter_byte c.
Proof.
  unfold isDelimiter, is_delimiter_byte. rewrite isDelimiter_loop_elem.
  change delimiter_bytes with (byte_code <$> delimiters).
  split.
  - intros Hin. apply list_elem_of_fmap. by exists c.
  - intros (d & Heq & Hin)%list_elem_of_fmap.
    apply byte_code_inj in Heq. by subst.
Qed.

Lemma isDelimiter_not_byte c : isDelimiter c = false ↔ ¬ is_delimiter_byte c.
Proof.
  rewrite <- isDelimiter_byte. by destruct (isDelimiter c).
Qed.

Lemma delimiter_ascii_lower c : is_delimiter_byte c → ascii_lower c = c.
Proof.
  unfold is_delimiter_byte, ascii_lower, delimiter_bytes. intros Hin.
  destruct (decide (65 <= byte_code c <= 90)) as [Hr|]; [|done].
  exfalso. revert Hin. rewrite !elem_of_cons, elem_of_nil. lia.
Qed.

Lemma token_runs_delimiter_cons d text tokens :
  is_delimiter_byte d → token_runs text tokens → token_runs (d :: text) tokens.
Proof.
  intros Hd Hruns. destruct Hruns as [text Hall|seps word rest tokens Hs Hw Hn Hr Ht].
  - apply token_runs_none. by constructor.
  - apply (token_runs_word (d :: seps)); try done. by constructor.
Qed.

Lemma token_runs_nonempty text tokens :
  token_runs text tokens → Forall (λ t, t ≠ []) tokens.
Proof. induction 1; by constructor. Qed.

Lemma token_runs_no_delimiter text tokens :
  token_runs text tokens →
  Forall (λ t, Forall (λ c, ¬ is_delimiter_byte c) t) tokens.
Proof. induction 1; by constructor. Qed.

Lemma token_runs_all_delimiters text tokens :
  token_runs text tokens → Forall is_delimiter_byte text → tokens = [].
Proof.
  intros Hruns Hall. destruct Hruns as [|seps word rest tokens Hs Hw Hn Hr Ht]; [done|].
  apply Forall_app in Hall as [_ [Hword _]%Forall_app].
  destruct word as [|c word]; [done|].
  apply Forall_cons in Hword as [Hc _]. apply Forall_cons in Hn as [Hnc _]. done.
Qed.

(** A prefix of bytes satisfying [P] that ends where the text ends or where
    [P] fails is determined by the text. *)
Lemma run_unique (P : ascii → Prop) (l1 l2 r1 r2 : list ascii) :
  l1 ++ r1 = l2 ++ r2 →
  Forall P l1 → Forall P l2 →
  (r1 = [] ∨ ∃ d r, r1 = d :: r ∧ ¬ P d) →
  (r2 = [] ∨ ∃ d r, r2 = d :: r ∧ ¬ P d) →
  l1 = l2 ∧ r1 = r2.
Proof.
  revert l2. induction l1 as [|x l1 IH]; intros l2 Heq H1 H2 E1 E2.
  - destruct l2 as [|y l2]; [done|]. exfalso. simpl in Heq.
    apply Forall_cons in H2 as [Hy _].
    destruct E1 as [->|(d & r & -> & Hd)]; [done|]. by simplify_eq.
  - destruct l2 as [|y l2]; simpl in Heq.
    + exfalso. apply Forall_cons in H1 as [Hx _].
      destruct E2 as [->|(d & r & -> & Hd)]; [done|]. by simplify_eq.
    + simplify_eq. apply Forall_cons in H1 as [_ H1]. apply Forall_cons in H2 as [_ H2].
      destruct (IH l2) as [-> ->]; done.
Qed.

(** The maximal runs of a text are determined by it. *)
Lemma token_runs_unique text tokens1 tokens2 :
  token_runs text tokens1 → token_runs text tokens2 → tokens1 = tokens2.
Proof.
  intros H1. revert tokens2.
  induction H1 as [text Hall|seps word rest tokens Hs Hw Hn Hr Ht IH]; intros tokens2 H2.
  - symmetry. by eapply token_runs_all_delimiters.
  - inversion H2 as [text' Hall Etext|seps' word' rest' tokens' Hs' Hw' Hn' Hr' Ht' Etext]; subst.
    + apply Forall_app in Hall as [_ [Hword _]%Forall_app].
      destruct word as [|c word]; [done|].
      apply Forall_cons in Hword as [Hc _]. apply Forall_cons in Hn as [Hnc _]. done.
    + assert (seps' = seps ∧ word' ++ rest' = word ++ rest) as [-> Heq].
      { apply (run_unique is_delimiter_byte); try done.
        - right. destruct word' as [|c w]; [done|].
          apply Forall_cons in Hn' as [Hc _]. by exists c, (w ++ rest').
        - right. destruct word as [|c w]; [done|].
          apply Forall_cons in Hn as [Hc _]. by exists c, (w ++ rest). }
      assert (word' = word ∧ rest' = rest) as [-> ->].
      { apply (run_unique (λ c, ¬ is_delimiter_byte c)); try done.
        - destruct Hr' as [->|(d & r & -> & Hd)]; [by left|right]. exists d, r. tauto.
        - destruct Hr as [->|(d & r & -> & Hd)]; [by left|right]. exists d, r. tauto. }
      f_equal. by apply IH.
Qed.

Lemma size_cons_positive (x : ascii) (s : list ascii) : (size (x :: s) >? 0) = true.
Proof.
  unfold size. rewrite Z.gtb_ltb. apply Z.ltb_lt. simpl List.length. lia.
Qed.

Lemma tokenizeTweet_loop_runs (text : list ascii) tokens currentWord :
  no_nul text →
  Forall (λ c, ¬ is_delimiter_byte c) currentWord →
  ∃ more, tokenizeTweet_loop text tokens currentWord = tokens ++ more ∧
          token_runs (currentWord ++ text) more.
Proof.
  revert tokens currentWord.
  induction text as [|c rest IH]; intros tokens cur Hnn Hcur; simpl.
  - destruct cur as [|x cur].
    + exists []. split; [by rewrite app_nil_r|]. apply token_runs_none. constructor.
    + rewrite size_cons_positive.
      exists [x :: cur]. split; [apply push_back_snoc|].
      apply (token_runs_word [] (x :: cur) [] []);
        [constructor|done|done|by left|].
      apply token_runs_none. constructor.
  - apply Forall_cons in Hnn as [Hc Hrest].
    destruct (isDelimiter c) eqn:Hdel.
    + apply isDelimiter_byte in Hdel.
      destruct cur as [|x cur].
      * destruct (IH tokens [] Hrest) as (more & Heq & Hruns); [constructor|].
        exists more. split; [done|]. simpl. by apply token_runs_delimiter_cons.
      * rewrite size_cons_positive.
        destruct (IH (push_back tokens (x :: cur)) DSString_default Hrest) as (more & Heq & Hruns);
          [constructor|].
        exists ((x :: cur) :: more). split.
        { rewrite Heq, push_back_snoc, <- app_assoc. done. }
        apply (token_runs_word [] (x :: cur) (c :: rest) more);
          [constructor|done|done| |].
        -- right. by exists c, rest.
        -- by apply token_runs_delimiter_cons.
    + apply isDelimiter_not_byte in Hdel.
      rewrite operator_plus_app, DSString_of_temp_char by done.
      destruct (IH tokens (cur ++ [c]) Hrest) as (more & Heq & Hruns).
      { apply Forall_app. split; [done|]. by constructor. }
      exists more. split; [done|]. by rewrite <- app_assoc in Hruns.
Qed.

(** C6. For every text field, [tokenizeTweet] lowercases the field, then
    emits each maximal run of bytes outside the delimiter set (space and
    the punctuation of section 4.3) as one token, in order, the last run
    also when the input ends it; no token is empty.  ["Hello, World!!"]
    gives [hello] and [world]; a field of delimiters only gives no
    token.  A text field is a field of a parsed line, and every such field
    is the string of a C-string. *)
Theorem tokenizeTweet_maximal_runs :
  (∀ (sgn : char_signedness) (raw : std_string),
     let text := DSString_of (Some raw) in
     toLowerCase sgn text = map ascii_lower text ∧
     token_runs (toLowerCase sgn text) (tokenizeTweet sgn text) ∧
     (∀ tokens, token_runs (toLowerCase sgn text) tokens →
                tokens = tokenizeTweet sgn text) ∧
     Forall (λ t, t ≠ []) (tokenizeTweet sgn text) ∧
     (Forall is_delimiter_byte text → tokenizeTweet sgn text = [])) ∧
  (∀ c, isDelimiter c = true ↔ is_delimiter_byte c) ∧
  (∀ sgn, tokenizeTweet sgn (DSString_of (Some (lit "Hello, World!!"))) =
          [lit "hello"; lit "world"]) ∧
  (∀ sgn, tokenizeTweet sgn (DSString_of (Some (lit "run on"))) =
          [lit "run"; lit "on"]) ∧
  (∀ (line : std_string) (hasSentiment : bool) (text : DSString),
     text ∈ parseCSVLine (DSString_of (Some line)) hasSentiment →
     DSString_of (Some text) = text).
Proof.
  split; [|split; [apply isDelimiter_byte|split; [|split]]];
    [|intros []; reflexivity|intros []; reflexivity|].
  2:{ intros line hasSentiment text Hin. apply DSString_of_id.
      pose proof (parseCSVLine_fields_no_nul line hasSentiment) as Hall.
      rewrite Forall_forall in Hall. by apply Hall. }
  intros sgn raw text.
  assert (Hruns : token_runs (toLowerCase sgn text) (tokenizeTweet sgn text)).
  { unfold tokenizeTweet.
    destruct (tokenizeTweet_loop_runs (toLowerCase sgn text) [] DSString_default)
      as (more & Heq & Hruns).
    - apply toLowerCase_no_nul, DSString_of_no_nul.
    - constructor.
    - by rewrite Heq. }
  split; [apply toLowerCase_map|]. split; [done|]. split; [|split].
  - intros tokens Ht. by eapply token_runs_unique.
  - by eapply token_runs_nonempty.
  - intros Hall. eapply token_runs_all_delimiters; [exact Hruns|].
    rewrite toLowerCase_map. apply Forall_map.
    eapply Forall_impl; [exact Hall|].
    intros c Hc. simpl. by rewrite delimiter_ascii_lower.
Qed.

Lemma tokenizeTweet_maximal_runs_witness :
  tokenizeTweet SignedChar (DSString_of (Some (lit "?!, ..."))) = [].
Proof.
  destruct tokenizeTweet_maximal_runs as [H _].
  destruct (H SignedChar (lit "?!, ...")) as (_ & _ & _ & _ & Hdelims).
  apply Hdelims.
  repeat constructor; unfold is_delimiter_byte; vm_compute; set_solver.
Defined.

(** ** substring *)

Lemma data_at_inside (s : DSString) (k : nat) (c : ascii) :
  s !! k = Some c → data_at s (Z.of_nat k) = Some c.
Proof.
  intros Hk. unfold data_at, size.
  pose proof (lookup_lt_Some _ _ _ Hk).
  replace (0 <=? Z.of_nat k) with true by lia.
  replace (Z.of_nat k <=? Z.of_nat (List.length s)) with true by lia.
  simpl. rewrite Nat2Z.id. f_equal.
  apply nth_lookup_Some with (d := NUL) in Hk. done.
Qed.

(** Inside the string the copy loop reads the [n] bytes from [start + i]. *)
Lemma substring_loop_inside (s : DSString) (start i : Z) (n : nat) :
  size s <= INT_MAX → 0 <= start → 0 <= i →
  start + i + Z.of_nat n <= size s →
  substring_loop s start i n = Some (take n (drop (Z.to_nat (start + i)) s)).
Proof.
  intros Hmax Hstart. revert i.
  induction n as [|n IH]; intros i Hi Hend; simpl; [done|].
  unfold int_add. rewrite wrap_id by int_bounds.
  assert (Hlt : (Z.to_nat (start + i) < List.length s)%nat) by (unfold size in *; lia).
  destruct (lookup_lt_is_Some_2 s _ Hlt) as [c Hc].
  rewrite <- (Z2Nat.id (start + i)) at 1 by lia.
  rewrite (data_at_inside s _ c Hc).
  rewrite IH by lia.
  replace (Z.to_nat (start + (i + 1))) with (S (Z.to_nat (start + i))) by lia.
  rewrite (drop_S s c (Z.to_nat (start + i)) Hc). done.
Qed.

(** Out-of-range [start] and non-positive [numChars] give the empty string,
    whatever the other argument. *)
Lemma substring_empty (s : DSString) (start numChars : Z) :
  start < 0 ∨ start >= size s ∨ numChars <= 0 →
  substring s start numChars = Returns [].
Proof.
  intros H. unfold substring.
  replace ((start <? 0) || (start >=? size s) || (numChars <=? 0)) with true; [done|].
  symmetry. rewrite !orb_true_iff. lia.
Qed.

(** While [start + numChars] fits an [int], [substring] returns the slice,
    cut at the end of the string. *)
Lemma substring_without_overflow (s : DSString) (start numChars : Z) :
  size s < INT_MAX → int_range start → int_range numChars →
  start + numChars <= INT_MAX →
  0 <= start < size s → 0 < numChars →
  substring s start numChars =
    Returns (take (Z.to_nat numChars) (drop (Z.to_nat start) s)).
Proof.
  unfold int_range, INT_MIN, INT_MAX. intros Hs Hst Hn Hsum Hin Hpos.
  unfold substring.
  replace ((start <? 0) || (start >=? size s) || (numChars <=? 0)) with false;
    [|symmetry; rewrite !orb_false_iff; lia].
  unfold int_add, int_sub.
  rewrite (wrap_id (start + numChars)) by int_bounds.
  destruct (Z.gtb_spec (start + numChars) (size s)) as [Hcut|Hfit].
  - rewrite (wrap_id (size s - start)) by int_bounds.
    rewrite wrap_id by int_bounds.
    replace (size s - start + 1 <? 0) with false by lia.
    rewrite substring_loop_inside by (unfold INT_MAX; lia).
    rewrite Z.add_0_r. f_equal.
    rewrite !take_ge; [done| |]; rewrite length_drop; unfold size in *; lia.
  - rewrite wrap_id by int_bounds.
    replace (numChars + 1 <? 0) with false by lia.
    rewrite substring_loop_inside by (unfold INT_MAX; lia).
    by rewrite Z.add_0_r.
Qed.

(** C2. [substring] on ["hello"] with [start = 1] and [numChars = INT_MAX]:
    both arguments are ints, [start] is inside the string and
    [start + numChars] is past its end, so the specification asks for
    [ello] and for no error; the int sum overflows, the test for cutting
    [numChars] fails, and [new char] of [numChars + 1] throws. *)
Theorem substring_sum_overflows :
  int_range 1 ∧ int_range INT_MAX ∧
  0 <= 1 < size (lit "hello") ∧ 1 + INT_MAX > size (lit "hello") ∧
  drop 1 (lit "hello") = lit "ello" ∧
  int_add 1 INT_MAX = INT_MIN ∧
  substring (lit "hello") 1 INT_MAX = Throws_bad_array_new_length.
Proof. by vm_compute. Qed.

(** Past the array the copy loop has no defined result. *)
Lemma substring_loop_outside (s : DSString) (start i : Z) (n : nat) :
  size s < INT_MAX → 0 <= start → 0 <= i →
  start + i <= size s + 1 → size s + 1 < start + i + Z.of_nat n →
  substring_loop s start i n = None.
Proof.
  intros Hmax Hstart. revert i.
  induction n as [|n IH]; intros i Hi Hle Hpast; [lia|].
  cbn [substring_loop]. unfold int_add.
  rewrite wrap_id by int_bounds.
  destruct (decide (start + i = size s + 1)) as [Hend|Hin].
  - unfold data_at. replace (start + i <=? size s) with false by lia.
    by rewrite andb_false_r.
  - rewrite IH by lia. by destruct (data_at s (start + i)).
Qed.

(** When [start + numChars] overflows and [numChars] is below [INT_MAX],
    [numChars] is not cut, the allocation succeeds, and the copy loop runs
    off the end of the array. *)
Lemma substring_overflow_reads_outside (s : DSString) (start numChars : Z) :
  size s < INT_MAX → 0 <= start < size s →
  0 < numChars < INT_MAX → start + numChars > INT_MAX →
  substring s start numChars = Reads_outside_array.
Proof.
  unfold INT_MAX. intros Hs Hstart Hn Hsum. unfold substring.
  replace ((start <? 0) || (start >=? size s) || (numChars <=? 0)) with false;
    [|symmetry; rewrite !orb_false_iff; lia].
  assert (Hwrap : int_add start numChars = start + numChars - 4294967296).
  { unfold int_add, wrap.
    replace (start + numChars + 2147483648)
      with (start + numChars - 2147483648 + 1 * 4294967296) by lia.
    rewrite Z.mod_add by lia. rewrite Z.mod_small by lia. lia. }
  rewrite Hwrap. replace (start + numChars - 4294967296 >? size s) with false by lia.
  unfold int_add. rewrite wrap_id by int_bounds.
  replace (numChars + 1 <? 0) with false by lia.
  rewrite substring_loop_outside; [done| | | | |]; unfold INT_MAX; lia.
Qed.

(** ** Comparison *)

Lemma operator_eq_loop_true (a b : list ascii) :
  List.length a = List.length b → operator_eq_loop a b = true ↔ a = b.
Proof.
  revert b. induction a as [|c1 a IH]; intros [|c2 b] Hlen; simpl in *; try done.
  destruct (Ascii.eqb_spec c1 c2) as [->|Hne]; simpl.
  - rewrite IH by lia. split; [by intros ->|by intros [= ->]].
  - split; [done|]. by intros [= ? ?].
Qed.

(** [operator==] is equality of the byte sequences. *)
Lemma operator_eq_true (a b : DSString) : operator_eq a b = true ↔ a = b.
Proof.
  unfold operator_eq, size.
  destruct (Z.eqb_spec (Z.of_nat (List.length a)) (Z.of_nat (List.length b))) as [Hlen|Hlen]; simpl.
  - apply operator_eq_loop_true. lia.
  - split; [done|]. intros ->. done.
Qed.

Lemma stringCompare_loop_opp sgn (a b : list ascii) :
  stringCompare_loop sgn b a = - stringCompare_loop sgn a b.
Proof.
  revert b. induction a as [|c1 a IH]; intros [|c2 b]; simpl; try lia.
  rewrite (andb_comm (negb (Ascii.eqb c2 NUL))).
  destruct (negb (Ascii.eqb c1 NUL) && negb (Ascii.eqb c2 NUL)); [|lia].
  destruct (Ascii.eqb_spec c1 c2) as [->|Hne]; simpl.
  - rewrite Ascii.eqb_refl. simpl. apply IH.
  - destruct (Ascii.eqb_spec c2 c1) as [->|_]; [done|]. simpl. lia.
Qed.

Lemma operator_gt_lt sgn (a b : DSString) : operator_gt sgn a b = operator_lt sgn b a.
Proof.
  unfold operator_gt, operator_lt. simpl.
  rewrite (stringCompare_loop_opp sgn a b).
  destruct (Z.gtb_spec (stringCompare_loop sgn a b) 0),
           (Z.ltb_spec (- stringCompare_loop sgn a b) 0); lia.
Qed.

Lemma char_to_int_zero sgn c : char_to_int sgn c = 0 → c = NUL.
Proof.
  intros H. apply (char_to_int_inj sgn). by rewrite char_to_int_NUL.
Qed.

(** On strings without NUL, [stringCompare] returns 0 only for equal
    strings. *)
Lemma stringCompare_loop_zero sgn (a b : list ascii) :
  no_nul a → no_nul b → stringCompare_loop sgn a b = 0 ↔ a = b.
Proof.
  revert b. induction a as [|c1 a IH]; intros [|c2 b] Ha Hb; simpl.
  - by rewrite char_to_int_NUL.
  - apply Forall_cons in Hb as [Hc2 _]. rewrite char_to_int_NUL.
    split; [|done]. intros H. exfalso. apply Hc2, (char_to_int_zero sgn). lia.
  - apply Forall_cons in Ha as [Hc1 _]. rewrite char_to_int_NUL.
    split; [|done]. intros H. exfalso. apply Hc1, (char_to_int_zero sgn). lia.
  - apply Forall_cons in Ha as [Hc1 Ha]. apply Forall_cons in Hb as [Hc2 Hb].
    destruct (Ascii.eqb_spec c1 NUL) as [|_]; [done|].
    destruct (Ascii.eqb_spec c2 NUL) as [|_]; [done|]. simpl.
    destruct (Ascii.eqb_spec c1 c2) as [->|Hne]; simpl.
    + rewrite IH by done. split; [by intros ->|by intros [= ->]].
    + split; [|by intros [= ? ?]]. intros H. exfalso. apply Hne, (char_to_int_inj sgn). lia.
Qed.

(** ** The order that [std::map] sorts by

    [operator<] is a strict order in which two strings are equivalent
    exactly when they have the same [key_of]; a map ordered by it holds one
    entry per key. *)

Lemma stringLength_loop_shift (s : list ascii) (count : Z) :
  stringLength_loop s count = count + stringLength_loop s 0.
Proof.
  revert count. induction s as [|c rest IH]; intros count; simpl; [lia|].
  destruct (Ascii.eqb c NUL); [lia|].
  rewrite (IH (count + 1)), (IH (0 + 1)). lia.
Qed.

Lemma stringLength_loop_nonneg (s : list ascii) : 0 <= stringLength_loop s 0.
Proof.
  destruct (stringLength_loop_spec s 0) as (k & -> & _). lia.
Qed.

Lemma key_of_nil : key_of [] = [].
Proof. reflexivity. Qed.

Lemma key_of_cons (c : ascii) (s : list ascii) :
  key_of (c :: s) = if Ascii.eqb c NUL then [] else c :: key_of s.
Proof.
  unfold key_of. simpl.
  destruct (Ascii.eqb c NUL); [done|].
  rewrite stringLength_loop_shift. pose proof (stringLength_loop_nonneg s).
  replace (Z.to_nat (0 + 1 + stringLength_loop s 0))
    with (S (Z.to_nat (stringLength_loop s 0))) by lia.
  done.
Qed.

(** [stringCompare] returns 0 exactly for strings with the same key. *)
Lemma stringCompare_loop_zero_key sgn (a b : list ascii) :
  stringCompare_loop sgn a b = 0 ↔ key_of a = key_of b.
Proof.
  revert b. induction a as [|c1 a IH]; intros [|c2 b];
    rewrite ?key_of_cons, ?key_of_nil; simpl.
  - by rewrite char_to_int_NUL.
  - rewrite char_to_int_NUL. destruct (Ascii.eqb_spec c2 NUL) as [->|Hc2].
    + by rewrite char_to_int_NUL.
    + split; [|done]. intros H. exfalso. apply Hc2, (char_to_int_zero sgn). lia.
  - rewrite char_to_int_NUL. destruct (Ascii.eqb_spec c1 NUL) as [->|Hc1].
    + by rewrite char_to_int_NUL.
    + split; [|done]. intros H. exfalso. apply Hc1, (char_to_int_zero sgn). lia.
  - destruct (Ascii.eqb_spec c1 NUL) as [->|Hc1], (Ascii.eqb_spec c2 NUL) as [->|Hc2];
      simpl.
    + by rewrite char_to_int_NUL.
    + rewrite char_to_int_NUL. split; [|done].
      intros H. exfalso. apply Hc2, (char_to_int_zero sgn). lia.
    + rewrite char_to_int_NUL. split; [|done].
      intros H. exfalso. apply Hc1, (char_to_int_zero sgn). lia.
    + destruct (Ascii.eqb_spec c1 c2) as [->|Hne]; simpl.
      * rewrite IH. split; [by intros ->|by intros [= ->]].
      * split; [|by intros [= ? ?]].
        intros H. exfalso. apply Hne, (char_to_int_inj sgn). lia.
Qed.

Lemma map_key_equivalence sgn (a b : DSString) :
  operator_lt sgn a b = false ∧ operator_lt sgn b a = false ↔ key_of a = key_of b.
Proof.
  unfold operator_lt. simpl. rewrite <- (stringCompare_loop_zero_key sgn a b).
  rewrite (stringCompare_loop_opp sgn a b), !Z.ltb_ge. lia.
Qed.

Lemma stringCompare_loop_negative_cons sgn (c1 c2 : ascii) (a b : list ascii) :
  stringCompare_loop sgn (c1 :: a) (c2 :: b) < 0 ↔
  char_to_int sgn c1 < char_to_int sgn c2 ∨
  (c1 = c2 ∧ c1 ≠ NUL ∧ stringCompare_loop sgn a b < 0).
Proof.
  simpl.
  destruct (Ascii.eqb_spec c1 NUL) as [->|Hc1], (Ascii.eqb_spec c2 NUL) as [->|Hc2];
    simpl.
  - split; [lia|]. intros [Hlt|(_ & Hnn & _)]; [lia|done].
  - split; [intros Hlt; left; lia|]. intros [Hlt|(Heq & _)]; [lia|]. by subst.
  - split; [intros Hlt; left; lia|]. intros [Hlt|(Heq & _)]; [lia|]. by subst.
  - destruct (Ascii.eqb_spec c1 c2) as [->|Hne]; simpl.
    + split; [by right|]. intros [Hlt|(_ & _ & Hrec)]; [lia|done].
    + split; [intros Hlt; left; lia|]. intros [Hlt|(Heq & _)]; [lia|done].
Qed.

Lemma operator_lt_irreflexive sgn (a : DSString) : operator_lt sgn a a = false.
Proof.
  unfold operator_lt. simpl.
  assert (stringCompare_loop sgn a a = 0) as -> by by apply stringCompare_loop_zero_key.
  done.
Qed.

Lemma stringCompare_loop_transitive sgn (a b c : list ascii) :
  stringCompare_loop sgn a b < 0 → stringCompare_loop sgn b c < 0 →
  stringCompare_loop sgn a c < 0.
Proof.
  revert b c. induction a as [|x a IH]; intros [|y b] [|z c].
  - done.
  - simpl. lia.
  - simpl. lia.
  - rewrite stringCompare_loop_negative_cons. simpl. rewrite char_to_int_NUL.
    intros Hy [Hyz|(-> & _ & _)]; lia.
  - simpl. lia.
  - rewrite stringCompare_loop_negative_cons. simpl. rewrite char_to_int_NUL.
    intros Hx Hz. left. lia.
  - rewrite stringCompare_loop_negative_cons. simpl. rewrite char_to_int_NUL.
    intros [Hxy|(-> & Hx & _)] Hy; [lia|].
    assert (char_to_int sgn y ≠ 0) by (intros ?; by apply Hx, (char_to_int_zero sgn)).
    lia.
  - rewrite !stringCompare_loop_negative_cons.
    intros [Hxy|(-> & Hx & Hab)] [Hyz|(-> & Hy & Hbc)].
    + left. lia.
    + left. lia.
    + left. lia.
    + right. split; [done|]. split; [done|]. by eapply IH.
Qed.

Lemma operator_lt_transitive sgn (a b c : DSString) :
  operator_lt sgn a b = true → operator_lt sgn b c = true →
  operator_lt sgn a c = true.
Proof.
  unfold operator_lt. simpl. rewrite !Z.ltb_lt.
  apply stringCompare_loop_transitive.
Qed.

(** C4, as amended. For all strings [a] and [b] without a NUL byte inside,
    exactly one of [a == b], [a < b], [a > b] holds. *)
Theorem comparison_trichotomy (sgn : char_signedness) (a b : DSString) :
  no_nul a → no_nul b →
  exactly_one (operator_eq a b) (operator_lt sgn a b) (operator_gt sgn a b).
Proof.
  intros Ha Hb. unfold exactly_one.
  pose proof (stringCompare_loop_zero sgn a b Ha Hb) as Hzero.
  pose proof (operator_eq_true a b) as Heq.
  unfold operator_lt, operator_gt. simpl.
  destruct (operator_eq a b).
  - left. assert (a = b) as Hab by by apply Heq.
    apply Hzero in Hab. rewrite Hab. done.
  - assert (stringCompare_loop sgn a b ≠ 0) as Hne.
    { intros H0. apply Hzero in H0. by apply Heq in H0. }
    destruct (Z.ltb_spec (stringCompare_loop sgn a b) 0),
             (Z.gtb_spec (stringCompare_loop sgn a b) 0); try lia; auto.
Qed.

Lemma no_nul_lit_abc : no_nul (lit "abc").
Proof. by repeat constructor. Qed.

Lemma no_nul_lit_abd : no_nul (lit "abd").
Proof. by repeat constructor. Qed.

Lemma comparison_trichotomy_witness :
  exactly_one (operator_eq (lit "abc") (lit "abd"))
              (operator_lt SignedChar (lit "abc") (lit "abd"))
              (operator_gt SignedChar (lit "abc") (lit "abd")).
Proof.
  apply (comparison_trichotomy SignedChar (lit "abc") (lit "abd")).
  - exact no_nul_lit_abc.
  - exact no_nul_lit_abd.
Defined.

(** C4 as stated fails: writing NUL at index 1 of ["abc"] and of ["abd"]
    through [operator[]] gives two strings of length 3 that differ in
    their last byte, so [==] is false, while [stringCompare] stops at the
    NUL and returns 0, so [<] and [>] are false too. *)
Lemma comparison_trichotomy_counterexample :
  operator_index_assign (lit "abc") 1 NUL = Some ["a"%char; NUL; "c"%char] ∧
  operator_index_assign (lit "abd") 1 NUL = Some ["a"%char; NUL; "d"%char] ∧
  operator_eq ["a"%char; NUL; "c"%char] ["a"%char; NUL; "d"%char] = false ∧
  (∀ sgn, operator_lt sgn ["a"%char; NUL; "c"%char] ["a"%char; NUL; "d"%char] = false ∧
          operator_gt sgn ["a"%char; NUL; "c"%char] ["a"%char; NUL; "d"%char] = false) ∧
  ¬ (∀ sgn a b, exactly_one (operator_eq a b) (operator_lt sgn a b) (operator_gt sgn a b)).
Proof.
  split; [done|]. split; [done|]. split; [done|]. split; [by intros []|].
  intros H.
  specialize (H SignedChar ["a"%char; NUL; "c"%char] ["a"%char; NUL; "d"%char]).
  unfold exactly_one in H. vm_compute in H.
  destruct H as [(? & _)|[(_ & ? & _)|(_ & _ & ?)]]; discriminate.
Qed.

Lemma lex_lt_cons_inv c1 c2 r1 r2 :
  lex_lt (c1 :: r1) (c2 :: r2) ↔
  byte_code c1 < byte_code c2 ∨ (c1 = c2 ∧ lex_lt r1 r2).
Proof.
  split.
  - inversion 1; subst; auto.
  - intros [Hlt|[-> Hr]]; [by apply lex_lt_head|by apply lex_lt_tail].
Qed.

Lemma proper_prefix_lex_lt (a b : list ascii) : proper_prefix a b → lex_lt a b.
Proof.
  intros (c & t & ->). induction a as [|x a IH]; simpl.
  - apply lex_lt_prefix.
  - by apply lex_lt_tail.
Qed.

(** Where the promoted chars are the byte values, a negative result of
    [stringCompare] is the lexicographic order of the bytes. *)
Lemma stringCompare_loop_lex sgn (a b : list ascii) :
  no_nul a → no_nul b →
  Forall (λ c, char_to_int sgn c = byte_code c) a →
  Forall (λ c, char_to_int sgn c = byte_code c) b →
  stringCompare_loop sgn a b < 0 ↔ lex_lt a b.
Proof.
  revert b. induction a as [|c1 a IH]; intros [|c2 b] Ha Hb Va Vb; simpl.
  - rewrite char_to_int_NUL. split; [lia|inversion 1].
  - apply Forall_cons in Hb as [Hc2 _]. apply Forall_cons in Vb as [Vc2 _].
    rewrite char_to_int_NUL, Vc2. pose proof (byte_code_range c2).
    assert (byte_code c2 ≠ 0) by (intros ?; by apply Hc2, byte_code_zero).
    split; [intros _; apply lex_lt_prefix|lia].
  - apply Forall_cons in Va as [Vc1 _].
    rewrite char_to_int_NUL, Vc1. pose proof (byte_code_range c1).
    split; [lia|inversion 1].
  - apply Forall_cons in Ha as [Hc1 Ha]. apply Forall_cons in Hb as [Hc2 Hb].
    apply Forall_cons in Va as [Vc1 Va]. apply Forall_cons in Vb as [Vc2 Vb].
    destruct (Ascii.eqb_spec c1 NUL) as [|_]; [done|].
    destruct (Ascii.eqb_spec c2 NUL) as [|_]; [done|]. simpl.
    rewrite lex_lt_cons_inv.
    destruct (Ascii.eqb_spec c1 c2) as [->|Hne]; simpl.
    + rewrite IH by done. split; [auto|]. intros [?|[_ ?]]; [lia|done].
    + rewrite Vc1, Vc2. split; [lia|]. intros [?|[? _]]; [lia|done].
Qed.

Lemma promoted_is_byte sgn (s : list ascii) :
  sgn = UnsignedChar ∨ seven_bit s →
  Forall (λ c, char_to_int sgn c = byte_code c) s.
Proof.
  intros [->|H7].
  - by apply Forall_forall.
  - eapply Forall_impl; [exact H7|]. intros c. apply char_to_int_seven_bit.
Qed.

(** C3, as amended. For all strings [a] and [b] without a NUL byte inside,
    on a target whose plain [char] is unsigned or when every byte of both
    is below 128, [<] and [>] are the byte-wise lexicographic order; in
    particular, when [a] is a proper prefix of [b], [a < b] and [b > a]
    hold. *)
Theorem comparison_lexicographic (sgn : char_signedness) (a b : DSString) :
  no_nul a → no_nul b →
  sgn = UnsignedChar ∨ (seven_bit a ∧ seven_bit b) →
  (operator_lt sgn a b = true ↔ lex_lt a b) ∧
  (operator_gt sgn a b = true ↔ lex_lt b a) ∧
  (proper_prefix a b → operator_lt sgn a b = true ∧ operator_gt sgn b a = true).
Proof.
  intros Ha Hb Hv.
  assert (Va : Forall (λ c, char_to_int sgn c = byte_code c) a).
  { apply promoted_is_byte. tauto. }
  assert (Vb : Forall (λ c, char_to_int sgn c = byte_code c) b).
  { apply promoted_is_byte. tauto. }
  assert (Hlt : ∀ x y, no_nul x → no_nul y →
            Forall (λ c, char_to_int sgn c = byte_code c) x →
            Forall (λ c, char_to_int sgn c = byte_code c) y →
            operator_lt sgn x y = true ↔ lex_lt x y).
  { intros x y Hx Hy Vx Vy. unfold operator_lt. simpl.
    rewrite Z.ltb_lt. by apply stringCompare_loop_lex. }
  split; [by apply Hlt|]. split.
  - rewrite operator_gt_lt. by apply Hlt.
  - intros Hp%proper_prefix_lex_lt. split.
    + by apply Hlt.
    + rewrite operator_gt_lt. by apply Hlt.
Qed.

Lemma comparison_lexicographic_witness :
  operator_lt SignedChar (lit "app") (lit "apple") = true ∧
  operator_gt SignedChar (lit "apple") (lit "app") = true.
Proof.
  apply (comparison_lexicographic SignedChar (lit "app") (lit "apple")).
  - by repeat constructor.
  - by repeat constructor.
  - right. split; repeat constructor.
  - by exists "l"%char, (lit "e").
Defined.

(** C3 as stated fails.  ["ab"] is a proper prefix of the string obtained
    from ["abxc"] by writing NUL at index 2, yet [stringCompare] stops at
    that NUL and returns 0: neither [a < b] nor [b > a].  And where plain
    [char] is signed, a byte of 128 or more after the prefix is negative:
    ["caf"] compares greater than ["caf"] followed by the two bytes 195 and
    169. *)
Lemma comparison_lexicographic_counterexample :
  operator_index_assign (lit "abxc") 2 NUL = Some (lit "ab" ++ NUL :: lit "c") ∧
  proper_prefix (lit "ab") (lit "ab" ++ NUL :: lit "c") ∧
  (∀ sgn, operator_lt sgn (lit "ab") (lit "ab" ++ NUL :: lit "c") = false ∧
          operator_gt sgn (lit "ab" ++ NUL :: lit "c") (lit "ab") = false) ∧
  proper_prefix (lit "caf") (lit "caf" ++ ["195"%char; "169"%char]) ∧
  no_nul (lit "caf" ++ ["195"%char; "169"%char]) ∧
  stringCompare SignedChar (c_str (lit "caf"))
    (c_str (lit "caf" ++ ["195"%char; "169"%char])) = 61 ∧
  operator_lt SignedChar (lit "caf") (lit "caf" ++ ["195"%char; "169"%char]) = false ∧
  operator_gt SignedChar (lit "caf" ++ ["195"%char; "169"%char]) (lit "caf") = false ∧
  ¬ (∀ sgn a b, proper_prefix a b →
                operator_lt sgn a b = true ∧ operator_gt sgn b a = true).
Proof.
  split; [done|]. split; [by exists NUL, (lit "c")|]. split; [by intros []|].
  split; [by exists "195"%char, ["169"%char]|]. split; [by repeat constructor|].
  split; [done|]. split; [done|]. split; [done|].
  intros H.
  destruct (H UnsignedChar (lit "ab") (lit "ab" ++ NUL :: lit "c")) as [Hlt _].
  - by exists NUL, (lit "c").
  - discriminate Hlt.
Qed.

(** ** calculateSentimentScore and predict *)

Lemma calculateSentimentScore_loop_sum counts (tokens : list DSString) (score : Z) :
  int_range score →
  calculateSentimentScore_loop counts tokens score =
    wrap (score + exact_score counts tokens).
Proof.
  revert score. induction tokens as [|token rest IH]; intros score Hs; simpl.
  - rewrite Z.add_0_r. by rewrite wrap_id.
  - unfold contribution. destruct (counts !! key_of token) as [[first second]|].
    + rewrite IH by apply wrap_range.
      unfold int_add, int_sub. rewrite wrap_add_r, wrap_add_l. f_equal. lia.
    + rewrite IH by done. f_equal.
Qed.

Lemma first_byte_is_4_decide (s : DSString) :
  first_byte_is_4 s = bool_decide (first_byte s = "4"%char).
Proof.
  unfold first_byte_is_4, operator_index, data_at, first_byte.
  replace ((0 <=? 0) && (0 <=? size s)) with true
    by (pose proof (size_nonneg s); symmetry; apply andb_true_iff; lia).
  rewrite ascii_eqb_decide. by destruct s.
Qed.

Lemma field_nth (fields : list DSString) (i : nat) : field fields i = nth i fields [].
Proof. apply DSString_copy_id. Qed.

(** ** train *)

Lemma occurrences_cons (k : list ascii) (token : DSString) (rest : list DSString) :
  occurrences k (token :: rest) =
    (if (size token >? 1) && bool_decide (key_of token = k) then 1 else 0)
    + occurrences k rest.
Proof.
  unfold occurrences. simpl.
  destruct ((size token >? 1) && bool_decide (key_of token = k)); simpl; lia.
Qed.

Lemma occurrences_nonneg k tokens : 0 <= occurrences k tokens.
Proof. unfold occurrences. lia. Qed.

Lemma train_tokens_lookup (sentiment : Z) (tokens : list DSString)
    (counts : gmap (list ascii) (Z * Z)) (k : list ascii) :
  train_tokens sentiment tokens counts !! k =
    if decide (occurrences k tokens = 0) then counts !! k
    else Some (if sentiment =? 4
               then (wrap ((default (0, 0) (counts !! k)).1 + occurrences k tokens),
                     (default (0, 0) (counts !! k)).2)
               else ((default (0, 0) (counts !! k)).1,
                     wrap ((default (0, 0) (counts !! k)).2 + occurrences k tokens))).
Proof.
  revert counts. induction tokens as [|token rest IH]; intros counts.
  - reflexivity.
  - rewrite occurrences_cons. pose proof (occurrences_nonneg k rest) as Hnn.
    cbn [train_tokens].
    destruct (Z.leb_spec (size token) 1) as [Hshort|Hlong].
    + replace (size token >? 1) with false by lia. simpl. apply IH.
    + replace (size token >? 1) with true by lia. simpl.
      destruct (default (0, 0) (counts !! key_of token)) as [first second] eqn:Hold.
      destruct (decide (key_of token = k)) as [Hk|Hk].
      * rewrite bool_decide_eq_true_2 by done. rewrite decide_False by lia.
        rewrite <- Hk in *. rewrite Hold. simpl.
        destruct (sentiment =? 4); rewrite IH, lookup_insert_eq; simpl;
          unfold int_add;
          (destruct (decide (occurrences (key_of token) rest = 0)) as [->|_];
           [by rewrite Z.add_0_r|rewrite wrap_add_l; do 3 f_equal; lia]).
      * rewrite bool_decide_eq_false_2 by done. rewrite Z.add_0_l.
        destruct (sentiment =? 4); rewrite IH, lookup_insert_ne by done; done.
Qed.

(** One record of at least six fields: what [train_line] does to the
    entry of [k]. *)
Lemma train_line_lookup (sgn : char_signedness) (this : SentimentClassifier)
    (line : std_string) (k : list ascii) :
  let fields := parseCSVLine (DSString_of (Some line)) true in
  let positive := bool_decide (first_byte (nth 0 fields []) = "4"%char) in
  let tokens := tokenizeTweet sgn (nth 5 fields []) in
  let old := default (0, 0) (wordSentimentCounts this !! k) in
  (6 ≤ List.length fields)%nat →
  wordSentimentCounts (train_line sgn this line) !! k =
    if decide (occurrences k tokens = 0) then wordSentimentCounts this !! k
    else Some (if positive
               then (wrap (old.1 + occurrences k tokens), old.2)
               else (old.1, wrap (old.2 + occurrences k tokens))).
Proof.
  intros fields positive tokens old Hlen.
  assert (Hafter : wordSentimentCounts (train_line sgn this line) =
                     train_tokens (if positive then 4 else 0) tokens
                       (wordSentimentCounts this)).
  { unfold train_line. fold fields.
    replace (Z.of_nat (List.length fields) <? 6) with false by lia.
    simpl. rewrite !field_nth, first_byte_is_4_decide. done. }
  rewrite Hafter, train_tokens_lookup. by destruct positive.
Qed.

(** ** evaluatePredictions *)

Lemma matched_cons preds (line : std_string) (lines : list std_string) :
  matched preds (line :: lines) =
    match matched_record preds line with
    | Some r => r :: matched preds lines
    | None => matched preds lines
    end.
Proof. reflexivity. Qed.

Lemma evaluate_line_step (this : SentimentClassifier) (ev : evaluation)
    (line : std_string) :
  evaluate_line this ev line =
    match matched_record (predictions this) line with
    | Some r => count_record ev r
    | None => ev
    end.
Proof.
  unfold evaluate_line, matched_record, truth_record.
  set (fields := parseCSVLine (DSString_of (Some line)) false).
  destruct (decide (2 ≤ List.length fields)%nat) as [Hlen|Hlen]; simpl.
  - replace (Z.of_nat (List.length fields) <? 2) with false by lia.
    rewrite field_nth. fold (record_id fields).
    destruct (predictions this !! key_of (record_id fields)) as [predicted|]; simpl; [|done].
    rewrite first_byte_is_4_decide, DSString_copy_id.
    unfold count_record, is_correct, record_actual. simpl.
    destruct (decide (first_byte (nth 0 fields []) = "4"%char)) as [H4|H4].
    + rewrite bool_decide_eq_true_2 by done. done.
    + rewrite bool_decide_eq_false_2 by done. done.
  - replace (Z.of_nat (List.length fields) <? 2) with true by lia. done.
Qed.

Lemma evaluate_lines_fold (this : SentimentClassifier) (lines : list std_string)
    (ev : evaluation) :
  int_range (correctPredictions ev) → int_range (totalPredictions ev) →
  fold_left (evaluate_line this) lines ev =
    {| correctPredictions :=
         wrap (correctPredictions ev +
               Z.of_nat (List.length (List.filter is_correct
                                        (matched (predictions this) lines))));
       totalPredictions :=
         wrap (totalPredictions ev +
               Z.of_nat (List.length (matched (predictions this) lines)));
       misclassifications :=
         misclassifications ev ++
         List.filter (λ r, negb (is_correct r)) (matched (predictions this) lines) |}.
Proof.
  revert ev. induction lines as [|line lines IH]; intros ev Hc Ht.
  - cbn. rewrite !Z.add_0_r, !wrap_id, app_nil_r by done. by destruct ev.
  - cbn [fold_left]. rewrite evaluate_line_step, matched_cons.
    destruct (matched_record (predictions this) line) as [r|]; [|by apply IH].
    rewrite IH; unfold count_record; destruct (is_correct r) eqn:Hr;
      cbn [correctPredictions totalPredictions misclassifications List.filter List.length];
      try apply wrap_range; try done.
    + rewrite Hr. cbn [negb List.length]. unfold int_add. rewrite !wrap_add_l.
      f_equal; f_equal; lia.
    + rewrite Hr. cbn [negb List.length]. unfold int_add.
      rewrite !wrap_add_l, <- app_assoc.
      f_equal. f_equal. lia.
Qed.

(** *** The accuracy as a double and as text *)

Lemma round_half_even_near (n d : Z) :
  0 < d → 2 * Z.abs (round_half_even n d * d - n) <= d.
Proof.
  intros Hd. unfold round_half_even.
  pose proof (Z.div_mod n d ltac:(lia)) as Hn.
  pose proof (Z.mod_pos_bound n d Hd) as Hr.
  set (q := n / d) in *. set (r := n mod d) in *.
  destruct (Z.ltb_spec (2 * r) d); [nia|].
  destruct (Z.ltb_spec d (2 * r)); [nia|].
  destruct (Z.even q); nia.
Qed.

(** [double_div] agrees with the library's binary64 division on these
    operands: quotients with a short and with a periodic expansion, ties
    of the third decimal, both signs, and the ends of the int range. *)
Lemma double_div_agrees_with_SFdiv :
  Forall (λ operands : Z * Z, agrees_with_SFdiv operands.1 operands.2 = true)
    [(1, 3); (2, 3); (3999, 4000); (1, 2000); (3, 2000); (1999, 2000); (1, 16);
     (5, 8); (1, 1); (0, 5); (-1, 3); (7, 10); (123456, 7654321);
     (2147483647, 1); (1, 2147483647); (2147483646, 2147483647);
     (-2147483648, 7)].
Proof. repeat constructor. Qed.

Lemma double_div_positive (c t : Z) :
  0 < c <= t →
  52 <= scale (double_div c t) ∧ negative (double_div c t) = false ∧
  mantissa (double_div c t) = round_half_even (c * 2 ^ scale (double_div c t)) t.
Proof.
  intros Hc. unfold double_div.
  replace (c =? 0) with false by lia.
  replace (Z.abs c) with c by lia.
  pose proof (Z.log2_le_mono c t ltac:(lia)) as Hlog.
  cbn [scale negative mantissa].
  split; [|split].
  - destruct (_ <? _); lia.
  - lia.
  - done.
Qed.

(** The quotient of two counters, divided as doubles and then rounded to
    three decimals, is still a nearest number with three decimals to the
    exact quotient: the error of the division is too small to move it
    across a half-way point. *)
Lemma written_thousandths_near (c t : Z) :
  0 <= c <= t → 0 < t <= INT_MAX →
  2 * Z.abs (1000 * c - written_thousandths c t * t) <= t.
Proof.
  intros Hc Ht. unfold written_thousandths.
  destruct (decide (c = 0)) as [->|Hc0].
  { change (round_half_even _ _) with 0. lia. }
  destruct (double_div_positive c t ltac:(lia)) as (Hk & _ & Hm).
  set (k := scale (double_div c t)) in *.
  set (m := mantissa (double_div c t)) in *.
  assert (HP : 2 ^ 52 <= 2 ^ k) by (apply Z.pow_le_mono_r; lia).
  set (P := 2 ^ k) in *.
  pose proof (round_half_even_near (c * P) t ltac:(lia)) as HB. rewrite <- Hm in HB.
  pose proof (round_half_even_near (m * 1000) P ltac:(lia)) as HA.
  set (n := round_half_even (m * 1000) P) in *.
  change (2 ^ 52) with 4503599627370496 in HP. unfold INT_MAX in Ht.
  set (A := n * P - m * 1000) in *. set (B := m * t - c * P) in *.
  assert (HD : (n * t - 1000 * c) * P = t * A + 1000 * B) by (unfold A, B; ring).
  set (D := n * t - 1000 * c) in *.
  replace (1000 * c - n * t) with (- D) by (unfold D; ring).
  rewrite Z.abs_opp.
  destruct (Z.le_gt_cases (2 * Z.abs D) t) as [|Hbad]; [done|exfalso].
  assert (H1 : 2 * Z.abs (t * A) <= t * P).
  { rewrite Z.abs_mul. rewrite (Z.abs_eq t) by lia. nia. }
  assert (H2 : 2 * Z.abs (D * P) <= t * P + 1000 * t).
  { rewrite HD. lia. }
  rewrite Z.abs_mul, (Z.abs_eq P) in H2 by lia.
  assert (H3 : (t + 1) * P <= 2 * Z.abs D * P) by nia.
  nia.
Qed.

Lemma fixed_3_quotient (c t : Z) :
  0 <= c <= t → 0 < t →
  fixed_3 (double_div c t) = three_decimals (written_thousandths c t).
Proof.
  intros Hc Ht. unfold fixed_3, written_thousandths.
  destruct (decide (c = 0)) as [->|Hc0]; [done|].
  destruct (double_div_positive c t ltac:(lia)) as (_ & -> & _). done.
Qed.

(** What the first line of the accuracy file shows for [c] correct
    records out of [t]. *)
Lemma written_accuracy (c t : Z) :
  0 <= c <= t → 0 < t <= INT_MAX →
  fixed_3 (double_div c t) = three_decimals (written_thousandths c t) ∧
  0 <= written_thousandths c t <= 1000 ∧
  2 * Z.abs (1000 * c - written_thousandths c t * t) <= t ∧
  (∀ j, 1000 * c = j * t → written_thousandths c t = j).
Proof.
  intros Hc Ht. pose proof (written_thousandths_near c t Hc Ht) as Hnear.
  split; [apply fixed_3_quotient; lia|].
  set (n := written_thousandths c t) in *.
  split; [nia|]. split; [done|].
  intros j Hj. rewrite Hj in Hnear.
  replace (j * t - n * t) with ((j - n) * t) in Hnear by ring.
  rewrite Z.abs_mul, (Z.abs_eq t) in Hnear by lia. nia.
Qed.

Lemma three_decimals_one (n : Z) :
  0 <= n <= 1000 → three_decimals n = lit "1.000" → n = 1000.
Proof.
  intros Hn Ht. destruct (decide (n = 1000)) as [|Hne]; [done|exfalso].
  unfold three_decimals in Ht. rewrite Z.div_small in Ht by lia.
  discriminate Ht.
Qed.




(** ** Copies own their arrays *)

Lemma array_read_Some (h : gmap positive (list ascii)) (a : positive)
    (arr : list ascii) (i : nat) (c : ascii) :
  h !! a = Some arr → arr !! i = Some c →
  Store.array_read h (Some a) (Z.of_nat i) = Some c.
Proof.
  intros Ha Hi. unfold Store.array_read. simpl. rewrite Ha. simpl.
  pose proof (lookup_lt_Some _ _ _ Hi).
  replace ((0 <=? Z.of_nat i) && (Z.of_nat i <? Z.of_nat (List.length arr)))
    with true by (symmetry; apply andb_true_iff; lia).
  by rewrite Nat2Z.id.
Qed.

Lemma array_write_Some (h : gmap positive (list ascii)) (a : positive)
    (arr : list ascii) (i : nat) (c : ascii) :
  h !! a = Some arr → (i < List.length arr)%nat →
  Store.array_write h (Some a) (Z.of_nat i) c = Some (<[a := <[i := c]> arr]> h).
Proof.
  intros Ha Hi. unfold Store.array_write. simpl. rewrite Ha. simpl.
  replace ((0 <=? Z.of_nat i) && (Z.of_nat i <? Z.of_nat (List.length arr)))
    with true by (symmetry; apply andb_true_iff; lia).
  by rewrite Nat2Z.id.
Qed.

(** The loop of [stringCopy] overwrites the chars [i .. i + n) of the
    destination with those of the source and nothing else. *)
Lemma stringCopy_loop_spec (h : gmap positive (list ascii)) (dst src : positive)
    (darr sarr : list ascii) (i n : nat) :
  dst ≠ src →
  h !! dst = Some darr → h !! src = Some sarr →
  (i + n ≤ List.length darr)%nat → (i + n ≤ List.length sarr)%nat →
  ∃ darr',
    Store.stringCopy_loop h (Some dst) (Some src) (Z.of_nat i) n
      = Some (<[dst := darr']> h) ∧
    List.length darr' = List.length darr ∧
    ∀ j, darr' !! j = if decide (i ≤ j < i + n)%nat then sarr !! j else darr !! j.
Proof.
  intros Hne. revert h darr i.
  induction n as [|n IH]; intros h darr i Hd Hs Hld Hls;
    cbn [Store.stringCopy_loop].
  - exists darr. split; [by rewrite insert_id|]. split; [done|].
    intros j. rewrite decide_False by lia. done.
  - assert (is_Some (sarr !! i)) as [c Hc] by (apply lookup_lt_is_Some_2; lia).
    rewrite (array_read_Some h src sarr i c) by done. cbn [mbind option_bind].
    rewrite (array_write_Some h dst darr i c) by (done || lia). cbn [mbind option_bind].
    replace (Z.of_nat i + 1) with (Z.of_nat (S i)) by lia.
    destruct (IH (<[dst := <[i := c]> darr]> h) (<[i := c]> darr) (S i))
      as (darr' & Hloop & Hlen & Hlook).
    + apply lookup_insert_eq.
    + by rewrite lookup_insert_ne.
    + rewrite length_insert. lia.
    + lia.
    + exists darr'. split; [by rewrite Hloop, insert_insert_eq|].
      split; [by rewrite Hlen, length_insert|].
      intros j. rewrite Hlook.
      destruct (decide (S i ≤ j < S i + n)%nat), (decide (i ≤ j < i + S n)%nat);
        try done; try lia.
      * assert (i = j) as <- by lia.
        rewrite list_lookup_insert_eq by lia. done.
      * rewrite list_lookup_insert_ne by lia. done.
Qed.

(** Copying [len] chars and the terminator from an array of a well-formed
    string into another array of the same size makes the two arrays equal. *)
Lemma stringCopy_whole (h : gmap positive (list ascii)) (dst src : positive)
    (darr sarr : list ascii) (len : nat) :
  dst ≠ src →
  h !! dst = Some darr → h !! src = Some sarr →
  List.length darr = S len → List.length sarr = S len →
  sarr !! len = Some NUL →
  Store.stringCopy h (Some dst) (Some src) (Z.of_nat len) = Some (<[dst := sarr]> h).
Proof.
  intros Hne Hd Hs Hld Hls Hnul. unfold Store.stringCopy. rewrite Nat2Z.id.
  destruct (stringCopy_loop_spec h dst src darr sarr 0 len)
    as (darr' & Hloop & Hlen & Hlook); try done; try lia.
  change (Z.of_nat 0) with 0 in Hloop. rewrite Hloop. cbn [mbind option_bind].
  rewrite (array_write_Some _ dst darr') by (by rewrite ?lookup_insert_eq || lia).
  rewrite insert_insert_eq. do 2 f_equal.
  apply list_eq. intros j.
  destruct (decide (j = len)) as [->|Hj].
  - rewrite list_lookup_insert_eq by lia. done.
  - rewrite list_lookup_insert_ne by done. rewrite Hlook.
    destruct (decide (0 ≤ j < 0 + len)%nat); [done|].
    rewrite !lookup_ge_None_2 by lia. done.
Qed.

Lemma store_value_eq (σ : Store.store) (s : Store.name) (o : Store.object)
    (a : positive) (arr : list ascii) :
  Store.objects σ !! s = Some o → Store.data o = Some a →
  Store.arrays σ !! a = Some arr →
  0 <= Store.length o < Z.of_nat (List.length arr) →
  Store.value σ s = Some (take (Z.to_nat (Store.length o)) arr).
Proof.
  intros Ho Ha Harr Hlen. unfold Store.value.
  rewrite Ho. simpl. rewrite Ha. simpl. rewrite Harr. simpl.
  replace ((0 <=? Store.length o) && (Store.length o <? Z.of_nat (List.length arr)))
    with true by (symmetry; apply andb_true_iff; lia).
  done.
Qed.

Lemma store_operator_eq_loop_same (h : gmap positive (list ascii))
    (a1 a2 : positive) (arr : list ascii) (i n : nat) :
  h !! a1 = Some arr → h !! a2 = Some arr → (i + n ≤ List.length arr)%nat →
  Store.operator_eq_loop h (Some a1) (Some a2) (Z.of_nat i) n = Some true.
Proof.
  intros H1 H2. revert i. induction n as [|n IH]; intros i Hlen;
    cbn [Store.operator_eq_loop]; [done|].
  assert (is_Some (arr !! i)) as [c Hc] by (apply lookup_lt_is_Some_2; lia).
  rewrite (array_read_Some h a1 arr i c), (array_read_Some h a2 arr i c) by done.
  cbn [mbind option_bind]. rewrite Ascii.eqb_refl. cbn [negb].
  replace (Z.of_nat i + 1) with (Z.of_nat (S i)) by lia. apply IH. lia.
Qed.

(** The state after a copy has been installed for [this] at a fresh
    address [a], in a heap [h0] that still holds the arrays of every other
    object. *)
Lemma installed_copy_independent (σ : Store.store) (this other : Store.name)
    (o : Store.object) (h0 : gmap positive (list ascii)) (a sa : positive)
    (sarr : list ascii) :
  Store.well_formed σ →
  this ≠ other →
  Store.objects σ !! other = Some o →
  Store.data o = Some sa → Store.arrays σ !! sa = Some sarr →
  (∀ n' o' a', n' ≠ this → Store.objects σ !! n' = Some o' →
               Store.data o' = Some a' → h0 !! a' = Store.arrays σ !! a') →
  h0 !! a = None →
  independent_copy σ
    {| Store.arrays := <[a := sarr]> h0;
       Store.objects :=
         <[this := {| Store.data := Some a; Store.length := Store.length o |}]>
           (Store.objects σ) |}
    this other.
Proof.
  intros [Hown Huniq] Hne Ho Hsa Hsarr Hkeep Hfresh.
  destruct (Hown other o Ho) as (sa' & sarr' & Hsa' & Hsarr' & Hlen0 & Hlen & Hnul).
  rewrite Hsa in Hsa'. injection Hsa' as <-.
  rewrite Hsarr in Hsarr'. injection Hsarr' as <-.
  assert (Hsa_h0 : h0 !! sa = Some sarr).
  { rewrite (Hkeep other o sa); done. }
  assert (Hasa : a ≠ sa) by (intros ->; congruence).
  set (new := {| Store.data := Some a; Store.length := Store.length o |}).
  set (σ' := {| Store.arrays := <[a := sarr]> h0;
                Store.objects := <[this := new]> (Store.objects σ) |}).
  assert (Hthis' : Store.objects σ' !! this = Some new) by apply lookup_insert_eq.
  assert (Hother' : Store.objects σ' !! other = Some o).
  { unfold σ'. simpl. by rewrite lookup_insert_ne. }
  assert (Ha' : Store.arrays σ' !! a = Some sarr) by apply lookup_insert_eq.
  assert (Hsa'' : Store.arrays σ' !! sa = Some sarr).
  { unfold σ'. simpl. by rewrite lookup_insert_ne. }
  assert (Hvo : Store.value σ other = Some (take (Z.to_nat (Store.length o)) sarr)).
  { apply (store_value_eq σ other o sa); try done. lia. }
  assert (Hvo' : Store.value σ' other = Some (take (Z.to_nat (Store.length o)) sarr)).
  { apply (store_value_eq σ' other o sa); try done. lia. }
  assert (Hvt' : Store.value σ' this = Some (take (Z.to_nat (Store.length o)) sarr)).
  { apply (store_value_eq σ' this new a); try done. simpl. lia. }
  split; [|split; [by rewrite Hvo|split; [by rewrite Hvo, Hvo'|split; [by rewrite Hvo, Hvt'|split]]]].
  - (* the invariant *)
    split.
    + intros n o' Hn. unfold σ' in Hn. simpl in Hn.
      destruct (decide (n = this)) as [->|Hnt].
      * rewrite lookup_insert_eq in Hn. injection Hn as <-.
        exists a, sarr. simpl. by rewrite lookup_insert_eq.
      * rewrite lookup_insert_ne in Hn by done.
        destruct (Hown n o' Hn) as (a' & arr' & Ha'' & Harr' & ? & ? & ?).
        exists a', arr'. split; [done|]. split; [|done].
        simpl. rewrite lookup_insert_ne; [by rewrite (Hkeep n o' a'), Harr'|].
        intros ->. rewrite (Hkeep n o' a') in Hfresh by done. congruence.
    + intros n1 n2 o1 o2 H1 H2 Hd. unfold σ' in H1, H2. simpl in H1, H2.
      destruct (decide (n1 = this)) as [->|Hn1], (decide (n2 = this)) as [->|Hn2];
        try done.
      * rewrite lookup_insert_eq in H1. injection H1 as <-.
        rewrite lookup_insert_ne in H2 by done. simpl in Hd.
        destruct (Hown n2 o2 H2) as (a' & arr' & Ha'' & Harr' & _).
        rewrite Ha'' in Hd. injection Hd as ->.
        rewrite (Hkeep n2 o2 a') in Hfresh by done. congruence.
      * rewrite lookup_insert_eq in H2. injection H2 as <-.
        rewrite lookup_insert_ne in H1 by done. simpl in Hd.
        destruct (Hown n1 o1 H1) as (a' & arr' & Ha'' & Harr' & _).
        rewrite Ha'' in Hd. injection Hd as <-.
        rewrite (Hkeep n1 o1 a') in Hfresh by done. congruence.
      * rewrite lookup_insert_ne in H1, H2 by done. by eapply Huniq.
  - (* equal *)
    unfold Store.operator_eq. rewrite Hthis', Hother'. cbn [mbind option_bind].
    simpl Store.length. rewrite Z.eqb_refl. cbn [negb]. simpl Store.data. rewrite Hsa.
    apply (store_operator_eq_loop_same _ a sa sarr 0); try done. lia.
  - (* writes *)
    intros index c o2 Ho2 Hidx. rewrite Hother' in Ho2. injection Ho2 as <-.
    assert (∃ k : nat, index = Z.of_nat k) as [k ->]
      by (exists (Z.to_nat index); lia).
    assert (Hin : (k < List.length sarr)%nat) by lia.
    split.
    + exists {| Store.arrays := <[a := <[k := c]> sarr]> (Store.arrays σ');
                Store.objects := Store.objects σ' |}.
      split.
      { unfold Store.index_assign. rewrite Hthis'. cbn [mbind option_bind].
        simpl Store.data.
        rewrite (array_write_Some _ a sarr) by done. done. }
      split.
      { unfold Store.index_read. cbn [Store.objects]. rewrite Hthis'.
        cbn [mbind option_bind]. simpl Store.data.
        apply (array_read_Some _ a (<[k := c]> sarr)).
        - apply lookup_insert_eq.
        - by apply list_lookup_insert_eq. }
      rewrite Hvo'. apply (store_value_eq _ other o sa); try done; [|lia].
      simpl. by rewrite !lookup_insert_ne.
    + exists {| Store.arrays := <[sa := <[k := c]> sarr]> (Store.arrays σ');
                Store.objects := Store.objects σ' |}.
      split.
      { unfold Store.index_assign. rewrite Hother'. cbn [mbind option_bind].
        rewrite Hsa.
        rewrite (array_write_Some _ sa sarr) by done. done. }
      split.
      { unfold Store.index_read. cbn [Store.objects]. rewrite Hother'.
        cbn [mbind option_bind]. rewrite Hsa.
        apply (array_read_Some _ sa (<[k := c]> sarr)).
        - apply lookup_insert_eq.
        - by apply list_lookup_insert_eq. }
      rewrite Hvt'. apply (store_value_eq _ this new a); try done; [|simpl; lia].
      simpl. rewrite lookup_insert_ne by done. apply lookup_insert_eq.
Qed.

Section Copies.

Variable fresh_address : gmap positive (list ascii) → positive.
Variable indeterminate : ascii.

(** [new] never hands out an array that is still in use. *)
Hypothesis fresh_address_unused : ∀ h, h !! fresh_address h = None.

(** Allocating [len + 1] chars in [h0] and copying a well-formed string
    into them. *)
Lemma allocate_and_copy (h0 : gmap positive (list ascii)) (src : positive)
    (sarr : list ascii) (len : Z) :
  h0 !! src = Some sarr → 0 <= len →
  Z.of_nat (List.length sarr) = len + 1 →
  sarr !! Z.to_nat len = Some NUL →
  Store.stringCopy
    (Store.new_char_array fresh_address indeterminate h0 (len + 1)).2
    (Some (Store.new_char_array fresh_address indeterminate h0 (len + 1)).1)
    (Some src) len
  = Some (<[fresh_address h0 := sarr]> h0).
Proof using fresh_address_unused.
  intros Hsrc Hlen0 Hlen Hnul.
  assert (∃ k : nat, len = Z.of_nat k) as [k ->]
    by (exists (Z.to_nat len); lia).
  rewrite Nat2Z.id in Hnul.
  unfold Store.new_char_array. cbn [fst snd].
  assert (Hne : fresh_address h0 ≠ src).
  { intros Heq. pose proof (fresh_address_unused h0) as Hf.
    rewrite Heq in Hf. congruence. }
  rewrite (stringCopy_whole _ (fresh_address h0) src
             (replicate (Z.to_nat (Z.of_nat k + 1)) indeterminate) sarr k).
  - by rewrite insert_insert_eq.
  - done.
  - apply lookup_insert_eq.
  - by rewrite lookup_insert_ne.
  - rewrite length_replicate. lia.
  - lia.
  - done.
Qed.

(** C9. For every string [other] of a well-formed store, the copy
    constructor and, for another existing string [this], copy assignment
    return, and afterwards [this] compares equal to [other], holds the
    string [other] held, [other] still holds it, and a write through
    [operator[]] at any index of the array of one of the two leaves the
    string of the other unchanged; each owns its own array.  Assigning a
    string to itself changes nothing. *)
Theorem copies_are_independent (σ : Store.store) (this other : Store.name)
    (o : Store.object) :
  Store.well_formed σ →
  Store.objects σ !! other = Some o →
  (Store.objects σ !! this = None →
   ∃ σ', Store.copy_constructor fresh_address indeterminate σ this other = Some σ' ∧
         independent_copy σ σ' this other) ∧
  (is_Some (Store.objects σ !! this) → this ≠ other →
   ∃ σ', Store.operator_assign fresh_address indeterminate σ this other = Some σ' ∧
         independent_copy σ σ' this other) ∧
  Store.operator_assign fresh_address indeterminate σ other other = Some σ.
Proof using fresh_address_unused.
  intros Hwf Ho.
  destruct Hwf as [Hown Huniq].
  destruct (Hown other o Ho) as (sa & sarr & Hsa & Hsarr & Hlen0 & Hlen & Hnul).
  split; [|split].
  - intros Hnew.
    assert (Hne : this ≠ other) by (intros ->; congruence).
    exists {| Store.arrays := <[fresh_address (Store.arrays σ) := sarr]> (Store.arrays σ);
              Store.objects :=
                <[this := {| Store.data := Some (fresh_address (Store.arrays σ));
                             Store.length := Store.length o |}]> (Store.objects σ) |}.
    split.
    + unfold Store.copy_constructor. rewrite Ho. cbn [mbind option_bind].
      pose proof (allocate_and_copy (Store.arrays σ) sa sarr (Store.length o)
                    Hsarr Hlen0 Hlen Hnul) as Hcopy.
      unfold Store.new_char_array in Hcopy |- *. cbn [fst snd] in Hcopy.
      cbv beta iota zeta. rewrite Hsa, Hcopy. done.
    + by apply (installed_copy_independent σ this other o _ _ sa sarr).
  - intros [t Ht] Hne.
    destruct (Hown this t Ht) as (ta & tarr & Hta & Htarr & _).
    assert (Htasa : ta ≠ sa).
    { intros ->. apply Hne. apply (Huniq this other t o); congruence. }
    set (h0 := delete ta (Store.arrays σ)).
    exists {| Store.arrays := <[fresh_address h0 := sarr]> h0;
              Store.objects :=
                <[this := {| Store.data := Some (fresh_address h0);
                             Store.length := Store.length o |}]> (Store.objects σ) |}.
    split.
    + unfold Store.operator_assign. rewrite decide_False by done.
      rewrite Ht, Ho. cbn [mbind option_bind].
      unfold Store.delete_array. rewrite Hta, Htarr. cbn [mbind option_bind].
      fold h0.
      assert (Hsrc : h0 !! sa = Some sarr).
      { unfold h0. by rewrite lookup_delete_ne. }
      pose proof (allocate_and_copy h0 sa sarr (Store.length o)
                    Hsrc Hlen0 Hlen Hnul) as Hcopy.
      unfold Store.new_char_array in Hcopy |- *. cbn [fst snd] in Hcopy.
      cbv beta iota zeta. rewrite Hsa, Hcopy. done.
    + apply (installed_copy_independent σ this other o _ _ sa sarr); try done.
      intros n' o' a' Hn' Ho' Ha'. unfold h0. apply lookup_delete_ne.
        intros <-. apply Hn'. symmetry. apply (Huniq this n' t o'); congruence.
  - unfold Store.operator_assign. rewrite decide_True by done.
    by rewrite Ho.
Qed.

End Copies.

Lemma least_unused_unused (h : gmap positive (list ascii)) : h !! least_unused h = None.
Proof.
  unfold least_unused. apply (not_elem_of_dom (D := gset positive)).
  apply is_fresh.
Qed.

Lemma example_store_well_formed : Store.well_formed example_store.
Proof.
  unfold example_store. split; cbn [Store.objects Store.arrays].
  - intros n o [[<- <-]|[_ [<- <-]%lookup_singleton_Some]]%lookup_insert_Some.
    + exists 2%positive, (lit "hi" ++ [NUL]). by repeat split.
    + exists 1%positive, (lit "hello" ++ [NUL]). by repeat split.
  - intros n1 n2 o1 o2
      [[<- <-]|[_ [<- <-]%lookup_singleton_Some]]%lookup_insert_Some
      [[<- <-]|[_ [<- <-]%lookup_singleton_Some]]%lookup_insert_Some; done.
Qed.

Lemma copies_are_independent_witness :
  (∃ σ', Store.copy_constructor least_unused "?"%char example_store 3%positive 1%positive
           = Some σ' ∧
         independent_copy example_store σ' 3%positive 1%positive) ∧
  (∃ σ', Store.operator_assign least_unused "?"%char example_store 2%positive 1%positive
           = Some σ' ∧
         independent_copy example_store σ' 2%positive 1%positive) ∧
  Store.operator_assign least_unused "?"%char example_store 1%positive 1%positive
    = Some example_store.
Proof.
  split; [|split].
  - apply (copies_are_independent least_unused "?"%char least_unused_unused
             example_store 3%positive 1%positive
             {| Store.data := Some 1%positive; Store.length := 5 |});
      [exact example_store_well_formed|reflexivity|reflexivity].
  - apply (copies_are_independent least_unused "?"%char least_unused_unused
             example_store 2%positive 1%positive
             {| Store.data := Some 1%positive; Store.length := 5 |});
      [exact example_store_well_formed|reflexivity| |discriminate].
    by eexists.
  - apply (copies_are_independent least_unused "?"%char least_unused_unused
             example_store 1%positive 1%positive
             {| Store.data := Some 1%positive; Store.length := 5 |});
      [exact example_store_well_formed|reflexivity].
Defined.

(** * Further properties of the code *)

(** ** DSString values *)

Lemma key_of_app_no_nul (a b : list ascii) :
  no_nul a → key_of (a ++ b) = a ++ key_of b.
Proof.
  induction 1 as [|c a Hc _ IH]; [done|].
  cbn [app]. rewrite key_of_cons, IH.
  by destruct (Ascii.eqb_spec c NUL).
Qed.

Lemma key_of_app_nul (a b : list ascii) :
  NUL ∈ a → key_of (a ++ b) = key_of a.
Proof.
  induction a as [|c a IH]; intros Hin; [by apply elem_of_nil in Hin|].
  cbn [app]. rewrite !key_of_cons.
  destruct (Ascii.eqb_spec c NUL) as [->|Hc]; [done|].
  apply elem_of_cons in Hin as [Heq|Hin]; [congruence|].
  by rewrite IH.
Qed.

(** X1. [operator+] on two strings whose sizes add up to less than
    [INT_MAX], so that the int [newLength] is their exact sum.  The result
    has that size; read through [operator[]] it gives the bytes of the
    first operand at their indices and, from index [size a] on, those of
    the second, terminator included; two results with the same first
    operand compare equal with [operator==] exactly when the second
    operands do; as a map key the result is the first operand followed by
    the key of the second when the first holds no NUL, and the key of the
    first alone when it holds one; and the result holds no NUL exactly
    when neither operand does. *)
Theorem concatenation_appends (a b c : DSString) :
  size a + size b < INT_MAX →
  size (operator_plus a b) = size a + size b ∧
  int_add (size a) (size b) = size (operator_plus a b) ∧
  (∀ i, 0 <= i < size a →
        operator_index (operator_plus a b) i = operator_index a i) ∧
  (∀ i, 0 <= i <= size b →
        operator_index (operator_plus a b) (size a + i) = operator_index b i) ∧
  operator_eq (operator_plus a b) (operator_plus a c) = operator_eq b c ∧
  (no_nul a → key_of (operator_plus a b) = a ++ key_of b) ∧
  (NUL ∈ a → key_of (operator_plus a b) = key_of a) ∧
  (no_nul a ∧ no_nul b ↔ no_nul (operator_plus a b)).
Proof.
  intros Hsmall. rewrite !operator_plus_app.
  pose proof (size_nonneg a) as Ha0. pose proof (size_nonneg b) as Hb0.
  pose proof (size_app a b) as Hsize.
  split; [done|]. split.
  { rewrite Hsize. unfold int_add. apply wrap_id. int_bounds. }
  split; [|split; [|split; [|split; [|split]]]].
  - intros i Hi. unfold operator_index, data_at. rewrite Hsize.
    replace ((0 <=? i) && (i <=? size a + size b)) with true
      by (symmetry; apply andb_true_iff; lia).
    replace ((0 <=? i) && (i <=? size a)) with true
      by (symmetry; apply andb_true_iff; lia).
    f_equal. apply app_nth1. unfold size in Hi. lia.
  - intros i Hi. unfold operator_index, data_at. rewrite Hsize.
    replace ((0 <=? size a + i) && (size a + i <=? size a + size b)) with true
      by (symmetry; apply andb_true_iff; lia).
    replace ((0 <=? i) && (i <=? size b)) with true
      by (symmetry; apply andb_true_iff; lia).
    f_equal. rewrite app_nth2 by (unfold size; lia).
    f_equal. unfold size. lia.
  - apply eq_true_iff_eq. rewrite !operator_eq_true. split.
    + by intros ?%app_inv_head.
    + by intros ->.
  - apply key_of_app_no_nul.
  - apply key_of_app_nul.
  - symmetry. apply no_nul_app.
Qed.

Lemma concatenation_appends_witness :
  size (operator_plus (lit "ab") (lit "cd")) = size (lit "ab") + size (lit "cd") ∧
  int_add (size (lit "ab")) (size (lit "cd")) = size (operator_plus (lit "ab") (lit "cd")) ∧
  (∀ i, 0 <= i < size (lit "ab") →
        operator_index (operator_plus (lit "ab") (lit "cd")) i
        = operator_index (lit "ab") i) ∧
  (∀ i, 0 <= i <= size (lit "cd") →
        operator_index (operator_plus (lit "ab") (lit "cd")) (size (lit "ab") + i)
        = operator_index (lit "cd") i) ∧
  operator_eq (operator_plus (lit "ab") (lit "cd")) (operator_plus (lit "ab") (lit "ce"))
    = operator_eq (lit "cd") (lit "ce") ∧
  (no_nul (lit "ab") →
   key_of (operator_plus (lit "ab") (lit "cd")) = lit "ab" ++ key_of (lit "cd")) ∧
  (NUL ∈ lit "ab" → key_of (operator_plus (lit "ab") (lit "cd")) = key_of (lit "ab")) ∧
  (no_nul (lit "ab") ∧ no_nul (lit "cd")
   ↔ no_nul (operator_plus (lit "ab") (lit "cd"))).
Proof.
  apply (concatenation_appends (lit "ab") (lit "cd") (lit "ce")).
  by vm_compute.
Defined.

(** X2. [operator==] returns true exactly when the two strings have the
    same length and the same byte at every index, whatever the bytes are
    (NUL included); so it is reflexive, symmetric and transitive. *)
Theorem equality_compares_all_bytes (a b c : DSString) :
  (operator_eq a b = true ↔
     size a = size b ∧
     ∀ i, 0 <= i < size a → operator_index a i = operator_index b i) ∧
  (operator_eq a b = true ↔ a = b) ∧
  operator_eq a a = true ∧
  operator_eq a b = operator_eq b a ∧
  (operator_eq a b = true → operator_eq b c = true → operator_eq a c = true).
Proof.
  assert (Heq : ∀ x y, operator_eq x y = true ↔ x = y) by apply operator_eq_true.
  split; [|split; [apply Heq|split; [by apply Heq|split]]].
  - rewrite Heq. split; [by intros ->|].
    intros [Hsize Hbytes]. apply (nth_ext _ _ NUL NUL).
    + unfold size in Hsize. lia.
    + intros n Hn. specialize (Hbytes (Z.of_nat n)).
      unfold operator_index, data_at in Hbytes. rewrite <- Hsize in Hbytes.
      unfold size in Hbytes.
      replace ((0 <=? Z.of_nat n) && (Z.of_nat n <=? Z.of_nat (List.length a)))
        with true in Hbytes by (symmetry; apply andb_true_iff; lia).
      rewrite Nat2Z.id in Hbytes.
      assert (Some (nth n a NUL) = Some (nth n b NUL)) as [= ->] by (apply Hbytes; lia).
      done.
  - destruct (operator_eq a b) eqn:Hab, (operator_eq b a) eqn:Hba; try done.
    + apply Heq in Hab. subst. rewrite (proj2 (Heq b b) eq_refl) in Hba. done.
    + apply Heq in Hba. subst. rewrite (proj2 (Heq a a) eq_refl) in Hab. done.
  - rewrite !Heq. by intros -> ->.
Qed.

Lemma stringLength_loop_stops (a b : list ascii) (count : Z) :
  no_nul a → stringLength_loop (a ++ NUL :: b) count = count + size a.
Proof.
  revert count. induction a as [|c a IH]; intros count Ha; simpl.
  - unfold size. simpl. lia.
  - apply Forall_cons in Ha as [Hc Ha].
    destruct (Ascii.eqb_spec c NUL) as [|_]; [done|].
    rewrite IH by done. unfold size. simpl List.length. lia.
Qed.

(** X3. The constructor from a C-string: [nullptr] gives the empty string;
    otherwise the string holds the chars before the first NUL of the
    array, that many, and never a NUL; an array without NUL before its
    terminator is taken whole, so [DSString(s.c_str())] is [s] again for
    every [s] without NUL. *)
Theorem constructor_reads_to_first_NUL :
  DSString_of None = [] ∧
  (∀ str : list ascii,
     no_nul (DSString_of (Some str)) ∧
     size (DSString_of (Some str)) = stringLength (Some str) ∧
     DSString_of (Some str) `prefix_of` str ∧
     DSString_of (c_str (DSString_of (Some str))) = DSString_of (Some str)) ∧
  (∀ a b : list ascii, no_nul a → DSString_of (Some (a ++ NUL :: b)) = a) ∧
  (∀ s : DSString, no_nul s → DSString_of (c_str s) = s).
Proof.
  split; [done|]. split; [|split].
  - intros str. split; [apply DSString_of_no_nul|]. split; [|split].
    + unfold DSString_of, stringCopy, size. simpl.
      destruct (stringLength_loop_spec str 0) as (k & -> & Hle & _).
      rewrite length_take. lia.
    + unfold DSString_of, stringCopy. apply prefix_take.
    + apply DSString_of_id, DSString_of_no_nul.
  - intros a b Ha. unfold DSString_of, stringCopy. simpl.
    rewrite stringLength_loop_stops by done. unfold size.
    rewrite Z.add_0_l, Nat2Z.id. by rewrite take_app_length.
  - intros s Hs. by apply DSString_of_id.
Qed.

(** X4. [stringCompare] is antisymmetric, null pointers included: swapping
    the arguments negates the result.  Hence [a > b] is [b < a], and
    [a < b] and [b < a] never hold together. *)
Theorem stringCompare_swaps_sign (sgn : char_signedness) :
  (∀ p q : cstring, stringCompare sgn q p = - stringCompare sgn p q) ∧
  (∀ a b : DSString, operator_gt sgn a b = operator_lt sgn b a) ∧
  (∀ a b : DSString, operator_lt sgn a b && operator_lt sgn b a = false) ∧
  (∀ a : DSString, stringCompare sgn (c_str a) (c_str a) = 0).
Proof.
  split; [|split; [apply operator_gt_lt|split]].
  - intros [p|] [q|]; simpl; try done. apply stringCompare_loop_opp.
  - intros a b. unfold operator_lt. simpl.
    rewrite (stringCompare_loop_opp sgn a b).
    destruct (Z.ltb_spec (stringCompare_loop sgn a b) 0),
             (Z.ltb_spec (- stringCompare_loop sgn a b) 0); try done. lia.
  - intros a. simpl. by apply stringCompare_loop_zero_key.
Qed.

(** X5. [operator<] is a strict weak order, as [std::map] requires of its
    comparator: irreflexive, transitive, and two strings are unordered
    exactly when their arrays agree up to the first NUL, which is an
    equivalence; for strings without NUL unordered means equal. *)
Theorem operator_lt_strict_weak_order (sgn : char_signedness) :
  (∀ a, operator_lt sgn a a = false) ∧
  (∀ a b c, operator_lt sgn a b = true → operator_lt sgn b c = true →
            operator_lt sgn a c = true) ∧
  (∀ a b, operator_lt sgn a b = false ∧ operator_lt sgn b a = false ↔
          key_of a = key_of b) ∧
  (∀ a b, no_nul a → no_nul b →
          (operator_lt sgn a b = false ∧ operator_lt sgn b a = false ↔ a = b)).
Proof.
  split; [apply operator_lt_irreflexive|].
  split; [apply operator_lt_transitive|].
  split; [apply map_key_equivalence|].
  intros a b Ha Hb. rewrite map_key_equivalence.
  by rewrite !key_of_no_nul.
Qed.

(** X6. While [start + numChars] fits an [int], [substring] returns: the
    empty string when [start] is outside the string or [numChars] is not
    positive, and otherwise the [numChars] bytes from [start], or those
    that are left when the string ends earlier; the result is never longer
    than asked for and holds no NUL when the string holds none. *)
Theorem substring_slices (s : DSString) (start numChars : Z) :
  size s < INT_MAX → int_range start → int_range numChars →
  start + numChars <= INT_MAX →
  ∃ r : DSString,
    substring s start numChars = Returns r ∧
    r = (if decide (0 <= start < size s ∧ 0 < numChars)
         then take (Z.to_nat numChars) (drop (Z.to_nat start) s) else []) ∧
    size r = (if decide (0 <= start < size s ∧ 0 < numChars)
              then Z.min numChars (size s - start) else 0) ∧
    (∀ i, 0 <= i < size r → data_at r i = data_at s (start + i)) ∧
    (no_nul s → no_nul r).
Proof.
  intros Hs Hstart Hn Hsum.
  destruct (decide (0 <= start < size s ∧ 0 < numChars)) as [[Hin Hpos]|Hout].
  - exists (take (Z.to_nat numChars) (drop (Z.to_nat start) s)).
    split; [by apply substring_without_overflow|]. split; [done|].
    assert (Hsize : size (take (Z.to_nat numChars) (drop (Z.to_nat start) s))
                    = Z.min numChars (size s - start)).
    { unfold size in *. rewrite length_take, length_drop. lia. }
    split; [done|]. split.
    + intros i Hi. rewrite Hsize in Hi. unfold data_at. rewrite Hsize.
      replace ((0 <=? i) && (i <=? Z.min numChars (size s - start))) with true
        by (symmetry; apply andb_true_iff; lia).
      replace ((0 <=? start + i) && (start + i <=? size s)) with true
        by (symmetry; apply andb_true_iff; lia).
      f_equal. rewrite !nth_lookup, lookup_take_lt, lookup_drop by lia.
      do 2 f_equal. lia.
    + intros Hnn. unfold no_nul in *.
      apply Forall_take, Forall_drop. done.
  - exists []. split; [apply substring_empty; lia|].
    split; [done|]. split; [done|]. split; [|by constructor].
    intros i Hi. unfold size in Hi. simpl in Hi. lia.
Qed.

Lemma substring_slices_witness :
  ∃ r : DSString,
    substring (lit "hello world") 6 5 = Returns r ∧
    r = lit "world" ∧
    size r = 5 ∧
    (∀ i, 0 <= i < size r → data_at r i = data_at (lit "hello world") (6 + i)) ∧
    (no_nul (lit "hello world") → no_nul r).
Proof.
  apply (substring_slices (lit "hello world") 6 5); vm_compute; intuition discriminate.
Defined.

(** X7. [substring] undoes [operator+]: from a concatenation that is
    shorter than [INT_MAX], the first [a.size()] bytes are [a] and the
    [b.size()] bytes from index [a.size()] are [b]; the whole string is
    its own substring from 0. *)
Theorem substring_splits_concatenation (a b : DSString) :
  size a + size b < INT_MAX →
  substring (operator_plus a b) 0 (size a) = Returns a ∧
  substring (operator_plus a b) (size a) (size b) = Returns b ∧
  substring a 0 (size a) = Returns a.
Proof.
  intros Hsize. rewrite operator_plus_app.
  pose proof (size_nonneg a) as Ha. pose proof (size_nonneg b) as Hb.
  assert (Hwhole : ∀ s : DSString, size s < INT_MAX → substring s 0 (size s) = Returns s).
  { intros s Hs. pose proof (size_nonneg s).
    destruct (decide (size s = 0)) as [H0|H0].
    - rewrite substring_empty by lia. destruct s; [done|].
      unfold size in H0. simpl in H0. lia.
    - rewrite substring_without_overflow by int_bounds.
      f_equal. unfold size. rewrite Nat2Z.id.
      change (Z.to_nat 0) with 0%nat. rewrite drop_0. apply firstn_all. }
  split; [|split; [|apply Hwhole; lia]].
  - destruct (decide (size a = 0)) as [H0|H0].
    + rewrite substring_empty by lia. destruct a; [done|].
      unfold size in H0. simpl in H0. lia.
    + rewrite substring_without_overflow; rewrite ?size_app; try int_bounds.
      f_equal. unfold size. rewrite Nat2Z.id.
      change (Z.to_nat 0) with 0%nat. rewrite drop_0. apply take_app_length.
  - destruct (decide (size b = 0)) as [H0|H0].
    + rewrite substring_empty by lia. destruct b; [done|].
      unfold size in H0. simpl in H0. lia.
    + rewrite substring_without_overflow; rewrite ?size_app; try int_bounds.
      f_equal. unfold size. rewrite !Nat2Z.id. rewrite drop_app_length.
      apply firstn_all.
Qed.

Lemma substring_splits_concatenation_witness :
  substring (operator_plus (lit "hello") (lit " world")) 0 5 = Returns (lit "hello") ∧
  substring (operator_plus (lit "hello") (lit " world")) 5 6 = Returns (lit " world") ∧
  substring (lit "hello") 0 5 = Returns (lit "hello").
Proof.
  apply (substring_splits_concatenation (lit "hello") (lit " world")).
  by vm_compute.
Defined.

Lemma ascii_lower_not_upper (c : ascii) : ¬ is_upper (ascii_lower c).
Proof.
  unfold is_upper, ascii_lower.
  destruct (decide (65 <= byte_code c <= 90)) as [Hup|Hno]; [|done].
  rewrite byte_code_int_to_char, Z.mod_small by lia. lia.
Qed.

Lemma ascii_lower_fixed (c : ascii) : ¬ is_upper c → ascii_lower c = c.
Proof.
  unfold is_upper, ascii_lower. intros Hno. by rewrite decide_False.
Qed.

(** X8. [toLowerCase] keeps the length, maps each byte 'A'..'Z' to the byte
    32 above it and leaves every other byte (digits, punctuation, bytes of
    128 and more, NUL) as it is, whether plain [char] is signed or not; no
    upper-case letter is left, so applying it twice is applying it once,
    and a string without upper-case letters is returned unchanged. *)
Theorem toLowerCase_normalizes (sgn : char_signedness) (s : DSString) :
  size (toLowerCase sgn s) = size s ∧
  (∀ (i : nat) (c : ascii), s !! i = Some c →
     toLowerCase sgn s !! i =
       Some (if decide (is_upper c) then int_to_char (byte_code c + 32) else c)) ∧
  Forall (λ c, ¬ is_upper c) (toLowerCase sgn s) ∧
  toLowerCase sgn (toLowerCase sgn s) = toLowerCase sgn s ∧
  toLowerCase SignedChar s = toLowerCase UnsignedChar s ∧
  (Forall (λ c, ¬ is_upper c) s ↔ toLowerCase sgn s = s) ∧
  (no_nul s ↔ no_nul (toLowerCase sgn s)).
Proof.
  assert (Hfix : ∀ l : list ascii, Forall (λ c, ¬ is_upper c) l → map ascii_lower l = l).
  { induction 1 as [|c l Hc _ IH]; simpl; [done|]. by rewrite IH, ascii_lower_fixed. }
  assert (Hlow : Forall (λ c, ¬ is_upper c) (map ascii_lower s)).
  { apply Forall_map, Forall_forall. intros c _. apply ascii_lower_not_upper. }
  rewrite !toLowerCase_map.
  split; [unfold size; by rewrite length_map|]. split; [|split; [done|split]].
  - intros i c Hi. change (map ascii_lower s) with (ascii_lower <$> s).
    rewrite list_lookup_fmap, Hi. reflexivity.
  - by apply Hfix.
  - split; [done|]. split.
    + split; [apply Hfix|]. intros Heq. by rewrite <- Heq.
    + unfold no_nul. rewrite Forall_map. apply Forall_iff. intros c.
      split; [apply ascii_lower_not_NUL|].
      intros Hc ->. apply Hc. reflexivity.
Qed.

(** ** Tokens and fields *)

Lemma filter_delimiters_none (l : list ascii) :
  Forall is_delimiter_byte l → List.filter (λ c, negb (isDelimiter c)) l = [].
Proof.
  induction 1 as [|c l Hc _ IH]; simpl; [done|].
  apply isDelimiter_byte in Hc. by rewrite Hc.
Qed.

Lemma filter_delimiters_all (l : list ascii) :
  Forall (λ c, ¬ is_delimiter_byte c) l →
  List.filter (λ c, negb (isDelimiter c)) l = l.
Proof.
  induction 1 as [|c l Hc _ IH]; simpl; [done|].
  apply isDelimiter_not_byte in Hc. rewrite Hc. simpl. by rewrite IH.
Qed.

(** The runs of a text, written one after the other, are the text without
    its delimiters. *)
Lemma token_runs_concat (text : list ascii) (tokens : list (list ascii)) :
  token_runs text tokens →
  concat tokens = List.filter (λ c, negb (isDelimiter c)) text.
Proof.
  induction 1 as [text Hall|seps word rest tokens Hs Hw Hn Hr Ht IH]; simpl.
  - by rewrite filter_delimiters_none.
  - rewrite !List.filter_app, filter_delimiters_none, filter_delimiters_all by done.
    simpl. by rewrite IH.
Qed.

Lemma tokenizeTweet_runs (sgn : char_signedness) (text : DSString) :
  no_nul text → token_runs (toLowerCase sgn text) (tokenizeTweet sgn text).
Proof.
  intros Hnn. unfold tokenizeTweet.
  destruct (tokenizeTweet_loop_runs (toLowerCase sgn text) [] DSString_default)
    as (more & Heq & Hruns).
  - by apply toLowerCase_no_nul.
  - constructor.
  - by rewrite Heq.
Qed.

(** Every token of a text without NUL is a non-empty string without NUL,
    delimiter or upper-case letter. *)
Lemma tokenizeTweet_tokens (sgn : char_signedness) (text : DSString) :
  no_nul text →
  Forall (λ t, t ≠ [] ∧ no_nul t ∧
               Forall (λ c, ¬ is_delimiter_byte c ∧ ¬ is_upper c) t)
         (tokenizeTweet sgn text).
Proof.
  intros Hnn. pose proof (tokenizeTweet_runs sgn text Hnn) as Hruns.
  pose proof (token_runs_nonempty _ _ Hruns) as Hne.
  pose proof (token_runs_no_delimiter _ _ Hruns) as Hnd.
  pose proof (token_runs_concat _ _ Hruns) as Hcat.
  rewrite Forall_forall in Hne, Hnd. apply Forall_forall. intros t Ht.
  assert (Hsub : ∀ c, c ∈ t → c ∈ toLowerCase sgn text).
  { intros c Hc.
    assert (c ∈ concat (tokenizeTweet sgn text)) as Hin.
    { apply list_elem_of_In, in_concat. exists t. by rewrite <- !list_elem_of_In. }
    rewrite Hcat in Hin. apply list_elem_of_In, filter_In in Hin as [Hin _].
    by apply list_elem_of_In. }
  split; [by apply Hne|]. split.
  - apply Forall_forall. intros c Hc%Hsub.
    pose proof (toLowerCase_no_nul sgn text Hnn) as Hl.
    unfold no_nul in Hl. rewrite Forall_forall in Hl. by apply Hl.
  - apply Forall_forall. intros c Hc. split.
    + specialize (Hnd t Ht). rewrite Forall_forall in Hnd. by apply Hnd.
    + apply Hsub in Hc. rewrite toLowerCase_map in Hc.
      apply list_elem_of_In, in_map_iff in Hc as (c0 & <- & _).
      apply ascii_lower_not_upper.
Qed.

(** X9. For every text built from a C-string: written one after the other,
    the tokens are the lowercased text without its delimiter bytes, so no
    other byte is lost or added; every token is free of NUL, delimiters
    and upper-case letters; texts that differ only in the case of ASCII
    letters give the same tokens; and the tokens do not depend on whether
    plain [char] is signed. *)
Theorem tokens_cover_the_words (sgn : char_signedness) (raw : std_string) :
  let text := DSString_of (Some raw) in
  concat (tokenizeTweet sgn text) =
    List.filter (λ c, negb (isDelimiter c)) (toLowerCase sgn text) ∧
  Forall (λ t, no_nul t ∧ Forall (λ c, ¬ is_delimiter_byte c ∧ ¬ is_upper c) t)
         (tokenizeTweet sgn text) ∧
  tokenizeTweet sgn (toLowerCase sgn text) = tokenizeTweet sgn text ∧
  (∀ other : std_string,
     toLowerCase sgn (DSString_of (Some other)) = toLowerCase sgn text →
     tokenizeTweet sgn (DSString_of (Some other)) = tokenizeTweet sgn text) ∧
  tokenizeTweet SignedChar text = tokenizeTweet UnsignedChar text.
Proof.
  intros text.
  assert (Hnn : no_nul text) by apply DSString_of_no_nul.
  split; [apply token_runs_concat; by apply tokenizeTweet_runs|].
  split; [|split; [|split]].
  - eapply Forall_impl; [by apply tokenizeTweet_tokens|].
    intros t (_ & Hn & Hc). by split.
  - unfold tokenizeTweet. rewrite !toLowerCase_map.
    assert (Hidem : map ascii_lower (map ascii_lower text) = map ascii_lower text).
    { rewrite map_map. apply map_ext. intros c.
      apply ascii_lower_fixed, ascii_lower_not_upper. }
    by rewrite Hidem.
  - intros other Hsame. unfold tokenizeTweet. by rewrite Hsame.
  - unfold tokenizeTweet. by rewrite !toLowerCase_map.
Qed.

Lemma csv_scan_plain (f : list ascii) (st : csv_state) :
  Forall (λ c, c ≠ quote ∧ (csv_inside st = true ∨ c ≠ comma)) f →
  fold_left csv_step f st =
    {| csv_done := csv_done st; csv_current := csv_current st ++ f;
       csv_inside := csv_inside st |}.
Proof.
  revert st. induction f as [|c f IH]; intros st Hf; simpl.
  - rewrite app_nil_r. by destruct st.
  - apply Forall_cons in Hf as [[Hq Hc] Hf].
    assert (Hstep : csv_step st c =
              {| csv_done := csv_done st; csv_current := csv_current st ++ [c];
                 csv_inside := csv_inside st |}).
    { unfold csv_step. rewrite decide_False by done.
      rewrite decide_False; [done|]. intros [-> Hin]. destruct Hc; congruence. }
    rewrite Hstep, IH by done. simpl. by rewrite <- app_assoc.
Qed.

Lemma csv_scan_quoted (f : list ascii) (acc : list (list ascii)) (cur : list ascii) :
  quote ∉ f →
  fold_left csv_step (quote :: f ++ [quote])
    {| csv_done := acc; csv_current := cur; csv_inside := false |} =
    {| csv_done := acc; csv_current := cur ++ f; csv_inside := false |}.
Proof.
  intros Hq. cbn [fold_left].
  change (csv_step {| csv_done := acc; csv_current := cur; csv_inside := false |} quote)
    with {| csv_done := acc; csv_current := cur; csv_inside := true |}.
  rewrite fold_left_app, (csv_scan_plain f).
  - reflexivity.
  - apply Forall_forall. intros c Hc. split; [|by left].
    intros ->. done.
Qed.

Lemma csv_scan_comma (acc : list (list ascii)) (cur : list ascii) :
  csv_step {| csv_done := acc; csv_current := cur; csv_inside := false |} comma =
    {| csv_done := acc ++ [cur]; csv_current := []; csv_inside := false |}.
Proof. reflexivity. Qed.

Lemma csv_fields_quoted (fields : list (list ascii)) (acc : list (list ascii)) :
  fields ≠ [] → Forall (λ f, quote ∉ f) fields →
  csv_done (fold_left csv_step (quoted_fields fields)
              {| csv_done := acc; csv_current := []; csv_inside := false |}) ++
  [csv_current (fold_left csv_step (quoted_fields fields)
              {| csv_done := acc; csv_current := []; csv_inside := false |})]
  = acc ++ fields.
Proof.
  revert acc. induction fields as [|f rest IH]; intros acc Hne Hq; [done|].
  apply Forall_cons in Hq as [Hf Hrest].
  destruct rest as [|g rest].
  - unfold quoted_fields. cbn [map join_fields]. by rewrite csv_scan_quoted.
  - assert (Hjoin : quoted_fields (f :: g :: rest) =
                    (quote :: f ++ [quote]) ++ comma :: quoted_fields (g :: rest))
      by reflexivity.
    rewrite Hjoin, fold_left_app, csv_scan_quoted by done.
    cbn [fold_left app]. rewrite csv_scan_comma, (IH (acc ++ [f])) by done.
    by rewrite <- app_assoc.
Qed.

Lemma csv_fields_plain (fields : list (list ascii)) (acc : list (list ascii)) :
  fields ≠ [] → Forall (λ f, (quote ∉ f) ∧ (comma ∉ f)) fields →
  csv_done (fold_left csv_step (join_fields fields)
              {| csv_done := acc; csv_current := []; csv_inside := false |}) ++
  [csv_current (fold_left csv_step (join_fields fields)
              {| csv_done := acc; csv_current := []; csv_inside := false |})]
  = acc ++ fields.
Proof.
  assert (Hplain : ∀ f acc, quote ∉ f → comma ∉ f →
            fold_left csv_step f
              {| csv_done := acc; csv_current := []; csv_inside := false |} =
            {| csv_done := acc; csv_current := f; csv_inside := false |}).
  { intros f d Hq Hc. rewrite csv_scan_plain; [done|].
    apply Forall_forall. intros c Hin. split; [by intros ->|right; by intros ->]. }
  revert acc. induction fields as [|f rest IH]; intros acc Hne Hq; [done|].
  apply Forall_cons in Hq as [[Hfq Hfc] Hrest].
  destruct rest as [|g rest].
  - cbn [join_fields]. by rewrite Hplain.
  - assert (Hjoin : join_fields (f :: g :: rest) = f ++ comma :: join_fields (g :: rest))
      by reflexivity.
    rewrite Hjoin, fold_left_app, Hplain by done.
    cbn [fold_left]. rewrite csv_scan_comma, (IH (acc ++ [f])) by done.
    by rewrite <- app_assoc.
Qed.

Lemma join_fields_no_nul (fields : list (list ascii)) :
  Forall no_nul fields → no_nul (join_fields fields).
Proof.
  induction 1 as [|f rest Hf Hrest IH]; [constructor|].
  destruct rest as [|g rest]; [done|]. cbn [join_fields] in *.
  apply Forall_app. split; [done|]. by constructor.
Qed.

(** X10. [parseCSVLine] undoes the quoting of a record: for a non-empty
    list of fields without NUL or double quote, the line made of the
    fields each in double quotes and joined by commas parses back to
    exactly these fields, commas inside the fields included; when no field
    holds a comma the quotes are not needed. *)
Theorem parseCSVLine_inverts_quoting (fields : list DSString) (hasSentiment : bool) :
  fields ≠ [] →
  Forall (λ f, no_nul f ∧ quote ∉ f) fields →
  parseCSVLine (quoted_fields fields) hasSentiment = fields ∧
  (Forall (λ f, comma ∉ f) fields →
   parseCSVLine (join_fields fields) hasSentiment = fields).
Proof.
  intros Hne Hall.
  assert (Hnn : Forall no_nul fields)
    by (eapply Forall_impl; [exact Hall|]; by intros f [? ?]).
  assert (Hq : Forall (λ f, quote ∉ f) fields)
    by (eapply Forall_impl; [exact Hall|]; by intros f [? ?]).
  split.
  - unfold parseCSVLine, DSString_default.
    pose proof (parseCSVLine_loop_scan (quoted_fields fields)
                  {| csv_done := []; csv_current := []; csv_inside := false |}) as Hscan.
    cbn [csv_done csv_current csv_inside] in Hscan. rewrite Hscan.
    + by apply (csv_fields_quoted fields []).
    + unfold quoted_fields. apply join_fields_no_nul, Forall_map.
      eapply Forall_impl; [exact Hnn|]. intros f Hf. simpl.
      constructor; [done|]. apply Forall_app. split; [done|]. by constructor.
  - intros Hc. unfold parseCSVLine, DSString_default.
    pose proof (parseCSVLine_loop_scan (join_fields fields)
                  {| csv_done := []; csv_current := []; csv_inside := false |}) as Hscan.
    cbn [csv_done csv_current csv_inside] in Hscan. rewrite Hscan.
    + apply (csv_fields_plain fields []); [done|].
      apply Forall_forall. intros f Hf.
      rewrite Forall_forall in Hq, Hc. split; auto.
    + by apply join_fields_no_nul.
Qed.

Lemma parseCSVLine_inverts_quoting_witness :
  parseCSVLine (quoted_fields [lit "4"; lit "a, b"; []]) true = [lit "4"; lit "a, b"; []] ∧
  (Forall (λ f, comma ∉ f) [lit "4"; lit "a, b"; []] →
   parseCSVLine (join_fields [lit "4"; lit "a, b"; []]) true = [lit "4"; lit "a, b"; []]).
Proof.
  apply (parseCSVLine_inverts_quoting [lit "4"; lit "a, b"; []] true).
  - discriminate.
  - repeat constructor; try (by repeat constructor);
      intros Hin; repeat (apply elem_of_cons in Hin as [Hin|Hin]; [discriminate|]);
      by apply elem_of_nil in Hin.
Defined.

(** ** The classifier *)

Lemma train_line_short (sgn : char_signedness) (this : SentimentClassifier)
    (line : std_string) :
  training_label line = None → train_line sgn this line = this.
Proof.
  unfold training_label, train_line.
  destruct (decide (6 ≤ List.length (parseCSVLine (DSString_of (Some line)) true))%nat);
    [done|].
  intros _. replace (Z.of_nat _ <? 6) with true by lia. done.
Qed.

Lemma train_line_totals (sgn : char_signedness) (this : SentimentClassifier)
    (line : std_string) (positive : bool) :
  training_label line = Some positive →
  predictions (train_line sgn this line) = predictions this ∧
  totalPositiveTweets (train_line sgn this line) =
    (if positive then int_add (totalPositiveTweets this) 1
     else totalPositiveTweets this) ∧
  totalNegativeTweets (train_line sgn this line) =
    (if positive then totalNegativeTweets this
     else int_add (totalNegativeTweets this) 1).
Proof.
  unfold training_label, train_line.
  destruct (decide (6 ≤ List.length (parseCSVLine (DSString_of (Some line)) true))%nat);
    [|done].
  intros [= <-]. replace (Z.of_nat _ <? 6) with false by lia.
  simpl. rewrite field_nth, first_byte_is_4_decide. done.
Qed.

Lemma train_lines_totals (sgn : char_signedness) (lines : list std_string)
    (this : SentimentClassifier) :
  int_range (totalPositiveTweets this) → int_range (totalNegativeTweets this) →
  predictions (fold_left (train_line sgn) lines this) = predictions this ∧
  totalPositiveTweets (fold_left (train_line sgn) lines this) =
    wrap (totalPositiveTweets this +
          Z.of_nat (List.length (List.filter (λ b, b) (omap training_label lines)))) ∧
  totalNegativeTweets (fold_left (train_line sgn) lines this) =
    wrap (totalNegativeTweets this +
          Z.of_nat (List.length (List.filter negb (omap training_label lines)))).
Proof.
  revert this. induction lines as [|line lines IH]; intros this Hp Hn.
  - cbn. by rewrite !Z.add_0_r, !wrap_id.
  - cbn [fold_left omap list_omap]. destruct (training_label line) as [positive|] eqn:Hl.
    + destruct (train_line_totals sgn this line positive Hl) as (Hpred & Htp & Htn).
      destruct (IH (train_line sgn this line)) as (IHpred & IHp & IHn).
      { rewrite Htp. destruct positive; [apply wrap_range|done]. }
      { rewrite Htn. destruct positive; [done|apply wrap_range]. }
      rewrite IHpred, IHp, IHn, Hpred, Htp, Htn. split; [done|].
      destruct positive; cbn [List.filter negb List.length]; unfold int_add;
        rewrite ?wrap_add_l; split; f_equal; lia.
    + rewrite train_line_short by done. by apply IH.
Qed.

(** X11. [train] returns false and changes nothing when the file cannot be
    opened.  Otherwise it returns true, never touches the prediction
    table, skips the first line and every line with fewer than six fields,
    and adds to [totalPositiveTweets] the number of remaining records
    whose label field starts with ['4'] and to [totalNegativeTweets] the
    number of the others. *)
Theorem train_counts_records (sgn : char_signedness) (this : SentimentClassifier)
    (lines : list std_string) :
  int_range (totalPositiveTweets this) → int_range (totalNegativeTweets this) →
  let labels := omap training_label (tail lines) in
  train sgn this None = (false, this) ∧
  (train sgn this (Some lines)).1 = true ∧
  predictions (train sgn this (Some lines)).2 = predictions this ∧
  totalPositiveTweets (train sgn this (Some lines)).2 =
    wrap (totalPositiveTweets this +
          Z.of_nat (List.length (List.filter (λ b, b) labels))) ∧
  totalNegativeTweets (train sgn this (Some lines)).2 =
    wrap (totalNegativeTweets this +
          Z.of_nat (List.length (List.filter negb labels))) ∧
  (∀ header other, train sgn this (Some (header :: tail lines)) =
                   train sgn this (Some (other :: tail lines))) ∧
  (∀ line, training_label line = None → train_line sgn this line = this).
Proof.
  intros Hp Hn labels. split; [done|]. split; [done|].
  destruct (train_lines_totals sgn (tail lines) this Hp Hn) as (Hpred & Htp & Htn).
  split; [done|]. split; [done|]. split; [done|]. split; [done|].
  intros line. apply train_line_short.
Qed.

Lemma train_counts_records_witness :
  train SignedChar SentimentClassifier_new None = (false, SentimentClassifier_new) ∧
  totalPositiveTweets
    (train SignedChar SentimentClassifier_new
       (Some [lit "4,x,d,q,u,header"; lit "4,id1,d,q,u,good";
              lit "too,short"; lit "0,id2,d,q,u,bad"; lit ",id3,d,q,u,so so"])).2 = 1 ∧
  totalNegativeTweets
    (train SignedChar SentimentClassifier_new
       (Some [lit "4,x,d,q,u,header"; lit "4,id1,d,q,u,good";
              lit "too,short"; lit "0,id2,d,q,u,bad"; lit ",id3,d,q,u,so so"])).2 = 2.
Proof.
  destruct (train_counts_records SignedChar SentimentClassifier_new
              [lit "4,x,d,q,u,header"; lit "4,id1,d,q,u,good";
               lit "too,short"; lit "0,id2,d,q,u,bad"; lit ",id3,d,q,u,so so"])
    as (Hfail & _ & _ & Hp & Hn & _); [by vm_compute|by vm_compute|].
  split; [exact Hfail|]. split; [exact Hp|exact Hn].
Defined.

Lemma train_tokens_normal (sentiment : Z) (tokens : list DSString)
    (counts : gmap (list ascii) (Z * Z)) :
  Forall (λ t, t ≠ [] ∧ no_nul t ∧
               Forall (λ c, ¬ is_delimiter_byte c ∧ ¬ is_upper c) t) tokens →
  vocabulary_normal counts →
  vocabulary_normal (train_tokens sentiment tokens counts).
Proof.
  intros Htokens. revert counts.
  induction Htokens as [|token rest (_ & Hnn & Hchars) _ IH]; intros counts Hv; [done|].
  cbn [train_tokens].
  destruct (Z.leb_spec (size token) 1) as [Hshort|Hlong]; [by apply IH|].
  destruct (default (0, 0) (counts !! key_of token)) as [first second].
  rewrite key_of_no_nul by done.
  destruct (sentiment =? 4); apply IH; intros k v;
    (intros [[<- _]|[_ Hk]]%lookup_insert_Some; [done|by eapply Hv]).
Qed.

Lemma nth_Forall {A} (P : A → Prop) (l : list A) (i : nat) (d : A) :
  Forall P l → P d → P (nth i l d).
Proof.
  intros Hl Hd. revert i. induction Hl as [|x l Hx _ IH]; intros [|i]; simpl; auto.
Qed.

Lemma train_line_normal (sgn : char_signedness) (this : SentimentClassifier)
    (line : std_string) :
  vocabulary_normal (wordSentimentCounts this) →
  vocabulary_normal (wordSentimentCounts (train_line sgn this line)).
Proof.
  intros Hv. unfold train_line.
  destruct (Z.of_nat (List.length (parseCSVLine (DSString_of (Some line)) true)) <? 6);
    [done|].
  simpl. apply train_tokens_normal; [|done].
  apply tokenizeTweet_tokens. rewrite field_nth.
  apply nth_Forall; [apply parseCSVLine_fields_no_nul|constructor].
Qed.

(** X12. Training keeps the word table normal: if every key is a string of
    at least two bytes without NUL, delimiter or upper-case letter, the
    same holds after [train], whatever the file holds; so it holds for
    every model trained from the empty one. *)
Theorem training_keeps_vocabulary_normal (sgn : char_signedness)
    (this : SentimentClassifier) (trainingDataFile : option (list std_string)) :
  vocabulary_normal (wordSentimentCounts this) →
  vocabulary_normal (wordSentimentCounts (train sgn this trainingDataFile).2).
Proof.
  intros Hv. destruct trainingDataFile as [lines|]; [|done]. simpl.
  generalize (tail lines). clear lines. intros lines. revert this Hv.
  induction lines as [|line lines IH]; intros this Hv; [done|].
  cbn [fold_left]. by apply IH, train_line_normal.
Qed.

Lemma training_keeps_vocabulary_normal_witness :
  vocabulary_normal (wordSentimentCounts example_model).
Proof.
  apply (training_keeps_vocabulary_normal SignedChar SentimentClassifier_new
           (Some [lit "label,id,date,query,user,text";
                  lit "4,id1,Mon,q,user,Great";
                  lit "0,id2,Mon,q,user,bad"])).
  intros k v Hk. unfold SentimentClassifier_new in Hk.
  cbn [wordSentimentCounts] in Hk. by rewrite lookup_empty in Hk.
Defined.

Lemma predict_line_prediction (sgn : char_signedness) (this : SentimentClassifier)
    (line : std_string) :
  predict_line sgn this line =
    match prediction_of sgn (wordSentimentCounts this) line with
    | Some written =>
        ({| wordSentimentCounts := wordSentimentCounts this;
            predictions := <[key_of written.2 := written.1]> (predictions this);
            totalPositiveTweets := totalPositiveTweets this;
            totalNegativeTweets := totalNegativeTweets this |},
         Some written)
    | None => (this, None)
    end.
Proof.
  unfold predict_line, prediction_of.
  set (fields := parseCSVLine (DSString_of (Some line)) false).
  destruct (decide (5 ≤ List.length fields)%nat) as [Hlen|Hlen].
  - replace (Z.of_nat (List.length fields) <? 5) with false by lia.
    rewrite !field_nth. unfold calculateSentimentScore.
    rewrite calculateSentimentScore_loop_sum by (by vm_compute).
    rewrite Z.add_0_l. cbn [fst snd].
    set (score := wrap _).
    by destruct (Z.gtb_spec score 0), (decide (0 < score)); try lia.
  - replace (Z.of_nat (List.length fields) <? 5) with true by lia. done.
Qed.

Lemma predict_lines_spec (sgn : char_signedness) (lines : list std_string)
    (this : SentimentClassifier) (outFile : list prediction_line) :
  (predict_lines sgn this lines outFile).2 =
    outFile ++ omap (prediction_of sgn (wordSentimentCounts this)) lines ∧
  wordSentimentCounts (predict_lines sgn this lines outFile).1 = wordSentimentCounts this ∧
  totalPositiveTweets (predict_lines sgn this lines outFile).1 = totalPositiveTweets this ∧
  totalNegativeTweets (predict_lines sgn this lines outFile).1 = totalNegativeTweets this ∧
  predictions (predict_lines sgn this lines outFile).1 =
    fold_left (λ m (written : prediction_line), <[key_of written.2 := written.1]> m)
      (omap (prediction_of sgn (wordSentimentCounts this)) lines) (predictions this).
Proof.
  revert this outFile. induction lines as [|line lines IH]; intros this outFile.
  - cbn. by rewrite app_nil_r.
  - cbn [predict_lines omap list_omap]. rewrite predict_line_prediction.
    destruct (prediction_of sgn (wordSentimentCounts this) line) as [written|].
    + set (this' := {| wordSentimentCounts := wordSentimentCounts this;
                       predictions := <[key_of written.2 := written.1]> (predictions this);
                       totalPositiveTweets := totalPositiveTweets this;
                       totalNegativeTweets := totalNegativeTweets this |}).
      destruct (IH this' (outFile ++ [written])) as (Hout & Hw & Hp & Hn & Hpred).
      rewrite Hout, Hw, Hp, Hn, Hpred. cbn [fold_left]. by rewrite <- app_assoc.
    + by apply IH.
Qed.

Lemma fold_insert_lookup (outs : list prediction_line) (m : gmap (list ascii) Z)
    (k : list ascii) :
  (Forall (λ written, key_of written.2 ≠ k) outs →
   fold_left (λ m (written : prediction_line), <[key_of written.2 := written.1]> m) outs m
     !! k = m !! k) ∧
  (∀ before label tweetID after,
     outs = before ++ (label, tweetID) :: after → key_of tweetID = k →
     Forall (λ written, key_of written.2 ≠ k) after →
     fold_left (λ m (written : prediction_line), <[key_of written.2 := written.1]> m) outs m
       !! k = Some label).
Proof.
  assert (Hnone : ∀ (outs : list prediction_line) (m : gmap (list ascii) Z),
     Forall (λ written : prediction_line, key_of written.2 ≠ k) outs →
     fold_left (λ m (written : prediction_line), <[key_of written.2 := written.1]> m) outs m
       !! k = m !! k).
  { clear. intros outs. induction outs as [|o outs IH]; intros m Hall; [done|].
    apply Forall_cons in Hall as [Ho Hall]. cbn [fold_left].
    rewrite IH by done. by rewrite lookup_insert_ne. }
  split; [apply Hnone|].
  intros before label tweetID after -> Hk Hafter.
  rewrite fold_left_app. cbn [fold_left]. rewrite Hnone by done.
  cbn [fst snd]. rewrite Hk. apply lookup_insert_eq.
Qed.

(** X13. [predict] returns false, changes nothing and writes nothing when
    either file cannot be opened.  Otherwise it skips the header and every
    line with fewer than five fields and writes, in the order of the file,
    one line per remaining record: 4 or 0 and the identifier; it never
    changes the word table or the totals; the prediction table keeps, for
    an identifier written more than once, the label written last, and is
    unchanged for every other key; with an empty word table every label
    written is 0. *)
Theorem predict_writes_one_line_per_record (sgn : char_signedness)
    (this : SentimentClassifier) (lines : list std_string) :
  let outs := omap (prediction_of sgn (wordSentimentCounts this)) (tail lines) in
  let result := predict sgn this (Some lines) true in
  predict sgn this None true = (false, this, []) ∧
  predict sgn this (Some lines) false = (false, this, []) ∧
  result.1.1 = true ∧
  result.2 = outs ∧
  wordSentimentCounts result.1.2 = wordSentimentCounts this ∧
  totalPositiveTweets result.1.2 = totalPositiveTweets this ∧
  totalNegativeTweets result.1.2 = totalNegativeTweets this ∧
  Forall (λ written : prediction_line, written.1 = 0 ∨ written.1 = 4) outs ∧
  (∀ k, Forall (λ written : prediction_line, key_of written.2 ≠ k) outs →
        predictions result.1.2 !! k = predictions this !! k) ∧
  (∀ before label tweetID after,
     outs = before ++ (label, tweetID) :: after →
     Forall (λ written : prediction_line, key_of written.2 ≠ key_of tweetID) after →
     predictions result.1.2 !! key_of tweetID = Some label) ∧
  (wordSentimentCounts this = ∅ →
   Forall (λ written : prediction_line, written.1 = 0) outs).
Proof.
  intros outs result. split; [done|]. split; [done|].
  destruct (predict_lines_spec sgn (tail lines) this []) as (Hout & Hw & Hp & Hn & Hpred).
  assert (Hresult : result = (true, (predict_lines sgn this (tail lines) []).1,
                              (predict_lines sgn this (tail lines) []).2)).
  { unfold result, predict. cbn [negb].
    by destruct (predict_lines sgn this (tail lines) []). }
  rewrite Hresult. cbn [fst snd]. fold outs in Hout, Hpred.
  split; [done|]. split; [done|]. split; [done|]. split; [done|]. split; [done|].
  split; [|split; [|split]].
  - unfold outs. apply Forall_forall. intros written Hin.
    apply list_elem_of_omap in Hin as (line & _ & Hline).
    unfold prediction_of in Hline.
    destruct (decide (5 ≤ _)%nat); [|done]. injection Hline as <-. cbn [fst].
    destruct (decide (0 < _)); auto.
  - intros k Hall. rewrite Hpred. by apply fold_insert_lookup.
  - intros before label tweetID after Houts Hafter. rewrite Hpred.
    by eapply (proj2 (fold_insert_lookup outs (predictions this) (key_of tweetID))).
  - intros Hempty. unfold outs. apply Forall_forall. intros written Hin.
    apply list_elem_of_omap in Hin as (line & _ & Hline).
    unfold prediction_of in Hline.
    destruct (decide (5 ≤ _)%nat); [|done]. injection Hline as <-. cbn [fst].
    assert (Hzero : ∀ tokens, exact_score (wordSentimentCounts this) tokens = 0).
    { intros tokens. rewrite Hempty. unfold exact_score.
      induction tokens as [|t ts IH]; [done|].
      cbn [foldr]. rewrite IH. unfold contribution. by rewrite lookup_empty. }
    by rewrite Hzero.
Qed.

Lemma exact_score_app counts (tokens1 tokens2 : list DSString) :
  exact_score counts (tokens1 ++ tokens2) =
    exact_score counts tokens1 + exact_score counts tokens2.
Proof.
  unfold exact_score. induction tokens1 as [|t ts IH]; simpl; [done|].
  rewrite IH. lia.
Qed.

Lemma exact_score_permutation counts (tokens1 tokens2 : list DSString) :
  tokens1 ≡ₚ tokens2 → exact_score counts tokens1 = exact_score counts tokens2.
Proof.
  unfold exact_score. induction 1; simpl; lia.
Qed.

Lemma calculateSentimentScore_exact (this : SentimentClassifier)
    (tokens : list DSString) :
  calculateSentimentScore this tokens =
    wrap (exact_score (wordSentimentCounts this) tokens).
Proof.
  unfold calculateSentimentScore.
  rewrite calculateSentimentScore_loop_sum by (by vm_compute). done.
Qed.

(** X14. The score is additive and blind to word order: the score of two
    token sequences put together is the int sum of their scores, sequences
    that are permutations of each other score the same, tokens that are
    not keys of the word table can be dropped, and the score of tokens
    none of which is a key is 0. *)
Theorem score_ignores_word_order (this : SentimentClassifier)
    (tokens1 tokens2 : list DSString) :
  calculateSentimentScore this (tokens1 ++ tokens2) =
    int_add (calculateSentimentScore this tokens1)
            (calculateSentimentScore this tokens2) ∧
  (tokens1 ≡ₚ tokens2 →
   calculateSentimentScore this tokens1 = calculateSentimentScore this tokens2) ∧
  calculateSentimentScore this tokens1 =
    calculateSentimentScore this
      (List.filter (λ t, bool_decide (is_Some (wordSentimentCounts this !! key_of t)))
                   tokens1) ∧
  (Forall (λ t, wordSentimentCounts this !! key_of t = None) tokens1 →
   calculateSentimentScore this tokens1 = 0).
Proof.
  rewrite !calculateSentimentScore_exact. split; [|split; [|split]].
  - rewrite exact_score_app. unfold int_add. by rewrite wrap_add_l, wrap_add_r.
  - intros Hperm. by rewrite (exact_score_permutation _ _ _ Hperm).
  - f_equal. induction tokens1 as [|t ts IH]; [done|].
    cbn [List.filter]. unfold exact_score in *. cbn [foldr]. rewrite IH.
    unfold contribution at 1.
    destruct (wordSentimentCounts this !! key_of t) as [[p n]|] eqn:Hk.
    + rewrite bool_decide_eq_true_2 by done. cbn [foldr].
      unfold contribution at 2. by rewrite Hk.
    + rewrite bool_decide_eq_false_2 by (by intros [? ?]). lia.
  - intros Hnone. replace (exact_score (wordSentimentCounts this) tokens1) with 0; [done|].
    induction Hnone as [|t ts Ht _ IH]; [done|].
    unfold exact_score in *. cbn [foldr]. rewrite <- IH.
    unfold contribution. by rewrite Ht.
Qed.

(** ** The label that predict writes and stores *)

Lemma predicted_record_prediction_of (sgn : char_signedness)
    (this : SentimentClassifier) (line : std_string) :
  predicted_record sgn this line = prediction_of sgn (wordSentimentCounts this) line.
Proof.
  unfold predicted_record, prediction_of. by rewrite calculateSentimentScore_exact.
Qed.

Lemma omap_predicted_record (sgn : char_signedness) (this : SentimentClassifier)
    (lines : list std_string) :
  omap (predicted_record sgn this) lines =
    omap (prediction_of sgn (wordSentimentCounts this)) lines.
Proof.
  induction lines as [|line lines IH]; [done|].
  cbn [omap list_omap]. by rewrite predicted_record_prediction_of, IH.
Qed.

Lemma exact_score_replicate counts (n : nat) (token : DSString) :
  exact_score counts (replicate n token) = Z.of_nat n * contribution counts token.
Proof.
  unfold exact_score. induction n as [|n IH]; [done|].
  cbn [replicate foldr]. rewrite IH. lia.
Qed.

(** C1. For every model and every token sequence whose sum fits an int,
    [calculateSentimentScore] returns the sum over the tokens that are
    keys of the word table of positive count minus negative count, tokens
    that are not keys adding 0.  [predict], given a test file and an
    output file that open, writes for every line after the header that has
    at least five fields, in the order of the file, the label and the
    identifier, and stores the label under the identifier, a later record
    with the same identifier replacing it; the label is 4 if the score of
    the tokens of the text field is greater than 0 and 0 otherwise, so a
    score of 0 gives 0. *)
Theorem score_and_label :
  (∀ (this : SentimentClassifier) (tokens : list DSString),
     int_range (exact_score (wordSentimentCounts this) tokens) →
     calculateSentimentScore this tokens =
       exact_score (wordSentimentCounts this) tokens) ∧
  (∀ (sgn : char_signedness) (this : SentimentClassifier) (lines : list std_string),
     let result := predict sgn this (Some lines) true in
     result.1.1 = true ∧
     result.2 = omap (predicted_record sgn this) (tail lines) ∧
     wordSentimentCounts result.1.2 = wordSentimentCounts this ∧
     (∀ (before : list std_string) (line : std_string) (after : list std_string)
        (label : Z) (tweetID : DSString),
        tail lines = before ++ line :: after →
        predicted_record sgn this line = Some (label, tweetID) →
        Forall (λ later, ∀ written : prediction_line,
                  predicted_record sgn this later = Some written →
                  key_of written.2 ≠ key_of tweetID) after →
        predictions result.1.2 !! key_of tweetID = Some label)) ∧
  (∀ (sgn : char_signedness) (this : SentimentClassifier) (line : std_string)
     (label : Z) (tweetID : DSString),
     let fields := parseCSVLine (DSString_of (Some line)) false in
     let score := calculateSentimentScore this (tokenizeTweet sgn (nth 4 fields [])) in
     predicted_record sgn this line = Some (label, tweetID) ↔
     (5 ≤ List.length fields)%nat ∧ tweetID = nth 0 fields [] ∧
     (0 < score → label = 4) ∧ (score <= 0 → label = 0)).
Proof.
  split; [|split].
  - intros this tokens Hr. rewrite calculateSentimentScore_exact. by apply wrap_id.
  - intros sgn this lines result.
    destruct (predict_lines_spec sgn (tail lines) this [])
      as (Hout & Hw & _ & _ & Hpred).
    assert (Hresult : result = (true, (predict_lines sgn this (tail lines) []).1,
                                (predict_lines sgn this (tail lines) []).2)).
    { unfold result, predict. cbn [negb].
      by destruct (predict_lines sgn this (tail lines) []). }
    rewrite Hresult. cbn [fst snd].
    rewrite <- omap_predicted_record in Hout, Hpred.
    split; [done|]. split; [done|]. split; [done|].
    intros before line after label tweetID Hlines Hline Hafter.
    rewrite Hpred, Hlines, omap_app. cbn [omap list_omap]. rewrite Hline.
    eapply (proj2 (fold_insert_lookup _ (predictions this) (key_of tweetID)));
      [reflexivity|done|].
    apply Forall_forall. intros written Hin.
    apply list_elem_of_omap in Hin as (later & Hlater & Hwritten).
    rewrite Forall_forall in Hafter. by apply (Hafter later).
  - intros sgn this line label tweetID fields score. unfold predicted_record.
    fold fields. fold score.
    destruct (decide (5 ≤ List.length fields)%nat) as [Hlen|Hlen].
    + destruct (decide (0 < score)) as [Hs|Hs]; split.
      * intros [= <- <-]. split; [done|]. split; [done|]. split; [done|lia].
      * intros (_ & -> & H4 & _). by rewrite H4.
      * intros [= <- <-]. split; [done|]. split; [done|]. split; [lia|done].
      * intros (_ & -> & _ & H0). by rewrite H0 by lia.
    + split; [done|]. by intros [? _].
Qed.

Lemma score_and_label_witness :
  calculateSentimentScore example_model
    [lit "great"; lit "bad"; lit "great"; lit "unseen"] = 1 ∧
  (predict SignedChar example_model (Some example_test) true).2 =
    [(4, lit "id9"); (0, lit "id8")] ∧
  predictions (predict SignedChar example_model (Some example_test) true).1.2
    !! key_of (lit "id9") = Some 4.
Proof.
  destruct score_and_label as (Hscore & Hpredict & _).
  destruct (Hpredict SignedChar example_model example_test)
    as (_ & Hout & _ & Hstored).
  split; [|split].
  - etrans.
    + apply (Hscore example_model [lit "great"; lit "bad"; lit "great"; lit "unseen"]).
      vm_compute. split; discriminate.
    + vm_compute. reflexivity.
  - etrans; [exact Hout|]. by vm_compute.
  - apply (Hstored [] (lit "id9,Mon,q,user,GREAT!")
             [lit "short"; lit "id8,Mon,q,user,unseen"]).
    + reflexivity.
    + by vm_compute.
    + repeat constructor; intros written Hw; vm_compute in Hw; [done|].
      injection Hw as <-. by vm_compute.
Defined.

(** A sum that does not fit an int: the word [aa] counts 8 and occurs
    2^28 times. *)
Lemma score_overflows (n : nat) :
  Z.of_nat n = 268435456 →
  exact_score (wordSentimentCounts heavy_model) (replicate n (lit "aa")) = 2147483648 ∧
  calculateSentimentScore heavy_model (replicate n (lit "aa")) = -2147483648.
Proof.
  intros Hn.
  assert (Hc : contribution (wordSentimentCounts heavy_model) (lit "aa") = 8)
    by (by vm_compute).
  assert (Hsum : exact_score (wordSentimentCounts heavy_model) (replicate n (lit "aa"))
                 = 2147483648).
  { rewrite exact_score_replicate, Hc, Hn. reflexivity. }
  split; [exact Hsum|].
  rewrite calculateSentimentScore_exact, Hsum. reflexivity.
Qed.

(** C1 as stated fails.  With the count 8 for [aa], the 2^28 tokens [aa]
    of a text of less than 2^30 bytes have the sum 2^31, and the score
    that [calculateSentimentScore] returns is not that sum but -2^31. *)
Lemma score_and_label_counterexample :
  exact_score (wordSentimentCounts heavy_model)
    (replicate (Z.to_nat 268435456) (lit "aa")) = 2147483648 ∧
  calculateSentimentScore heavy_model
    (replicate (Z.to_nat 268435456) (lit "aa")) = -2147483648.
Proof.
  apply score_overflows. apply Z2Nat.id. lia.
Qed.

(** ** The word counts after train *)

Lemma occurrences_zero_sum (a b : Z) : 0 <= a → 0 <= b → a + b = 0 ↔ a = 0 ∧ b = 0.
Proof. lia. Qed.

Lemma label_occurrences_nonneg sgn positive k lines :
  0 <= label_occurrences sgn positive k lines.
Proof.
  induction lines as [|line lines IH]; [done|].
  cbn [label_occurrences foldr]. fold (label_occurrences sgn positive k lines).
  pose proof (occurrences_nonneg k (training_tokens sgn line)).
  destruct (decide _); lia.
Qed.

Lemma training_label_Some (line : std_string) (positive : bool) :
  training_label line = Some positive →
  (6 ≤ List.length (parseCSVLine (DSString_of (Some line)) true))%nat ∧
  positive = bool_decide
               (first_byte (nth 0 (parseCSVLine (DSString_of (Some line)) true) [])
                = "4"%char).
Proof.
  unfold training_label. destruct (decide _); [|done]. by intros [= <-].
Qed.

(** The entry of [k] after the records of [lines], from a classifier
    whose entry of [k] holds ints. *)
Lemma train_lines_counts (sgn : char_signedness) (lines : list std_string)
    (this : SentimentClassifier) (k : list ascii) :
  let old := default (0, 0) (wordSentimentCounts this !! k) in
  let pos := label_occurrences sgn true k lines in
  let neg := label_occurrences sgn false k lines in
  int_range old.1 → int_range old.2 →
  wordSentimentCounts (fold_left (train_line sgn) lines this) !! k =
    if decide (pos + neg = 0) then wordSentimentCounts this !! k
    else Some (wrap (old.1 + pos), wrap (old.2 + neg)).
Proof.
  revert this. induction lines as [|line lines IH]; intros this old pos neg H1 H2.
  - done.
  - cbn [fold_left]. unfold pos, neg. cbn [label_occurrences foldr].
    fold (label_occurrences sgn true k lines).
    fold (label_occurrences sgn false k lines).
    pose proof (label_occurrences_nonneg sgn true k lines) as Hp.
    pose proof (label_occurrences_nonneg sgn false k lines) as Hn.
    pose proof (occurrences_nonneg k (training_tokens sgn line)) as Ho.
    set (pr := label_occurrences sgn true k lines) in *.
    set (nr := label_occurrences sgn false k lines) in *.
    set (occ := occurrences k (training_tokens sgn line)) in *.
    destruct (training_label line) as [positive|] eqn:Hl.
    2:{ rewrite train_line_short by done.
        rewrite (decide_False (P := None = Some true)) by (intros [=]).
        rewrite (decide_False (P := None = Some false)) by (intros [=]).
        rewrite !Z.add_0_l. by apply IH. }
    destruct (training_label_Some line positive Hl) as [Hlen Hpositive].
    pose proof (train_line_lookup sgn this line k Hlen) as Hline.
    cbv zeta in Hline. rewrite <- Hpositive in Hline.
    fold (training_tokens sgn line) in Hline. fold occ in Hline. fold old in Hline.
    set (this1 := train_line sgn this line) in *.
    assert (Hints : int_range (default (0, 0) (wordSentimentCounts this1 !! k)).1 ∧
                    int_range (default (0, 0) (wordSentimentCounts this1 !! k)).2).
    { rewrite Hline. destruct (decide (occ = 0)); [done|].
      destruct positive; cbn [default fst snd]; split; try done; apply wrap_range. }
    destruct Hints as [Hi1 Hi2].
    rewrite (IH this1 Hi1 Hi2). fold pr nr. rewrite Hline.
    destruct positive.
    + rewrite (decide_True (P := Some true = Some true)) by done.
      rewrite (decide_False (P := Some true = Some false)) by (intros [=]).
      rewrite Z.add_0_l.
      destruct (decide (occ = 0)) as [Hocc|Hocc].
      * rewrite Hocc, Z.add_0_l. done.
      * rewrite (decide_False (P := occ + pr + nr = 0)) by lia.
        destruct (decide (pr + nr = 0)) as [Hz|Hz].
        -- replace pr with 0 by lia. replace nr with 0 by lia.
           cbn [fst snd]. by rewrite !Z.add_0_r, (wrap_id old.2).
        -- cbn [default from_option id fst snd]. by rewrite wrap_add_l, Z.add_assoc.
    + rewrite (decide_False (P := Some false = Some true)) by (intros [=]).
      rewrite (decide_True (P := Some false = Some false)) by done.
      rewrite Z.add_0_l.
      destruct (decide (occ = 0)) as [Hocc|Hocc].
      * rewrite Hocc, Z.add_0_l. done.
      * rewrite (decide_False (P := pr + (occ + nr) = 0)) by lia.
        destruct (decide (pr + nr = 0)) as [Hz|Hz].
        -- replace pr with 0 by lia. replace nr with 0 by lia.
           cbn [fst snd]. by rewrite !Z.add_0_r, (wrap_id old.1).
        -- cbn [default from_option id fst snd]. by rewrite wrap_add_l, Z.add_assoc.
Qed.

(** C7. [train], given a file that opens, processes every line after the
    header.  For a record of at least six fields, the word table after the
    file up to and including the record differs from the table before the
    record in this: every token longer than one byte has added one to the
    positive count of its entry when the first byte of the label field is
    ['4'] and to its negative count otherwise (an empty label field
    included); an entry that did not exist starts from (0, 0); nothing
    else changes, so tokens of one byte change nothing; and the lines
    after the record are processed from that table.  Counts are ints.
    Hence, after training the empty classifier on a file, a word has an
    entry exactly when some record counted it, and its two counts are the
    numbers of times the records labelled ['4'] and the other records
    counted it. *)
Theorem train_line_counts (sgn : char_signedness) :
  (∀ (this : SentimentClassifier) (header : std_string)
     (before : list std_string) (line : std_string),
     let fields := parseCSVLine (DSString_of (Some line)) true in
     let positive := bool_decide (first_byte (nth 0 fields []) = "4"%char) in
     let tokens := tokenizeTweet sgn (nth 5 fields []) in
     let earlier :=
       wordSentimentCounts (train sgn this (Some (header :: before))).2 in
     let after :=
       wordSentimentCounts (train sgn this (Some (header :: before ++ [line]))).2 in
     (6 ≤ List.length fields)%nat →
     (∀ k : list ascii,
        let old := default (0, 0) (earlier !! k) in
        after !! k =
          if decide (occurrences k tokens = 0) then earlier !! k
          else Some (if positive
                     then (wrap (old.1 + occurrences k tokens), old.2)
                     else (old.1, wrap (old.2 + occurrences k tokens)))) ∧
     (Forall (λ t, size t <= 1) tokens → after = earlier) ∧
     (nth 0 fields [] = [] → positive = false) ∧
     (∀ rest : list std_string,
        (train sgn this (Some (header :: before ++ line :: rest))).2 =
          (train sgn (train sgn this (Some (header :: before ++ [line]))).2
             (Some (header :: rest))).2)) ∧
  (∀ (lines : list std_string) (k : list ascii),
     let pos := label_occurrences sgn true k (tail lines) in
     let neg := label_occurrences sgn false k (tail lines) in
     (train sgn SentimentClassifier_new (Some lines)).1 = true ∧
     wordSentimentCounts (train sgn SentimentClassifier_new (Some lines)).2 !! k =
       if decide (pos + neg = 0) then None else Some (wrap pos, wrap neg)).
Proof.
  split.
  - intros this header before line fields positive tokens earlier after Hlen.
    assert (Hafter : after = wordSentimentCounts
                               (train_line sgn (train sgn this (Some (header :: before))).2
                                  line)).
    { unfold after, train. cbn [tail snd]. by rewrite fold_left_app. }
    assert (Hk : ∀ k : list ascii,
       after !! k =
         if decide (occurrences k tokens = 0) then earlier !! k
         else Some (if positive
                    then (wrap ((default (0, 0) (earlier !! k)).1
                                + occurrences k tokens),
                          (default (0, 0) (earlier !! k)).2)
                    else ((default (0, 0) (earlier !! k)).1,
                          wrap ((default (0, 0) (earlier !! k)).2
                                + occurrences k tokens)))).
    { intros k. rewrite Hafter. by apply train_line_lookup. }
    split; [exact Hk|]. split; [|split].
    + intros Hshort. apply map_eq. intros k. rewrite Hk.
      rewrite decide_True; [done|].
      unfold occurrences. clear -Hshort.
      induction Hshort as [|t ts Ht _ IH]; simpl; [done|].
      replace (size t >? 1) with false by lia. done.
    + intros Hempty. unfold positive. rewrite Hempty. done.
    + intros rest. unfold train. cbn [tail snd].
      rewrite !fold_left_app. done.
  - intros lines k pos neg. split; [done|].
    unfold train. cbn [snd].
    rewrite (train_lines_counts sgn (tail lines) SentimentClassifier_new k);
      [|by vm_compute|by vm_compute].
    fold pos neg. unfold SentimentClassifier_new. cbn [wordSentimentCounts].
    rewrite lookup_empty. cbn [default fst snd]. by rewrite !Z.add_0_l.
Qed.

Lemma train_line_counts_witness :
  wordSentimentCounts (train SignedChar SentimentClassifier_new (Some example_training)).2
    !! lit "good" = Some (2, 1) ∧
  wordSentimentCounts (train SignedChar SentimentClassifier_new (Some example_training)).2
    !! lit "a" = None ∧
  wordSentimentCounts
    (train SignedChar SentimentClassifier_new
       (Some [lit "label,id,date,query,user,text"; lit "4,id1,Mon,q,user,Good good a"])).2
    !! lit "good" = Some (2, 0).
Proof.
  destruct (train_line_counts SignedChar) as [Hrecord Hfile].
  split; [|split].
  - rewrite (proj2 (Hfile example_training (lit "good"))). by vm_compute.
  - rewrite (proj2 (Hfile example_training (lit "a"))). by vm_compute.
  - destruct (Hrecord SentimentClassifier_new (lit "label,id,date,query,user,text") []
                (lit "4,id1,Mon,q,user,Good good a")) as [Hk _].
    + vm_compute. lia.
    + exact (Hk (lit "good")).
Defined.

Lemma filter_split_length {A} (f : A → bool) (l : list A) :
  List.length l =
    (List.length (List.filter f l) + List.length (List.filter (λ x, negb (f x)) l))%nat.
Proof.
  induction l as [|x l IH]; simpl; [done|].
  destruct (f x); simpl; lia.
Qed.

(** X15. [evaluatePredictions] returns false when either file cannot be
    opened.  Every record it counts carries the label stored in the
    prediction table for its identifier and an actual label of 0 or 4;
    the counted records are the correct ones plus the misclassified ones,
    and each misclassification line shows two different labels.  With
    fewer than 2^31 counted records the warning is given exactly when no
    record was counted, and then the first line is [0.000]; it is also
    [0.000] when no counted record is correct, and [1.000] when records
    were counted and no line follows.  The converse fails by rounding:
    the first line can be [1.000] with lines after it, but only when these
    are at most one in 2000 of the counted records. *)
Theorem evaluation_totals (this : SentimentClassifier) (lines : list std_string) :
  let ms := matched (predictions this) (tail lines) in
  let wrong := List.filter (λ r, negb (is_correct r)) ms in
  Z.of_nat (List.length ms) <= INT_MAX →
  evaluatePredictions this None true = None ∧
  evaluatePredictions this (Some lines) false = None ∧
  List.length ms = (List.length (List.filter is_correct ms) + List.length wrong)%nat ∧
  Forall (λ r : Z * Z * DSString,
            predictions this !! key_of r.2 = Some r.1.1 ∧ (r.1.2 = 0 ∨ r.1.2 = 4)) ms ∧
  Forall (λ r : Z * Z * DSString, r.1.1 ≠ r.1.2) wrong ∧
  ∃ out, evaluatePredictions this (Some lines) true = Some out ∧
         misclassification_lines out = wrong ∧
         (warning out = true ↔ ms = []) ∧
         (ms = [] → accuracy_line out = lit "0.000") ∧
         (List.filter is_correct ms = [] → accuracy_line out = lit "0.000") ∧
         (ms ≠ [] → wrong = [] → accuracy_line out = lit "1.000") ∧
         (accuracy_line out = lit "1.000" →
          ms ≠ [] ∧ (2000 * List.length wrong ≤ List.length ms)%nat).
Proof.
  intros ms wrong Hsmall. split; [done|]. split; [done|].
  pose proof (filter_split_length is_correct ms) as Hsplit. fold wrong in Hsplit.
  split; [done|]. split; [|split].
  - unfold ms, matched. apply Forall_forall. intros r Hin.
    apply list_elem_of_omap in Hin as (line & _ & Hline).
    destruct (truth_record line) as [fields|]; [|done]. simpl in Hline.
    destruct (predictions this !! key_of (record_id fields)) as [predicted|] eqn:Hp;
      [|done].
    injection Hline as <-. cbn [fst snd]. split; [done|].
    unfold record_actual. destruct (decide _); auto.
  - unfold wrong. apply Forall_forall. intros r Hin.
    apply list_elem_of_In, filter_In in Hin as [_ Hr].
    unfold is_correct in Hr. destruct (Z.eqb_spec r.1.1 r.1.2); [done|done].
  - eexists. split.
    + unfold evaluatePredictions. cbn [negb].
      rewrite evaluate_lines_fold by (by vm_compute). reflexivity.
    + unfold evaluate_finish, evaluation_start.
      cbn [accuracy_line misclassification_lines warning correctPredictions
           totalPredictions misclassifications]. fold ms. fold wrong.
      rewrite !Z.add_0_l, app_nil_l.
      rewrite (wrap_id (Z.of_nat (List.length ms))) by int_bounds.
      rewrite (wrap_id (Z.of_nat (List.length (List.filter is_correct ms))))
        by int_bounds.
      split; [done|].
      destruct ms as [|m ms'] eqn:Hms.
      * cbn. split; [done|]. split; [done|]. split; [done|]. split; [done|].
        intros [=].
      * rewrite <- Hms in *.
        assert (Hpos : 0 < Z.of_nat (List.length ms)) by (rewrite Hms; simpl; lia).
        replace (Z.of_nat (List.length ms) >? 0) with true by lia.
        destruct (written_accuracy (Z.of_nat (List.length (List.filter is_correct ms)))
                    (Z.of_nat (List.length ms)))
          as (Htext & Hrange & Hnear & Hexact); [lia|lia|].
        rewrite Htext.
        split; [|split; [|split; [|split]]].
        -- cbn [negb]. split; [done|]. rewrite Hms. done.
        -- rewrite Hms. done.
        -- intros Hnone. rewrite Hnone in Hexact |- *. cbn [List.length] in Hexact |- *.
           by rewrite (Hexact 0) by lia.
        -- intros _ Hw. rewrite Hw in Hsplit. cbn [List.length] in Hsplit.
           rewrite (Hexact 1000) by lia. done.
        -- intros Hone. apply three_decimals_one in Hone; [|done].
           rewrite Hone in Hnear. split; [by rewrite Hms|]. lia.
Qed.

Lemma evaluation_totals_witness :
  ∃ out, evaluatePredictions example_predicted (Some example_truth) true = Some out ∧
         misclassification_lines out = [(0, 4, lit "id2")] ∧
         (warning out = true ↔
          matched (predictions example_predicted) (tail example_truth) = []) ∧
         (matched (predictions example_predicted) (tail example_truth) = [] →
          accuracy_line out = lit "0.000") ∧
         (List.filter is_correct
            (matched (predictions example_predicted) (tail example_truth)) = [] →
          accuracy_line out = lit "0.000") ∧
         (matched (predictions example_predicted) (tail example_truth) ≠ [] →
          [(0, 4, lit "id2")] = [] → accuracy_line out = lit "1.000") ∧
         (accuracy_line out = lit "1.000" →
          matched (predictions example_predicted) (tail example_truth) ≠ [] ∧
          (2000 * 1 ≤ 3)%nat).
Proof.
  destruct (evaluation_totals example_predicted example_truth)
    as (_ & _ & _ & _ & _ & H).
  - by vm_compute.
  - exact H.
Defined.

(** X16. [main] exits with 1 without reading any file when it is not given
    exactly five arguments; it stops with 1 at the first stage whose file
    cannot be opened and runs no later stage; it exits with 0 exactly when
    there are five arguments and all five files open, and then the
    predictions come from the classifier trained on the training file and
    the accuracy from those predictions. *)
Theorem main_stops_at_first_failure (sgn : char_signedness) (argc : Z)
    (trainingFile testFile testSentimentFile : option (list std_string))
    (resultsOpens accuracyOpens : bool) :
  let r := main sgn argc trainingFile testFile testSentimentFile
             resultsOpens accuracyOpens in
  (exit_status r = 0 ∨ exit_status r = 1) ∧
  (exit_status r = 0 ↔
     argc = 6 ∧ is_Some trainingFile ∧ is_Some testFile ∧ resultsOpens = true ∧
     is_Some testSentimentFile ∧ accuracyOpens = true) ∧
  (is_Some (results_file r) ↔
     argc = 6 ∧ is_Some trainingFile ∧ is_Some testFile ∧ resultsOpens = true) ∧
  (is_Some (accuracy_file r) ↔ exit_status r = 0) ∧
  (exit_status r = 0 →
   let trained := (train sgn SentimentClassifier_new trainingFile).2 in
   let predicted := predict sgn trained testFile resultsOpens in
   results_file r = Some predicted.2 ∧
   accuracy_file r = evaluatePredictions predicted.1.2 testSentimentFile accuracyOpens).
Proof.
  intros r. unfold r, main.
  destruct (Z.eqb_spec argc 6) as [->|Hargc]; cbn [negb].
  2:{ cbn. repeat split; try tauto; try (by right); try (by intros [? ?]);
        try (intros [? _]; congruence); try done. }
  destruct trainingFile as [training|]; cbn [train negb].
  2:{ cbn. repeat split; try tauto; try (by right); try (by intros [? ?]);
        try (intros (_ & [? ?] & _); done); try done. }
  destruct testFile as [test|]; cbn [predict negb].
  2:{ cbn. repeat split; try tauto; try (by right); try (by intros [? ?]);
        try (intros (_ & _ & [? ?] & _); done); try done. }
  destruct resultsOpens; cbn [negb].
  2:{ cbn. repeat split; try tauto; try (by right); try (by intros [? ?]);
        try (intros (_ & _ & _ & ? & _); done);
        try (intros (_ & _ & _ & ?); done); try done. }
  destruct (predict_lines sgn _ (tail test) []) as [classifier outFile] eqn:Hpredict.
  cbn [negb fst snd].
  destruct testSentimentFile as [truth|]; cbn [evaluatePredictions].
  2:{ cbn. repeat split; try tauto; try (by right); try (by intros [? ?]); try done;
        try (intros (_ & _ & _ & _ & [? ?] & _); done); eauto. }
  destruct accuracyOpens; cbn [negb].
  2:{ cbn. repeat split; try tauto; try (by right); try (by intros [? ?]); try done;
        try (intros (_ & _ & _ & _ & _ & ?); done); eauto. }
  cbn. repeat split; eauto.
Qed.

(** ** Members on objects and arrays *)

Lemma fill_loop_spec (convert : ascii → ascii) (h : gmap positive (list ascii))
    (dst src : positive) (darr sarr : list ascii) (to from i n : nat) :
  dst ≠ src →
  h !! dst = Some darr → h !! src = Some sarr →
  (to + i + n ≤ List.length darr)%nat → (from + i + n ≤ List.length sarr)%nat →
  ∃ darr',
    Members.fill_loop convert h (Some dst) (Some src)
      (Z.of_nat to) (Z.of_nat from) (Z.of_nat i) n = Some (<[dst := darr']> h) ∧
    List.length darr' = List.length darr ∧
    ∀ j, darr' !! j =
           if decide (to + i ≤ j < to + i + n)%nat
           then convert <$> sarr !! (j - to + from)%nat else darr !! j.
Proof.
  intros Hne. revert h darr i.
  induction n as [|n IH]; intros h darr i Hd Hs Hld Hls;
    cbn [Members.fill_loop].
  - exists darr. split; [by rewrite insert_id|]. split; [done|].
    intros j. rewrite decide_False by lia. done.
  - assert (is_Some (sarr !! (from + i)%nat)) as [c Hc]
      by (apply lookup_lt_is_Some_2; lia).
    replace (Z.of_nat from + Z.of_nat i) with (Z.of_nat (from + i)) by lia.
    replace (Z.of_nat to + Z.of_nat i) with (Z.of_nat (to + i)) by lia.
    rewrite (array_read_Some h src sarr (from + i) c) by done.
    cbn [mbind option_bind].
    rewrite (array_write_Some h dst darr (to + i) (convert c)) by (done || lia).
    cbn [mbind option_bind].
    replace (Z.of_nat i + 1) with (Z.of_nat (S i)) by lia.
    destruct (IH (<[dst := <[(to + i)%nat := convert c]> darr]> h)
                (<[(to + i)%nat := convert c]> darr) (S i))
      as (darr' & Hloop & Hlen & Hlook).
    + apply lookup_insert_eq.
    + by rewrite lookup_insert_ne.
    + rewrite length_insert. lia.
    + lia.
    + exists darr'. split; [by rewrite Hloop, insert_insert_eq|].
      split; [by rewrite Hlen, length_insert|].
      intros j. rewrite Hlook.
      destruct (decide (to + S i ≤ j < to + S i + n)%nat),
               (decide (to + i ≤ j < to + i + S n)%nat); try done; try lia.
      * assert (j = (to + i)%nat) as -> by lia.
        rewrite list_lookup_insert_eq by lia.
        replace (to + i - to + from)%nat with (from + i)%nat by lia.
        by rewrite Hc.
      * rewrite list_lookup_insert_ne by lia. done.
Qed.

(** [stringCopy] into an array that is long enough: the first [len] chars
    of the source, then the terminator, the rest as it was. *)
Lemma stringCopy_spec (h : gmap positive (list ascii)) (dst src : positive)
    (darr sarr : list ascii) (len : nat) :
  dst ≠ src →
  h !! dst = Some darr → h !! src = Some sarr →
  (len < List.length darr)%nat → (len ≤ List.length sarr)%nat →
  ∃ darr',
    Store.stringCopy h (Some dst) (Some src) (Z.of_nat len) = Some (<[dst := darr']> h) ∧
    List.length darr' = List.length darr ∧
    ∀ j, darr' !! j =
           if decide (j < len)%nat then sarr !! j
           else if decide (j = len) then Some NUL else darr !! j.
Proof.
  intros Hne Hd Hs Hld Hls. unfold Store.stringCopy. rewrite Nat2Z.id.
  destruct (stringCopy_loop_spec h dst src darr sarr 0 len)
    as (darr' & Hloop & Hlen & Hlook); try done; try lia.
  change (Z.of_nat 0) with 0 in Hloop. rewrite Hloop. cbn [mbind option_bind].
  rewrite (array_write_Some _ dst darr') by (by rewrite ?lookup_insert_eq || lia).
  rewrite insert_insert_eq.
  exists (<[len := NUL]> darr'). split; [done|]. split; [by rewrite length_insert|].
  intros j. destruct (decide (j = len)) as [->|Hj].
  - rewrite list_lookup_insert_eq by lia. rewrite decide_False by lia. done.
  - rewrite list_lookup_insert_ne by done. rewrite Hlook.
    destruct (decide (0 ≤ j < 0 + len)%nat), (decide (j < len)%nat); try done; lia.
Qed.

Section Members.

Variable fresh_address : gmap positive (list ascii) → positive.
Variable indeterminate : ascii.
Hypothesis fresh_address_unused : ∀ h, h !! fresh_address h = None.

Lemma default_constructor_result (σ : Store.store) (this : Store.name) :
  Members.default_constructor fresh_address indeterminate σ this =
    Some {| Store.arrays := <[fresh_address (Store.arrays σ) := [NUL]]> (Store.arrays σ);
            Store.objects :=
              <[this := {| Store.data := Some (fresh_address (Store.arrays σ));
                           Store.length := 0 |}]> (Store.objects σ) |}.
Proof.
  unfold Members.default_constructor, Store.new_char_array.
  change 0 with (Z.of_nat 0).
  rewrite (array_write_Some _ _ [indeterminate]);
    [|apply lookup_insert_eq|simpl; lia].
  cbn [mbind option_bind]. by rewrite insert_insert_eq.
Qed.

(** Adopting an array costs no array and leaves none behind. *)
Lemma adopt_result (σ : Store.store) (result : Store.name) (newData : positive)
    (newLength : Z) :
  Members.adopt fresh_address indeterminate σ result newData newLength =
    Some {| Store.arrays := Store.arrays σ;
            Store.objects :=
              <[result := {| Store.data := Some newData; Store.length := newLength |}]>
                (Store.objects σ) |}.
Proof using fresh_address_unused.
  unfold Members.adopt. rewrite default_constructor_result.
  cbn [mbind option_bind Store.objects Store.arrays].
  rewrite lookup_insert_eq. cbn [mbind option_bind Store.data].
  unfold Store.delete_array. rewrite lookup_insert_eq. cbn [mbind option_bind].
  rewrite delete_insert_eq, insert_insert_eq.
  by rewrite delete_id by apply fresh_address_unused.
Qed.

End Members.

(** A new object with an array of its own: the invariant holds, the new
    object holds the chars before the terminator, every other object
    holds what it held, and the store has one array more. *)
Lemma installed_object (σ : Store.store) (this : Store.name) (a : positive)
    (arr : list ascii) (len : Z) :
  Store.well_formed σ →
  Store.objects σ !! this = None →
  Store.arrays σ !! a = None →
  0 <= len → Z.of_nat (List.length arr) = len + 1 →
  arr !! Z.to_nat len = Some NUL →
  let σ' := {| Store.arrays := <[a := arr]> (Store.arrays σ);
               Store.objects :=
                 <[this := {| Store.data := Some a; Store.length := len |}]>
                   (Store.objects σ) |} in
  Store.well_formed σ' ∧
  Store.value σ' this = Some (take (Z.to_nat len) arr) ∧
  others_unchanged σ σ' this ∧
  base.size (Store.arrays σ') = S (base.size (Store.arrays σ)).
Proof.
  intros [Hown Huniq] Hnew Hfresh Hlen0 Hlen Hnul σ'.
  assert (Hother : ∀ n o, n ≠ this → Store.objects σ !! n = Some o →
            ∃ a' arr', Store.data o = Some a' ∧ a' ≠ a ∧
                       Store.arrays σ !! a' = Some arr' ∧
                       Store.arrays σ' !! a' = Some arr' ∧
                       0 <= Store.length o ∧
                       Z.of_nat (List.length arr') = Store.length o + 1 ∧
                       arr' !! Z.to_nat (Store.length o) = Some NUL).
  { intros n o Hn Ho. destruct (Hown n o Ho) as (a' & arr' & Ha' & Harr' & ? & ? & ?).
    assert (a' ≠ a) by (intros ->; congruence).
    exists a', arr'. repeat split; try done.
    unfold σ'. simpl. by rewrite lookup_insert_ne. }
  split; [split|split; [|split]].
  - intros n o Hn. unfold σ' in Hn. simpl in Hn.
    apply lookup_insert_Some in Hn as [[<- <-]|[Hne Hn]].
    + exists a, arr. simpl. by rewrite lookup_insert_eq.
    + destruct (Hother n o) as (a' & arr' & ? & ? & ? & ? & ? & ? & ?); [done|done|].
      by exists a', arr'.
  - intros n1 n2 o1 o2 H1 H2 Hd. unfold σ' in H1, H2. simpl in H1, H2.
    apply lookup_insert_Some in H1 as [[<- <-]|[Hne1 H1]];
      apply lookup_insert_Some in H2 as [[<- <-]|[Hne2 H2]]; try done.
    + destruct (Hother n2 o2) as (a' & arr' & Ha' & Hne & _); [done|done|].
      simpl in Hd. congruence.
    + destruct (Hother n1 o1) as (a' & arr' & Ha' & Hne & _); [done|done|].
      simpl in Hd. congruence.
    + by eapply Huniq.
  - apply (store_value_eq σ' this {| Store.data := Some a; Store.length := len |} a arr);
      try done.
    + apply lookup_insert_eq.
    + apply lookup_insert_eq.
    + simpl. lia.
  - intros n Hn.
    assert (Hobj : Store.objects σ' !! n = Store.objects σ !! n)
      by (unfold σ'; simpl; by rewrite lookup_insert_ne).
    unfold Store.value. rewrite Hobj.
    destruct (Store.objects σ !! n) as [o|] eqn:Ho; [|done].
    destruct (Hother n o Hn Ho) as (a' & arr' & Ha' & _ & Harr & Harr' & _).
    cbn [mbind option_bind]. rewrite Ha'. cbn [mbind option_bind].
    by rewrite Harr, Harr'.
  - unfold σ'. simpl. by rewrite map_size_insert_None.
Qed.

Lemma array_of_prefix (darr sarr : list ascii) (len : nat) :
  List.length darr = S len → (len ≤ List.length sarr)%nat →
  (∀ j, darr !! j =
          if decide (j < len)%nat then sarr !! j
          else if decide (j = len) then Some NUL else None) →
  darr = take len sarr ++ [NUL].
Proof.
  intros Hlen Hs Hlook. apply list_eq. intros j. rewrite Hlook.
  destruct (decide (j < len)%nat) as [Hj|Hj].
  - rewrite lookup_app_l by (rewrite length_take; lia).
    by rewrite lookup_take_lt.
  - rewrite lookup_app_r by (rewrite length_take; lia).
    rewrite length_take. replace (len `min` List.length sarr)%nat with len by lia.
    destruct (decide (j = len)) as [->|Hne].
    + by rewrite Nat.sub_diag.
    + symmetry. apply lookup_ge_None_2. simpl. lia.
Qed.

Lemma members_stringLength_loop_spec (arr : list ascii) (count n : Z) :
  Members.stringLength_loop arr count = Some n →
  stringLength_loop arr count = n ∧ count <= n ∧
  (Z.to_nat (n - count) < List.length arr)%nat.
Proof.
  revert count. induction arr as [|c arr IH]; intros count; simpl; [done|].
  destruct (Ascii.eqb c NUL).
  - intros [= <-]. split; [done|]. split; [lia|].
    rewrite Z.sub_diag. simpl. lia.
  - intros H. destruct (IH _ H) as (Heq & Hle & Hlt). split; [done|]. split; [lia|].
    replace (Z.to_nat (n - count)) with (S (Z.to_nat (n - (count + 1)))) by lia.
    lia.
Qed.

Lemma members_stringLength_loop_total (arr : list ascii) (count : Z) :
  NUL ∈ arr → is_Some (Members.stringLength_loop arr count).
Proof.
  revert count. induction arr as [|c arr IH]; intros count Hin; simpl.
  - by apply elem_of_nil in Hin.
  - destruct (Ascii.eqb_spec c NUL) as [->|Hc]; [by eexists|].
    apply IH. apply elem_of_cons in Hin as [Heq|Hin]; [congruence|done].
Qed.

Section Construction.

Variable fresh_address : gmap positive (list ascii) → positive.
Variable indeterminate : ascii.
Hypothesis fresh_address_unused : ∀ h, h !! fresh_address h = None.

(** X17. The default constructor returns in every well-formed store: the
    new string is empty and owns a new array of one char, every other
    string is as it was; and destroying the new string gives back exactly
    the store from before, array for array. *)
Theorem construct_and_destroy (σ : Store.store) (this : Store.name) :
  Store.well_formed σ →
  Store.objects σ !! this = None →
  ∃ σ', Members.default_constructor fresh_address indeterminate σ this = Some σ' ∧
        Store.well_formed σ' ∧
        Store.value σ' this = Some [] ∧
        others_unchanged σ σ' this ∧
        base.size (Store.arrays σ') = S (base.size (Store.arrays σ)) ∧
        Members.destructor σ' this = Some σ.
Proof using fresh_address_unused.
  intros Hwf Hnew. eexists. split; [apply default_constructor_result|].
  destruct (installed_object σ this (fresh_address (Store.arrays σ)) [NUL] 0)
    as (Hwf' & Hval & Hothers & Hsize); try done.
  split; [done|]. split; [done|]. split; [done|]. split; [done|].
  unfold Members.destructor. cbn [Store.objects Store.arrays].
  rewrite lookup_insert_eq. cbn [mbind option_bind Store.data].
  unfold Store.delete_array. rewrite lookup_insert_eq. cbn [mbind option_bind].
  rewrite !delete_insert_eq, !delete_id by done. by destruct σ.
Qed.

(** X18. The constructor from a C-string returns whenever the array it is
    given holds a NUL: the new string holds the chars before the first NUL
    in an array of its own, the given array and every other string are as
    they were.  Given [nullptr] it builds the empty string. *)
Theorem cstring_constructor_copies (σ : Store.store) (this : Store.name)
    (str : positive) (arr : list ascii) :
  Store.well_formed σ →
  Store.objects σ !! this = None →
  Store.arrays σ !! str = Some arr →
  NUL ∈ arr →
  (∃ σ', Members.cstring_constructor fresh_address indeterminate σ this (Some str)
           = Some σ' ∧
         Store.well_formed σ' ∧
         Store.value σ' this = Some (DSString_of (Some arr)) ∧
         others_unchanged σ σ' this ∧
         Store.arrays σ' !! str = Some arr ∧
         base.size (Store.arrays σ') = S (base.size (Store.arrays σ))) ∧
  (∃ σ', Members.cstring_constructor fresh_address indeterminate σ this None = Some σ' ∧
         Store.well_formed σ' ∧ Store.value σ' this = Some []).
Proof using fresh_address_unused.
  intros Hwf Hnew Harr Hnul. split.
  - destruct (members_stringLength_loop_total arr 0 Hnul) as [n Hn].
    destruct (members_stringLength_loop_spec arr 0 n Hn) as (Hvalue & Hn0 & Hlt).
    rewrite Z.sub_0_r in Hlt.
    set (a := fresh_address (Store.arrays σ)).
    assert (Hfresh : Store.arrays σ !! a = None) by apply fresh_address_unused.
    assert (Hne : a ≠ str) by (intros Heq; congruence).
    destruct (stringCopy_spec
                (<[a := replicate (Z.to_nat (n + 1)) indeterminate]> (Store.arrays σ))
                a str (replicate (Z.to_nat (n + 1)) indeterminate) arr (Z.to_nat n))
      as (darr & Hcopy & Hlen & Hlook); try done.
    { apply lookup_insert_eq. }
    { by rewrite lookup_insert_ne. }
    { rewrite length_replicate. lia. }
    { lia. }
    rewrite Z2Nat.id, insert_insert_eq in Hcopy by lia.
    rewrite length_replicate in Hlen.
    assert (Hdarr : darr = take (Z.to_nat n) arr ++ [NUL]).
    { apply array_of_prefix; [lia|lia|]. intros j. rewrite Hlook.
      destruct (decide (j < Z.to_nat n)%nat); [done|].
      destruct (decide (j = Z.to_nat n)); [done|].
      apply lookup_ge_None_2. rewrite length_replicate. lia. }
    exists {| Store.arrays := <[a := darr]> (Store.arrays σ);
              Store.objects :=
                <[this := {| Store.data := Some a; Store.length := n |}]>
                  (Store.objects σ) |}.
    split.
    { unfold Members.cstring_constructor, Members.stringLength.
      rewrite Harr. cbn [mbind option_bind]. rewrite Hn. cbn [mbind option_bind].
      unfold Store.new_char_array. fold a. by rewrite Hcopy. }
    destruct (installed_object σ this a darr n) as (Hwf' & Hval & Hothers & Hsize);
      try done.
    { rewrite Hdarr, length_app, length_take. simpl. lia. }
    { rewrite Hdarr, lookup_app_r by (rewrite length_take; lia).
      rewrite length_take.
      by replace (Z.to_nat n - Z.to_nat n `min` List.length arr)%nat with 0%nat by lia. }
    split; [done|]. split.
    { rewrite Hval, Hdarr. f_equal.
      rewrite take_app_le by (rewrite length_take; lia).
      rewrite take_take, Nat.min_id.
      unfold DSString_of, stringCopy, stringLength. by rewrite Hvalue. }
    split; [done|]. split; [|done].
    simpl. by rewrite lookup_insert_ne.
  - eexists. split; [apply default_constructor_result|].
    destruct (installed_object σ this (fresh_address (Store.arrays σ)) [NUL] 0)
      as (Hwf' & Hval & _); try done.
Qed.

End Construction.

Lemma value_of_owned (σ : Store.store) (n : Store.name) (v : DSString) :
  Store.well_formed σ → Store.value σ n = Some v →
  ∃ (o : Store.object) (a : positive) (arr : list ascii) (len : nat),
    Store.objects σ !! n = Some o ∧ Store.data o = Some a ∧
    Store.arrays σ !! a = Some arr ∧ Store.length o = Z.of_nat len ∧
    List.length arr = S len ∧ arr !! len = Some NUL ∧ v = take len arr.
Proof.
  intros [Hown _] Hv. unfold Store.value in Hv.
  destruct (Store.objects σ !! n) as [o|] eqn:Ho; [|done].
  destruct (Hown n o Ho) as (a & arr & Ha & Harr & Hlen0 & Hlen & Hnul).
  simpl in Hv. rewrite Ha in Hv. simpl in Hv. rewrite Harr in Hv. simpl in Hv.
  destruct ((0 <=? Store.length o) && (Store.length o <? Z.of_nat (List.length arr)));
    [|done].
  injection Hv as <-.
  exists o, a, arr, (Z.to_nat (Store.length o)).
  repeat split; try done; lia.
Qed.

Section Builders.

Variable fresh_address : gmap positive (list ascii) → positive.
Variable indeterminate : ascii.
Hypothesis fresh_address_unused : ∀ h, h !! fresh_address h = None.


(** X20. [toLowerCase] on objects returns in every well-formed store: the
    result is a new string holding the lowercased bytes, as [toLowerCase]
    on the value says, in an array of its own; the string it is called on
    and every other string are as they were, and the store has exactly
    one array more. *)
Theorem toLowerCase_builds_new_string (sgn : char_signedness) (σ : Store.store)
    (result this : Store.name) (a : DSString) :
  Store.well_formed σ →
  Store.objects σ !! result = None →
  Store.value σ this = Some a →
  ∃ σ', Members.toLowerCase fresh_address indeterminate sgn σ result this = Some σ' ∧
        Store.well_formed σ' ∧
        Store.value σ' result = Some (toLowerCase sgn a) ∧
        others_unchanged σ σ' result ∧
        base.size (Store.arrays σ') = S (base.size (Store.arrays σ)).
Proof using fresh_address_unused.
  intros Hwf Hnew Ha.
  destruct (value_of_owned σ this a Hwf Ha)
    as (t & ta & tarr & la & Ht & Hta & Htarr & Hla & Hlt & Htnul & ->).
  set (nd := fresh_address (Store.arrays σ)).
  assert (Hfresh : Store.arrays σ !! nd = None) by apply fresh_address_unused.
  assert (Hnt : nd ≠ ta) by (intros Heq; congruence).
  set (raw := replicate (Z.to_nat (Store.length t + 1)) indeterminate).
  assert (Hraw : List.length raw = S la).
  { unfold raw. rewrite length_replicate. lia. }
  destruct (fill_loop_spec (lower_char sgn) (<[nd := raw]> (Store.arrays σ)) nd ta
              raw tarr 0 0 0 la)
    as (d1 & Hfill & Hlen1 & Hlook1); try done; try lia.
  { apply lookup_insert_eq. }
  { by rewrite lookup_insert_ne. }
  rewrite insert_insert_eq in Hfill.
  set (d2 := <[la := NUL]> d1).
  exists {| Store.arrays := <[nd := d2]> (Store.arrays σ);
            Store.objects :=
              <[result := {| Store.data := Some nd; Store.length := Store.length t |}]>
                (Store.objects σ) |}.
  split.
  { unfold Members.toLowerCase. rewrite Ht. cbn [mbind option_bind].
    unfold Store.new_char_array. fold nd. fold raw.
    rewrite Hta, Hla, Nat2Z.id. change 0 with (Z.of_nat 0). rewrite Hfill.
    cbn [mbind option_bind].
    rewrite (array_write_Some _ nd d1) by (by rewrite ?lookup_insert_eq || lia).
    cbn [mbind option_bind]. rewrite insert_insert_eq.
    by rewrite adopt_result. }
  destruct (installed_object σ result nd d2 (Store.length t))
    as (Hwf' & Hval & Hothers & Hsize); try done; try lia.
  { unfold d2. rewrite length_insert. lia. }
  { unfold d2. rewrite Hla, Nat2Z.id. apply list_lookup_insert_eq. lia. }
  split; [done|]. split; [|done].
  rewrite Hval. f_equal. rewrite Hla, Nat2Z.id. unfold toLowerCase.
  apply list_eq. intros j.
  change (map (lower_char sgn) (take la tarr)) with (lower_char sgn <$> take la tarr).
  rewrite list_lookup_fmap.
  destruct (decide (j < la)%nat) as [Hj|Hj].
  - rewrite !lookup_take_lt by done. unfold d2.
    rewrite list_lookup_insert_ne by lia. rewrite Hlook1.
    rewrite decide_True by lia. by replace (j - 0 + 0)%nat with j by lia.
  - by rewrite !lookup_take_ge by lia.
Qed.

End Builders.

(** A store in which one array has been rewritten without a change of its
    size or of its terminator. *)
Lemma rewritten_array (σ : Store.store) (s : Store.name) (o : Store.object)
    (a : positive) (arr arr' : list ascii) :
  Store.well_formed σ →
  Store.objects σ !! s = Some o → Store.data o = Some a →
  Store.arrays σ !! a = Some arr →
  List.length arr' = List.length arr →
  arr' !! Z.to_nat (Store.length o) = Some NUL →
  let σ' := {| Store.arrays := <[a := arr']> (Store.arrays σ);
               Store.objects := Store.objects σ |} in
  Store.well_formed σ' ∧
  Store.value σ' s = Some (take (Z.to_nat (Store.length o)) arr') ∧
  others_unchanged σ σ' s ∧
  base.size (Store.arrays σ') = base.size (Store.arrays σ).
Proof.
  intros [Hown Huniq] Ho Ha Harr Hlen Hnul σ'.
  destruct (Hown s o Ho) as (a0 & arr0 & Ha0 & Harr0 & Hlen0 & Hlen1 & _).
  rewrite Ha in Ha0. injection Ha0 as <-. rewrite Harr in Harr0. injection Harr0 as <-.
  assert (Hother : ∀ n o', n ≠ s → Store.objects σ !! n = Some o' →
            ∃ a' arr1, Store.data o' = Some a' ∧
                       Store.arrays σ !! a' = Some arr1 ∧
                       Store.arrays σ' !! a' = Some arr1).
  { intros n o' Hn Ho'. destruct (Hown n o' Ho') as (a' & arr1 & Ha' & Harr1 & _).
    exists a', arr1. split; [done|]. split; [done|].
    unfold σ'. simpl. rewrite lookup_insert_ne; [done|].
    intros <-. apply Hn. apply (Huniq n s o' o); congruence. }
  split; [split|split; [|split]].
  - intros n o' Hn. change (Store.objects σ !! n = Some o') in Hn.
    destruct (decide (n = s)) as [->|Hne].
    + rewrite Ho in Hn. injection Hn as <-. exists a, arr'.
      split; [done|]. split; [apply lookup_insert_eq|]. split; [done|].
      split; [lia|done].
    + destruct (Hown n o' Hn) as (a' & arr1 & Ha' & Harr1 & ? & ? & ?).
      destruct (Hother n o' Hne Hn) as (a2 & arr2 & Ha2 & _ & Harr2).
      rewrite Ha' in Ha2. injection Ha2 as <-.
      exists a', arr1. split; [done|]. split; [|done].
      rewrite Harr2. f_equal.
      unfold σ' in Harr2. simpl in Harr2.
      destruct (decide (a = a')) as [<-|Hna].
      * exfalso. apply Hne. apply (Huniq n s o' o); congruence.
      * rewrite lookup_insert_ne in Harr2 by done. congruence.
  - intros n1 n2 o1 o2 H1 H2. by apply Huniq.
  - apply (store_value_eq σ' s o a arr'); try done; [apply lookup_insert_eq|lia].
  - intros n Hn. unfold Store.value. change (Store.objects σ' !! n) with (Store.objects σ !! n).
    destruct (Store.objects σ !! n) as [o'|] eqn:Ho'; [|done].
    destruct (Hother n o' Hn Ho') as (a' & arr1 & Ha' & Harr1 & Harr1').
    cbn [mbind option_bind]. rewrite Ha'. cbn [mbind option_bind].
    by rewrite Harr1, Harr1'.
  - unfold σ'. simpl. apply map_size_insert_Some. by rewrite Harr.
Qed.

(** X21. A write [s[index] = c] at an index of the string returns and is
    local: afterwards [s] holds its old bytes with the one at [index]
    replaced, as the write on the value says, reading [s[index]] gives
    [c], the invariant holds, and every other string and the number of
    arrays are as before.  At an index below 0 or above [length] the write
    has no defined result. *)
Theorem subscript_write_is_local (σ : Store.store) (s : Store.name)
    (v : DSString) (index : Z) (c : ascii) :
  Store.well_formed σ →
  Store.value σ s = Some v →
  (0 <= index < size v →
   ∃ σ', Store.index_assign σ s index c = Some σ' ∧
         Store.well_formed σ' ∧
         Store.value σ' s = operator_index_assign v index c ∧
         Store.value σ' s = Some (<[Z.to_nat index := c]> v) ∧
         Store.index_read σ' s index = Some c ∧
         others_unchanged σ σ' s ∧
         base.size (Store.arrays σ') = base.size (Store.arrays σ)) ∧
  (index < 0 ∨ size v < index → Store.index_assign σ s index c = None).
Proof.
  intros Hwf Hv.
  destruct (value_of_owned σ s v Hwf Hv)
    as (o & a & arr & len & Ho & Ha & Harr & Hlen & Hlarr & Hnul & ->).
  assert (Hsize : size (take len arr) = Z.of_nat len).
  { unfold size. rewrite length_take. lia. }
  rewrite Hsize. split.
  - intros Hidx.
    assert (∃ k : nat, index = Z.of_nat k) as [k ->] by (exists (Z.to_nat index); lia).
    exists {| Store.arrays := <[a := <[k := c]> arr]> (Store.arrays σ);
              Store.objects := Store.objects σ |}.
    split.
    { unfold Store.index_assign. rewrite Ho. cbn [mbind option_bind]. rewrite Ha.
      by rewrite (array_write_Some _ a arr) by (done || lia). }
    destruct (rewritten_array σ s o a arr (<[k := c]> arr))
      as (Hwf' & Hval & Hothers & Hcount); try done.
    { apply length_insert. }
    { rewrite Hlen, Nat2Z.id. rewrite list_lookup_insert_ne by lia. done. }
    assert (Hnew : take (Z.to_nat (Store.length o)) (<[k := c]> arr)
                   = <[k := c]> (take len arr)).
    { rewrite Hlen, Nat2Z.id. by rewrite take_insert_lt by lia. }
    split; [done|]. split; [|split; [|split]].
    + rewrite Hval, Hnew. unfold operator_index_assign. rewrite Hsize.
      replace ((0 <=? Z.of_nat k) && (Z.of_nat k <? Z.of_nat len)) with true
        by (symmetry; apply andb_true_iff; lia).
      by rewrite Nat2Z.id.
    + rewrite Hval, Hnew. by rewrite Nat2Z.id.
    + unfold Store.index_read. cbn [Store.objects Store.arrays].
      rewrite Ho. cbn [mbind option_bind]. rewrite Ha.
      apply (array_read_Some _ a (<[k := c]> arr)); [apply lookup_insert_eq|].
      apply list_lookup_insert_eq. lia.
    + done.
  - intros Hout. unfold Store.index_assign, Store.array_write.
    rewrite Ho. cbn [mbind option_bind]. rewrite Ha. cbn [mbind option_bind].
    rewrite Harr. cbn [mbind option_bind].
    replace ((0 <=? index) && (index <? Z.of_nat (List.length arr))) with false; [done|].
    symmetry. apply andb_false_iff. lia.
Qed.

Lemma subscript_write_is_local_witness :
  (0 <= 0 < size (lit "hello") →
   ∃ σ', Store.index_assign example_store 1%positive 0 "j"%char = Some σ' ∧
         Store.well_formed σ' ∧
         Store.value σ' 1%positive = operator_index_assign (lit "hello") 0 "j"%char ∧
         Store.value σ' 1%positive = Some (<[Z.to_nat 0 := "j"%char]> (lit "hello")) ∧
         Store.index_read σ' 1%positive 0 = Some "j"%char ∧
         others_unchanged example_store σ' 1%positive ∧
         base.size (Store.arrays σ') = base.size (Store.arrays example_store)) ∧
  (0 < 0 ∨ size (lit "hello") < 0 →
   Store.index_assign example_store 1%positive 0 "j"%char = None).
Proof.
  apply (subscript_write_is_local example_store 1%positive (lit "hello") 0 "j"%char).
  - exact example_store_well_formed.
  - reflexivity.
Defined.

(** The destructor of an object of a well-formed store. *)
Lemma destructor_result (σ : Store.store) (this : Store.name) (t : Store.object) :
  Store.well_formed σ →
  Store.objects σ !! this = Some t →
  ∃ ta tarr,
    Store.data t = Some ta ∧ Store.arrays σ !! ta = Some tarr ∧
    Members.destructor σ this =
      Some {| Store.arrays := delete ta (Store.arrays σ);
              Store.objects := delete this (Store.objects σ) |} ∧
    Store.well_formed {| Store.arrays := delete ta (Store.arrays σ);
                         Store.objects := delete this (Store.objects σ) |} ∧
    others_unchanged σ {| Store.arrays := delete ta (Store.arrays σ);
                          Store.objects := delete this (Store.objects σ) |} this.
Proof.
  intros [Hown Huniq] Ht.
  destruct (Hown this t Ht) as (ta & tarr & Hta & Htarr & _).
  exists ta, tarr. split; [done|]. split; [done|].
  assert (Hother : ∀ n o, n ≠ this → Store.objects σ !! n = Some o →
            ∃ a arr, Store.data o = Some a ∧ a ≠ ta ∧ Store.arrays σ !! a = Some arr ∧
                     0 <= Store.length o ∧
                     Z.of_nat (List.length arr) = Store.length o + 1 ∧
                     arr !! Z.to_nat (Store.length o) = Some NUL).
  { intros n o Hn Ho. destruct (Hown n o Ho) as (a & arr & Ha & Harr & ? & ? & ?).
    exists a, arr. repeat split; try done.
    intros ->. apply Hn. apply (Huniq n this o t); congruence. }
  split; [|split; [split|]].
  - unfold Members.destructor. rewrite Ht. cbn [mbind option_bind].
    unfold Store.delete_array. rewrite Hta, Htarr. done.
  - intros n o Hn. simpl in Hn. apply lookup_delete_Some in Hn as [Hne Hn].
    destruct (Hother n o) as (a & arr & Ha & Hna & Harr & ? & ? & ?); [done|done|].
    exists a, arr. split; [done|]. split; [|done].
    simpl. by rewrite lookup_delete_ne.
  - intros n1 n2 o1 o2 H1 H2. cbn [Store.objects] in H1, H2.
    apply lookup_delete_Some in H1 as [_ H1].
    apply lookup_delete_Some in H2 as [_ H2].
    by apply Huniq.
  - intros n Hn. unfold Store.value. cbn [Store.objects Store.arrays].
    rewrite lookup_delete_ne by done.
    destruct (Store.objects σ !! n) as [o|] eqn:Ho; [|done].
    destruct (Hother n o Hn Ho) as (a & arr & Ha & Hna & Harr & _).
    cbn [mbind option_bind]. rewrite Ha. cbn [mbind option_bind].
    by rewrite lookup_delete_ne.
Qed.

(** X22. The destructor returns for every string of a well-formed store,
    frees exactly the array of that string and ends the string: the
    invariant still holds, every other string is as it was, and the store
    has one array and one object fewer. *)
Theorem destructor_frees_its_array (σ : Store.store) (this : Store.name)
    (v : DSString) :
  Store.well_formed σ →
  Store.value σ this = Some v →
  ∃ σ', Members.destructor σ this = Some σ' ∧
        Store.well_formed σ' ∧
        Store.value σ' this = None ∧
        others_unchanged σ σ' this ∧
        S (base.size (Store.arrays σ')) = base.size (Store.arrays σ) ∧
        S (base.size (Store.objects σ')) = base.size (Store.objects σ).
Proof.
  intros Hwf Hv.
  destruct (value_of_owned σ this v Hwf Hv) as (t & _ & _ & _ & Ht & _).
  destruct (destructor_result σ this t Hwf Ht)
    as (ta & tarr & Hta & Htarr & Hd & Hwf' & Hothers).
  eexists. split; [exact Hd|]. split; [done|]. split; [|split; [done|split]].
  - unfold Store.value. cbn [Store.objects]. by rewrite lookup_delete_eq.
  - cbn [Store.arrays]. rewrite map_size_delete, Htarr.
    assert (base.size (Store.arrays σ) ≠ 0%nat); [|lia].
    intros H0. apply map_size_empty_iff in H0. rewrite H0 in Htarr. done.
  - cbn [Store.objects]. rewrite map_size_delete, Ht.
    assert (base.size (Store.objects σ) ≠ 0%nat); [|lia].
    intros H0. apply map_size_empty_iff in H0. rewrite H0 in Ht. done.
Qed.

Lemma destructor_frees_its_array_witness :
  ∃ σ', Members.destructor example_store 2%positive = Some σ' ∧
        Store.well_formed σ' ∧
        Store.value σ' 2%positive = None ∧
        others_unchanged example_store σ' 2%positive ∧
        S (base.size (Store.arrays σ')) = base.size (Store.arrays example_store) ∧
        S (base.size (Store.objects σ')) = base.size (Store.objects example_store).
Proof.
  apply (destructor_frees_its_array example_store 2%positive (lit "hi")).
  - exact example_store_well_formed.
  - reflexivity.
Defined.

Lemma others_unchanged_trans (σ1 σ2 σ3 : Store.store) (this : Store.name) :
  others_unchanged σ1 σ2 this → others_unchanged σ2 σ3 this →
  others_unchanged σ1 σ3 this.
Proof. intros H12 H23 n Hn. by rewrite H23, H12. Qed.

Section Assignment.

Variable fresh_address : gmap positive (list ascii) → positive.
Variable indeterminate : ascii.
Hypothesis fresh_address_unused : ∀ h, h !! fresh_address h = None.

(** X23. Copying accounts for every array.  In a well-formed store the
    copy constructor returns and adds exactly one array; copy assignment
    to another existing string returns and keeps the number of arrays, the
    old array of the target having been deleted, and the number of
    objects.  In both cases the invariant holds afterwards, the target
    holds the string of the source, and every string other than the
    target, the source included, is as it was. *)
Theorem copying_accounts_for_arrays (σ : Store.store) (this other : Store.name)
    (b : DSString) :
  Store.well_formed σ →
  Store.value σ other = Some b →
  (Store.objects σ !! this = None →
   ∃ σ', Store.copy_constructor fresh_address indeterminate σ this other = Some σ' ∧
         Store.well_formed σ' ∧
         Store.value σ' this = Some b ∧
         others_unchanged σ σ' this ∧
         base.size (Store.arrays σ') = S (base.size (Store.arrays σ))) ∧
  (is_Some (Store.objects σ !! this) → this ≠ other →
   ∃ σ', Store.operator_assign fresh_address indeterminate σ this other = Some σ' ∧
         Store.well_formed σ' ∧
         Store.value σ' this = Some b ∧
         others_unchanged σ σ' this ∧
         base.size (Store.arrays σ') = base.size (Store.arrays σ) ∧
         base.size (Store.objects σ') = base.size (Store.objects σ)).
Proof using fresh_address_unused.
  intros Hwf Hb.
  destruct (value_of_owned σ other b Hwf Hb)
    as (o & sa & sarr & len & Ho & Hsa & Hsarr & Hlen & Hlarr & Hnul & ->).
  split.
  - intros Hnew.
    set (a := fresh_address (Store.arrays σ)).
    exists {| Store.arrays := <[a := sarr]> (Store.arrays σ);
              Store.objects :=
                <[this := {| Store.data := Some a; Store.length := Z.of_nat len |}]>
                  (Store.objects σ) |}.
    split.
    + unfold Store.copy_constructor. rewrite Ho. cbn [mbind option_bind].
      pose proof (allocate_and_copy fresh_address indeterminate fresh_address_unused
                    (Store.arrays σ) sa sarr (Z.of_nat len)) as Hcopy.
      unfold Store.new_char_array in Hcopy |- *. cbn [fst snd] in Hcopy.
      cbv beta iota zeta. rewrite Hsa, Hlen, Hcopy; try done; try lia.
      by rewrite Nat2Z.id.
    + destruct (installed_object σ this a sarr (Z.of_nat len))
        as (Hwf' & Hval & Hothers & Hsize); try done; try lia.
      { apply fresh_address_unused. }
      { by rewrite Nat2Z.id. }
      rewrite Nat2Z.id in Hval. done.
  - intros [t Ht] Hne.
    destruct (destructor_result σ this t Hwf Ht)
      as (ta & tarr & Hta & Htarr & _ & Hwf0 & Hothers0).
    set (h0 := delete ta (Store.arrays σ)) in *.
    set (a := fresh_address h0).
    assert (Htasa : ta ≠ sa).
    { intros ->. apply Hne. destruct Hwf as [_ Huniq].
      apply (Huniq this other t o); congruence. }
    assert (Hsrc : h0 !! sa = Some sarr) by (unfold h0; by rewrite lookup_delete_ne).
    exists {| Store.arrays := <[a := sarr]> h0;
              Store.objects :=
                <[this := {| Store.data := Some a; Store.length := Z.of_nat len |}]>
                  (Store.objects σ) |}.
    split.
    + unfold Store.operator_assign. rewrite decide_False by done.
      rewrite Ht, Ho. cbn [mbind option_bind].
      unfold Store.delete_array. rewrite Hta, Htarr. cbn [mbind option_bind].
      fold h0.
      pose proof (allocate_and_copy fresh_address indeterminate fresh_address_unused
                    h0 sa sarr (Z.of_nat len)) as Hcopy.
      unfold Store.new_char_array in Hcopy |- *. cbn [fst snd] in Hcopy.
      cbv beta iota zeta. rewrite Hsa, Hlen, Hcopy; try done; try lia.
      by rewrite Nat2Z.id.
    + destruct (installed_object
                  {| Store.arrays := h0; Store.objects := delete this (Store.objects σ) |}
                  this a sarr (Z.of_nat len))
        as (Hwf' & Hval & Hothers & Hsize); try done; try lia.
      { cbn [Store.objects]. apply lookup_delete_eq. }
      { apply fresh_address_unused. }
      { by rewrite Nat2Z.id. }
      cbn [Store.objects Store.arrays] in Hwf', Hval, Hothers, Hsize.
      rewrite insert_delete_eq in Hwf', Hval, Hothers.
      rewrite Nat2Z.id in Hval.
      split; [done|]. split; [done|]. split; [|split].
      * by apply (others_unchanged_trans _ _ _ _ Hothers0).
      * cbn [Store.arrays]. rewrite Hsize. unfold h0.
        rewrite map_size_delete, Htarr.
        assert (base.size (Store.arrays σ) ≠ 0%nat); [|lia].
        intros H0. apply map_size_empty_iff in H0. rewrite H0 in Htarr. done.
      * cbn [Store.objects]. by apply map_size_insert_Some.
Qed.

End Assignment.

Lemma construct_and_destroy_witness :
  ∃ σ', Members.default_constructor least_unused "?"%char example_store 3%positive
          = Some σ' ∧
        Store.well_formed σ' ∧
        Store.value σ' 3%positive = Some [] ∧
        others_unchanged example_store σ' 3%positive ∧
        base.size (Store.arrays σ') = S (base.size (Store.arrays example_store)) ∧
        Members.destructor σ' 3%positive = Some example_store.
Proof.
  apply (construct_and_destroy least_unused "?"%char least_unused_unused
           example_store 3%positive).
  - exact example_store_well_formed.
  - reflexivity.
Defined.

Lemma cstring_constructor_copies_witness :
  (∃ σ', Members.cstring_constructor least_unused "?"%char example_store 3%positive
           (Some 1%positive) = Some σ' ∧
         Store.well_formed σ' ∧
         Store.value σ' 3%positive = Some (DSString_of (Some (lit "hello" ++ [NUL]))) ∧
         others_unchanged example_store σ' 3%positive ∧
         Store.arrays σ' !! 1%positive = Some (lit "hello" ++ [NUL]) ∧
         base.size (Store.arrays σ') = S (base.size (Store.arrays example_store))) ∧
  (∃ σ', Members.cstring_constructor least_unused "?"%char example_store 3%positive None
           = Some σ' ∧
         Store.well_formed σ' ∧ Store.value σ' 3%positive = Some []).
Proof.
  apply (cstring_constructor_copies least_unused "?"%char least_unused_unused
           example_store 3%positive 1%positive (lit "hello" ++ [NUL])).
  - exact example_store_well_formed.
  - reflexivity.
  - reflexivity.
  - apply (bool_decide_unpack _). reflexivity.
Defined.


Lemma toLowerCase_builds_new_string_witness :
  ∃ σ', Members.toLowerCase least_unused "?"%char SignedChar example_store
          3%positive 1%positive = Some σ' ∧
        Store.well_formed σ' ∧
        Store.value σ' 3%positive = Some (toLowerCase SignedChar (lit "hello")) ∧
        others_unchanged example_store σ' 3%positive ∧
        base.size (Store.arrays σ') = S (base.size (Store.arrays example_store)).
Proof.
  apply (toLowerCase_builds_new_string least_unused "?"%char least_unused_unused
           SignedChar example_store 3%positive 1%positive).
  - exact example_store_well_formed.
  - reflexivity.
  - reflexivity.
Defined.

Lemma copying_accounts_for_arrays_witness :
  (Store.objects example_store !! 2%positive = None →
   ∃ σ', Store.copy_constructor least_unused "?"%char example_store
           2%positive 1%positive = Some σ' ∧
         Store.well_formed σ' ∧
         Store.value σ' 2%positive = Some (lit "hello") ∧
         others_unchanged example_store σ' 2%positive ∧
         base.size (Store.arrays σ') = S (base.size (Store.arrays example_store))) ∧
  (is_Some (Store.objects example_store !! 2%positive) → 2%positive ≠ 1%positive →
   ∃ σ', Store.operator_assign least_unused "?"%char example_store
           2%positive 1%positive = Some σ' ∧
         Store.well_formed σ' ∧
         Store.value σ' 2%positive = Some (lit "hello") ∧
         others_unchanged example_store σ' 2%positive ∧
         base.size (Store.arrays σ') = base.size (Store.arrays example_store) ∧
         base.size (Store.objects σ') = base.size (Store.objects example_store)).
Proof.
  apply (copying_accounts_for_arrays least_unused "?"%char least_unused_unused
           example_store 2%positive 1%positive (lit "hello")).
  - exact example_store_well_formed.
  - reflexivity.
Defined.

Lemma store_operator_eq_loop_spec (h : gmap positive (list ascii))
    (a1 a2 : positive) (arr1 arr2 : list ascii) (n i : nat) :
  h !! a1 = Some arr1 → h !! a2 = Some arr2 →
  (i + n ≤ List.length arr1)%nat → (i + n ≤ List.length arr2)%nat →
  Store.operator_eq_loop h (Some a1) (Some a2) (Z.of_nat i) n =
    Some (operator_eq_loop (take n (drop i arr1)) (take n (drop i arr2))).
Proof.
  intros H1 H2. revert i. induction n as [|n IH]; intros i Hl1 Hl2.
  - by rewrite !take_0.
  - destruct (lookup_lt_is_Some_2 arr1 i) as [c1 Hc1]; [lia|].
    destruct (lookup_lt_is_Some_2 arr2 i) as [c2 Hc2]; [lia|].
    cbn [Store.operator_eq_loop].
    rewrite (array_read_Some h a1 arr1 i c1), (array_read_Some h a2 arr2 i c2) by done.
    cbn [mbind option_bind].
    rewrite (drop_S arr1 c1 i), (drop_S arr2 c2 i) by done.
    cbn [take operator_eq_loop firstn].
    destruct (negb (Ascii.eqb c1 c2)); [done|].
    replace (Z.of_nat i + 1) with (Z.of_nat (S i)) by lia.
    apply IH; lia.
Qed.

(** X24. On the strings of a well-formed store, [operator==] reads only
    inside the two arrays and returns what the comparison of the two
    values returns: [true] exactly when the two strings hold the same
    bytes.  This includes a string compared with itself. *)
Theorem equality_reads_inside_arrays (σ : Store.store) (this other : Store.name)
    (a b : DSString) :
  Store.well_formed σ →
  Store.value σ this = Some a → Store.value σ other = Some b →
  Store.operator_eq σ this other = Some (operator_eq a b) ∧
  (Store.operator_eq σ this other = Some true ↔ a = b).
Proof.
  intros Hwf Ha Hb.
  assert (Heq : Store.operator_eq σ this other = Some (operator_eq a b)).
  { destruct (value_of_owned σ this a Hwf Ha)
      as (t & ta & tarr & tlen & Ht & Hta & Htarr & Htlen & Htl & _ & ->).
    destruct (value_of_owned σ other b Hwf Hb)
      as (o & oa & oarr & olen & Ho & Hoa & Hoarr & Holen & Hol & _ & ->).
    unfold Store.operator_eq, operator_eq, size.
    rewrite Ht, Ho. cbn [mbind option_bind].
    rewrite Htlen, Holen, !length_take, Hta, Hoa, Htl, Hol.
    replace (Z.of_nat (tlen `min` S tlen)) with (Z.of_nat tlen) by lia.
    replace (Z.of_nat (olen `min` S olen)) with (Z.of_nat olen) by lia.
    destruct (Z.eqb_spec (Z.of_nat tlen) (Z.of_nat olen)) as [Hlen|Hlen]; [|done].
    cbn [negb]. apply Nat2Z.inj in Hlen. subst olen. rewrite Nat2Z.id.
    change 0 with (Z.of_nat 0).
    rewrite (store_operator_eq_loop_spec _ ta oa tarr oarr tlen 0) by (done || lia).
    by rewrite !drop_0. }
  split; [done|]. rewrite Heq. rewrite <- operator_eq_true.
  split; [by intros [= ->]|by intros ->].
Qed.

Lemma equality_reads_inside_arrays_witness :
  Store.operator_eq example_store 1%positive 2%positive
    = Some (operator_eq (lit "hello") (lit "hi")) ∧
  (Store.operator_eq example_store 1%positive 2%positive = Some true
   ↔ lit "hello" = lit "hi").
Proof.
  apply (equality_reads_inside_arrays example_store 1%positive 2%positive).
  - exact example_store_well_formed.
  - reflexivity.
  - reflexivity.
Defined.
